(** * PDB-GO-DualPredictor: the ontology-term comparison engine of [main.py]

    The development embeds the pure core of [main.py]:
    - [_go_distance] with its local breadth-first search [_min_steps],
    - [_semantic_pairs],
    - the reconciliation and report assembly of [analyze_pdb].

    Conventions of the embedding.
    - A GO identifier is a [string].
    - The global [godag] (a goatools [GODag]) is a finite map from
      identifiers to nodes; of a node the code only reads [parents] and, of
      each parent object, its [id], so a node is the list of its parents'
      identifiers in iteration order.
    - A Python [set] or [dict] that the code iterates is given by the list
      of its elements in iteration order; sets that are only built and
      returned are [gset]s.
    - Python's [None] result is [option]'s [None]; a raised exception is the
      [Raise] outcome of the small monad below.
    - A Python float is written as a rational ([Q]): the result of one
      division of two integers is written as the exact quotient, which the
      float is the correct rounding of.  Where the program adds floats
      ([sum]), every addition rounds, and the model rounds with [binary64],
      round-to-nearest-even at 53 binary digits.  The exponent range of the
      format is not modelled: the numbers met are quotients [1 / (1 + d)],
      their partial sums and the counts of elements. *)

From Stdlib Require Import QArith Qminmax Qround Qabs Qpower Lia Lqa.
From stdpp Require Import base gmap sets list strings.

Close Scope Q_scope.
#[local] Set Warnings "-clear-no-such-hyp".

(** ** The ontology graph *)

Record GOTerm := mkGOTerm { parents : list string }.

Section Ontology.

Variable godag : gmap string GOTerm.

(** Every identifier that occurs as a parent of some node. *)
Definition parent_universe : gset string :=
  ⋃ ((λ kv : string * GOTerm, list_to_set (parents kv.2)) <$> map_to_list godag).

(** A bound on the number of identifiers a search can ever enqueue: the
    start term and every identifier that is a parent of something. *)
Definition search_bound : nat := S (S (size parent_universe)).

(** goatools' [GOTerm.get_all_parents]: the identifier of every parent,
    united with that parent's own [get_all_parents].  The recursion of the
    library follows parent objects and ends because the ontology is
    acyclic; here it follows identifiers through [godag] and is cut at
    [depth].  [get_all_parents_rec_more_depth] shows that the cut at
    [search_bound] loses nothing. *)
Fixpoint get_all_parents_rec (depth : nat) (node : GOTerm) : gset string :=
  match depth with
  | 0 => ∅
  | S depth' =>
      ⋃ ((λ par : string,
            {[par]} ∪ match godag !! par with
                      | Some pnode => get_all_parents_rec depth' pnode
                      | None => ∅
                      end) <$> parents node)
  end.

Definition get_all_parents (node : GOTerm) : gset string :=
  get_all_parents_rec search_bound node.

(** The inner [for par in node.parents] loop of [_min_steps]: every parent
    not yet seen is marked and appended to the queue. *)
Definition enqueue_parents (step : nat) (pars : list string)
    (queue : list (string * nat)) (seen : gset string)
    : list (string * nat) * gset string :=
  fold_left
    (λ (st : list (string * nat) * gset string) (par : string),
       if decide (par ∈ st.2) then st
       else (st.1 ++ [(par, S step)], {[par]} ∪ st.2))
    pars (queue, seen).

(** The [while queue] loop of [_min_steps]; [fuel] bounds the number of
    iterations.  Every iteration pops one entry and an identifier is
    enqueued at most once, so [search_bound] iterations are never used up
    ([_min_steps_more_fuel]). *)
Fixpoint _min_steps_loop (fuel : nat) (target_set : gset string)
    (queue : list (string * nat)) (seen : gset string) : option nat :=
  match fuel with
  | 0 => None
  | S fuel' =>
      match queue with
      | [] => None
      | (cur, step) :: rest =>
          if decide (cur ∈ target_set) then Some step
          else match godag !! cur with
               | None => _min_steps_loop fuel' target_set rest seen
               | Some node =>
                   let '(queue', seen') :=
                     enqueue_parents step (parents node) rest seen in
                   _min_steps_loop fuel' target_set queue' seen'
               end
      end
  end.

(** The local function [_min_steps] of [_go_distance]: the breadth-first
    search from [start_go] upward through [parents] for a member of
    [target_set]. *)
Definition _min_steps (start_go : string) (target_set : gset string)
    : option nat :=
  _min_steps_loop search_bound target_set [(start_go, 0)] {[start_go]}.

(** The [for ca in common] loop of [_go_distance], over the elements of
    [common] in iteration order; the result does not depend on that order
    ([best_over_Permutation]). *)
Definition best_over (go1 go2 : string) (common : list string)
    (best : option nat) : option nat :=
  fold_left
    (λ (best : option nat) (ca : string),
       match _min_steps go1 {[ca]}, _min_steps go2 {[ca]} with
       | Some da, Some db =>
           Some (match best with
                 | Some m => Nat.min m (da + db)
                 | None => da + db
                 end)
       | _, _ => best
       end)
    common best.

(** [_go_distance]: [Some] edge count, or [None] where the code returns
    [None]. *)
Definition _go_distance (go1 go2 : string) : option nat :=
  if decide (go1 = go2) then Some 0
  else match godag !! go1, godag !! go2 with
       | Some a, Some b =>
           let a_anc : gset string := {[go1]} ∪ get_all_parents a in
           let b_anc : gset string := {[go2]} ∪ get_all_parents b in
           let common := a_anc ∩ b_anc in
           if decide (common = ∅) then None
           else best_over go1 go2 (elements common) None
       | _, _ => None
       end.

End Ontology.

(** ** Parent paths: the vocabulary of the distance claims *)

Section Paths.

Variable godag : gmap string GOTerm.

(** [edge x y]: [y] is the identifier of a direct parent of the node that
    [x] resolves to. *)
Definition edge (x y : string) : Prop :=
  ∃ node, godag !! x = Some node ∧ y ∈ parents node.

(** [path n x c]: [c] is reached from [x] by following [n] parent edges. *)
Inductive path : nat → string → string → Prop :=
| path_here x : path 0 x x
| path_up n x y c : edge x y → path n y c → path (S n) x c.

(** [steps x c n]: [n] is the minimum edge count of a parent path from
    [x] to [c]. *)
Definition steps (x c : string) (n : nat) : Prop :=
  path n x c ∧ ∀ m, path m x c → n ≤ m.

(** The ancestor set of a term includes the term itself. *)
Definition ancestor (x c : string) : Prop := ∃ n, path n x c.

Definition common_ancestor (x y c : string) : Prop :=
  ancestor x c ∧ ancestor y c.

End Paths.

(** ** Vocabulary of the search proof *)

(** The queue holds at most two consecutive levels, the lower one first. *)
Definition two_level (queue : list (string * nat)) : Prop :=
  ∃ d q1 q2, queue = q1 ++ q2
             ∧ Forall (λ e, e.2 = d) q1 ∧ Forall (λ e, e.2 = S d) q2.

Section SearchInvariant.

Variable godag : gmap string GOTerm.
Variable start_go : string.
Variable target_set : gset string.

(** The invariant of the [while queue] loop. *)
Record bfs_inv (queue : list (string * nat)) (seen : gset string) : Prop := {
  inv_path : ∀ v d, (v, d) ∈ queue → path godag d start_go v;
  inv_seen : ∀ v d, (v, d) ∈ queue → v ∈ seen;
  inv_nodup : NoDup queue.*1;
  inv_closed : ∀ v, v ∈ seen → v ∉ queue.*1 →
               (v ∉ target_set) ∧ (∀ w, edge godag v w → w ∈ seen);
  inv_levels : two_level queue;
  inv_front : ∀ w m, path godag m start_go w →
              (w ∈ seen ∧ w ∉ queue.*1)
              ∨ (∃ v d k, (v, d) ∈ queue ∧ path godag k v w ∧ d + k ≤ m);
  inv_size : ∀ v d, (v, d) ∈ queue → S d ≤ size seen;
  inv_univ : seen ⊆ {[start_go]} ∪ parent_universe godag;
}.

(** What a result of the search must satisfy: a returned count is the
    least length of a parent path from [start_go] into [target_set], and
    [None] means that no such path exists. *)
Definition min_steps_result (r : option nat) : Prop :=
  match r with
  | Some d =>
      (∃ t, t ∈ target_set ∧ path godag d start_go t)
      ∧ (∀ t m, t ∈ target_set → path godag m start_go t → d ≤ m)
      ∧ d ≤ size (parent_universe godag)
  | None => ∀ t m, t ∈ target_set → ¬ path godag m start_go t
  end.

(** The number of iterations still to come. *)
Definition bfs_measure (queue : list (string * nat)) (seen : gset string) : nat :=
  length queue + size (({[start_go]} ∪ parent_universe godag) ∖ seen).

End SearchInvariant.

(** The sum the loop body of [_go_distance] computes for one common
    ancestor. *)
Definition pair_steps (godag : gmap string GOTerm) (go1 go2 ca : string)
    : option nat :=
  match _min_steps godag go1 {[ca]}, _min_steps godag go2 {[ca]} with
  | Some da, Some db => Some (da + db)
  | _, _ => None
  end.

(** The synthetic graph of the specification: root R, children X and Y of
    R, child Z of X. *)
Definition dag_RXYZ : gmap string GOTerm :=
  <["R" := mkGOTerm []]>
  (<["X" := mkGOTerm ["R"]]>
  (<["Y" := mkGOTerm ["R"]]>
  (<["Z" := mkGOTerm ["X"]]> ∅))).

(** ** Python outcomes *)

(** The exceptions the embedded code could raise. *)
Inductive PyExc := ZeroDivisionError | KeyError.

(** A Python computation either returns a value or raises. *)
Inductive outcome (A : Type) : Type :=
| Ok (a : A)
| Raise (e : PyExc).
Arguments Ok {A} a.
Arguments Raise {A} e.

#[global] Instance outcome_ret : MRet outcome := λ A a, Ok a.
#[global] Instance outcome_bind : MBind outcome :=
  λ A B k m, match m with Ok a => k a | Raise e => Raise e end.

#[global] Instance Qle_decision (x y : Q) : Decision (x <= y)%Q.
Proof.
  destruct (Qlt_le_dec y x) as [Hlt | Hle].
  - right. by apply Qlt_not_le.
  - by left.
Defined.

#[global] Instance Qlt_decision (x y : Q) : Decision (x < y)%Q.
Proof.
  destruct (Qlt_le_dec x y) as [Hlt | Hle].
  - by left.
  - right. by apply Qle_not_lt.
Defined.

#[global] Instance Qeq_decision (x y : Q) : Decision (x == y)%Q := Qeq_dec x y.

(** A Python [int] used in a float operation. *)
Definition Q_of_nat (n : nat) : Q := inject_Z (Z.of_nat n).

(** Python's true division [x / y]: it raises on a zero divisor.  The
    quotient is kept in lowest terms, so that equal numbers are equal
    values. *)
Definition py_div (x y : Q) : outcome Q :=
  if decide (y == 0)%Q then Raise ZeroDivisionError else Ok (Qred (x / y)).

(** ** Rounding to binary64 *)

Definition pow2 (z : Z) : Q := (2 ^ z)%Q.

(** The exponent [e] with [2 ^ e <= x < 2 ^ (e + 1)], for a positive [x]. *)
Definition binade (x : Q) : Z :=
  let e := (Z.log2 (Qnum x) - Z.log2 (Z.pos (Qden x)))%Z in
  if decide (pow2 e <= x)%Q then e else (e - 1)%Z.

(** The nearest integer, the even one of two nearest. *)
Definition round_half_even (q : Q) : Z :=
  let f := Qfloor q in
  let r := (q - inject_Z f)%Q in
  if decide (r < 1 # 2)%Q then f
  else if decide ((1 # 2) < r)%Q then (f + 1)%Z
  else if Z.even f then f else (f + 1)%Z.

(** The distance of the floats next to [x]: a float has 53 binary digits. *)
Definition ulp (x : Q) : Q := pow2 (binade (Qabs x) - 52).

(** The float nearest to [x], the one with an even last digit of two
    nearest. *)
Definition binary64 (x : Q) : Q :=
  if decide (x == 0)%Q then 0%Q
  else
    let m := (inject_Z (round_half_even (Qabs x / ulp x)) * ulp x)%Q in
    Qred (if decide (0 < x)%Q then m else (- m)%Q).

(** The unit roundoff [2 ^ -53]: the greatest relative error of one
    rounding. *)
Definition unit_roundoff : Q := 1 # 9007199254740992.

(** [computed] is [exact] up to [k] roundings. *)
Definition within_roundings (k : nat) (exact computed : Q) : Prop :=
  ((1 - unit_roundoff) ^ Z.of_nat k * exact <= computed)%Q
  ∧ (computed <= (1 + unit_roundoff) ^ Z.of_nat k * exact)%Q.

(** Two computed numbers that differ by at most [k] roundings each from a
    common exact value. *)
Definition agree_within_roundings (k : nat) (x y : Q) : Prop :=
  ((1 - unit_roundoff) ^ Z.of_nat k * x
   <= (1 + unit_roundoff) ^ Z.of_nat k * y)%Q
  ∧ ((1 - unit_roundoff) ^ Z.of_nat k * y
     <= (1 + unit_roundoff) ^ Z.of_nat k * x)%Q.

(** [sum(...)] over floats: Python adds from the left, starting at [0],
    and every addition rounds (the plain summation of CPython's [sum]
    before version 3.12, which adds a correction term).  The elements are
    rounded first: they are written as exact quotients. *)
Definition py_sum (xs : list Q) : Q :=
  fold_left (λ acc x, binary64 (acc + binary64 x)%Q) xs 0%Q.

(** ** The similarity scorer [_semantic_pairs] *)

(** A recorded triple [(goA, goB, score)]. *)
Definition SimilarityPair : Type := string * string * Q.

Definition pair_score (p : SimilarityPair) : Q := p.2.

Section Scorer.

Variable godag : gmap string GOTerm.

(** [sim = 1 / (1 + d) if d is not None else 0.0] *)
Definition similarity (d : option nat) : outcome Q :=
  match d with
  | Some d => py_div 1 (1 + Q_of_nat d)
  | None => Ok 0%Q
  end.

(** The number [similarity] returns. *)
Definition sim_value (d : option nat) : Q :=
  match d with
  | Some d => Qred (1 / (1 + Q_of_nat d))
  | None => 0%Q
  end.

(** The inner [for b in setB] loop: [best] and [pair] are the loop's
    variables of the same names. *)
Fixpoint best_partner (a : string) (setB : list string)
    (best : Q) (pair : SimilarityPair) : outcome (Q * SimilarityPair) :=
  match setB with
  | [] => Ok (best, pair)
  | b :: setB' =>
      sim ← similarity (_go_distance godag a b);
      if decide (best < sim)%Q
      then best_partner a setB' sim (a, b, sim)
      else best_partner a setB' best pair
  end.

(** The outer [for a in setA] loop, appending to [scores]; [found] is the
    value of [pair] when the inner loop ends. *)
Fixpoint collect_scores (setA setB : list string)
    (scores : list SimilarityPair) : outcome (list SimilarityPair) :=
  match setA with
  | [] => Ok scores
  | a :: setA' =>
      '(best, found) ← best_partner a setB 0%Q (a, EmptyString, 0%Q);
      collect_scores setA' setB
        (if decide (0 < best)%Q then scores ++ [found] else scores)
  end.

(** The lines after the loops: the mean of the recorded scores and the
    pairs at or above the threshold. *)
Definition score_summary (scores : list SimilarityPair) (sim_threshold : Q)
    : outcome (Q * list SimilarityPair) :=
  match scores with
  | [] => Ok (0%Q, [])
  | _ =>
      avg_score ← py_div (py_sum (pair_score <$> scores))
                         (Q_of_nat (length scores));
      Ok (avg_score,
          filter (λ p : SimilarityPair, (sim_threshold <= pair_score p)%Q) scores)
  end.

Definition _semantic_pairs (setA setB : list string) (sim_threshold : Q)
    : outcome (Q * list SimilarityPair) :=
  scores ← collect_scores setA setB [];
  score_summary scores sim_threshold.

End Scorer.

(** The default of [sim_threshold] and of [sem_sim_threshold]. *)
Definition default_sim_threshold : Q := (7 # 10)%Q.

(** ** Reconciliation and report assembly: [analyze_pdb] *)

(** The dictionary [analyze_pdb] returns. *)
Record ComparisonResult := mkComparisonResult {
  interpro_count : nat;
  deepfri_count : nat;
  common : gset string;
  common_count : nat;
  high_confidence_common : gset string;
  high_confidence_count : nat;
  interpro_only : gset string;
  interpro_only_count : nat;
  deepfri_only : gset string;
  deepfri_only_count : nat;
  jaccard : Q;
  deepfri_scores : list (string * Q);
  semantic_avg_sim : Q;
  semantic_pairs : list SimilarityPair;
  semantic_pairs_count : nat;
}.

(** A [dict] from GO identifiers to scores, as the list of its items in
    insertion order. *)
Definition dict_keys (d : list (string * Q)) : list string := d.*1.

(** [d[k]]: raises [KeyError] when [k] is not a key. *)
Definition dict_getitem (d : list (string * Q)) (k : string) : outcome Q :=
  match (list_to_map d : gmap string Q) !! k with
  | Some v => Ok v
  | None => Raise KeyError
  end.

(** The cutoff written into the comprehension of [high_conf_common]. *)
Definition high_confidence_cutoff : Q := (8 # 10)%Q.

(** [{go for go in common if df_go[go] >= 0.8}], over the elements of
    [common] in iteration order. *)
Fixpoint high_conf_comprehension (df_go : list (string * Q))
    (gos : list string) (acc : gset string) : outcome (gset string) :=
  match gos with
  | [] => Ok acc
  | go :: gos' =>
      score ← dict_getitem df_go go;
      high_conf_comprehension df_go gos'
        (if decide (high_confidence_cutoff <= score)%Q then {[go]} ∪ acc else acc)
  end.

(** [analyze_pdb] after its three input lines: [ipro_go] is the set that
    [_interpro] returned and [df_go] the dictionary that [_deepfri]
    returned, both in iteration order. *)
Definition analyze_pdb (godag : gmap string GOTerm)
    (ipro_go : list string) (df_go : list (string * Q))
    (sem_sim_threshold : Q) : outcome ComparisonResult :=
  let ipro_set : gset string := list_to_set ipro_go in
  let df_keys : gset string := list_to_set (dict_keys df_go) in
  let common := ipro_set ∩ df_keys in
  let ipro_only := ipro_set ∖ df_keys in
  let df_only := df_keys ∖ ipro_set in
  jaccard ← (if decide (ipro_set ∪ df_keys = ∅) then Ok 0%Q
             else py_div (Q_of_nat (size common))
                         (Q_of_nat (size (ipro_set ∪ df_keys))));
  high_conf_common ← high_conf_comprehension df_go (elements common) ∅;
  '(avg_sem_sim, sem_pairs) ←
    _semantic_pairs godag ipro_go (dict_keys df_go) sem_sim_threshold;
  Ok {| interpro_count := length ipro_go;
        deepfri_count := length df_go;
        common := common;
        common_count := size common;
        high_confidence_common := high_conf_common;
        high_confidence_count := size high_conf_common;
        interpro_only := ipro_only;
        interpro_only_count := size ipro_only;
        deepfri_only := df_only;
        deepfri_only_count := size df_only;
        jaccard := jaccard;
        deepfri_scores := df_go;
        semantic_avg_sim := avg_sem_sim;
        semantic_pairs := sem_pairs;
        semantic_pairs_count := length sem_pairs |}.

(** [go] is a key of [df_go] whose score is at least [threshold]. *)
Definition score_at_least (threshold : Q) (df_go : list (string * Q))
    (go : string) : Prop :=
  match (list_to_map df_go : gmap string Q) !! go with
  | Some score => (threshold <= score)%Q
  | None => False
  end.

#[global] Instance score_at_least_decision threshold df_go go :
  Decision (score_at_least threshold df_go go).
Proof.
  unfold score_at_least.
  destruct ((list_to_map df_go : gmap string Q) !! go); apply _.
Defined.

(** The filter of the specification's reconciler, with the cutoff as an
    argument: the terms of [common] whose score in [df_go] is at least
    [confidenceThreshold]. *)
Definition high_confidence_at (confidenceThreshold : Q)
    (df_go : list (string * Q)) (common : gset string) : gset string :=
  filter (score_at_least confidenceThreshold df_go) common.

(** ** Vocabulary of the scorer and reconciler claims *)

Section ScorerVocabulary.

Variable godag : gmap string GOTerm.

(** The similarity of two terms: [1 / (1 + distance)], or [0] when the
    distance is undefined. *)
Definition term_similarity (a b : string) : Q :=
  sim_value (_go_distance godag a b).

(** [p = (a, b, s)] pairs [a] with the first term of [setB] that attains
    the greatest similarity to [a], and that similarity is positive. *)
Definition first_best_partner (setB : list string) (p : SimilarityPair) : Prop :=
  let '(a, b, s) := p in
  s = term_similarity a b
  ∧ (0 < s)%Q
  ∧ ∃ l1 l2, setB = l1 ++ b :: l2
             ∧ (∀ b', b' ∈ l1 → (term_similarity a b' < s)%Q)
             ∧ (∀ b', b' ∈ l2 → (term_similarity a b' <= s)%Q).

(** [a] has a partner in [setB] at a defined distance. *)
Definition has_partner (setB : list string) (a : string) : Prop :=
  Exists (λ b, (0 < term_similarity a b)%Q) setB.

#[global] Instance has_partner_decision setB a : Decision (has_partner setB a).
Proof. unfold has_partner. apply _. Defined.

End ScorerVocabulary.

(** The arithmetic mean of the scores, [0] for no pairs. *)
(** The arithmetic mean in exact arithmetic. *)
Definition exact_mean (xs : list Q) : Q :=
  (foldr Qplus 0 xs / inject_Z (Z.of_nat (length xs)))%Q.

Definition mean_score (scores : list SimilarityPair) : Q :=
  match scores with
  | [] => 0%Q
  | _ => Qred (py_sum (pair_score <$> scores) / Q_of_nat (length scores))
  end.

(** [|A ∩ B| / |A ∪ B|], and [0] when the union is empty. *)
Definition jaccard_index (A B : gset string) : Q :=
  if decide (A ∪ B = ∅) then 0%Q
  else Qred (Q_of_nat (size (A ∩ B)) / Q_of_nat (size (A ∪ B))).

(** The source term and the score of each pair, without the partner. *)
Definition source_scores (pairs : list SimilarityPair) : list (string * Q) :=
  (λ p : SimilarityPair, (p.1.1, pair_score p)) <$> pairs.

(** The greatest similarity of [a] to a term of [setB], [0] for none. *)
Definition max_similarity (godag : gmap string GOTerm) (setB : list string)
    (a : string) : Q :=
  foldr (λ b acc, Qmax (term_similarity godag a b) acc) 0%Q setB.

(** ** Sample inputs *)

(** The reconciliation example of the specification: scored source
    [{GO:0001: 0.9, GO:0002: 0.5}], plain source [{GO:0001, GO:0003}]. *)
Definition sample_df_go : list (string * Q) :=
  [("GO:0001", (9 # 10)%Q); ("GO:0002", (1 # 2)%Q)].

Definition sample_ipro_go : list string := ["GO:0001"; "GO:0003"].

(** Annotations over the synthetic graph. *)
Definition graph_df_go : list (string * Q) :=
  [("X", (9 # 10)%Q); ("Y", (6 # 10)%Q)].

Definition graph_df_go_reordered : list (string * Q) :=
  [("Y", (6 # 10)%Q); ("X", (9 # 10)%Q)].

(** Annotations with a term that the graph does not hold. *)
Definition mixed_df_go : list (string * Q) :=
  [("X", (9 # 10)%Q); ("Q", (6 # 10)%Q)].

(** Recorded pairs on both sides of the default threshold. *)
Definition sample_scores : list SimilarityPair :=
  [("GO:0001", "GO:0002", (7 # 10)%Q); ("GO:0003", "GO:0004", (1 # 2)%Q)].

(** * The input side: what the sources return

    The functions below read the JSON answers of the two services and the
    parsed PDB structure.  Their inputs are given at the shape the code
    expects: an object is a record, a key that may be absent (or, where
    the code writes [or], null) is an [option] field; what the
    code does on an answer of another shape (a number where a list is
    expected, a null score) is outside these functions, and the theorems
    about them say what holds when the code returns, or when it raises
    [KeyError].

    A Python [str] is a sequence of code points; a [string] here holds its
    UTF-8 encoding, so that prefixes, substrings and equality are those of
    the [str].  The pattern class [\d] of [re] is the set of decimal digits
    of the interpreter's Unicode database: the definitions take it as the
    parameter [decimal], a set of code points. *)

(** ** DeepFRI predictions: [_deepfri] and [extract_go_predictions] *)

(** One element [p] of a ["predictions"] list. *)
Record Prediction := mkPrediction {
  go_term : option string;
  go_term_name : option string;
  go_term_score : option Q;
}.

(** The object stored under a model name such as ["cnn_mf"]. *)
Record ModelOutput := mkModelOutput {
  predictions : option (list Prediction);
}.

(** [final_data]: the object under ["A"] maps model names to outputs. *)
Record FinalData := mkFinalData {
  chain_A : option (gmap string ModelOutput);
}.

(** [final_data.get("A", {}).get(model, {}).get("predictions", [])] *)
Definition model_predictions (final_data : FinalData) (model : string)
    : list Prediction :=
  match chain_A final_data with
  | None => []
  | Some outputs =>
      match outputs !! model with
      | None => []
      | Some output =>
          match predictions output with
          | None => []
          | Some ps => ps
          end
      end
  end.

(** [p[key]] on an object: [KeyError] when the key is absent. *)
Definition getitem {A : Type} (field : option A) : outcome A :=
  match field with
  | Some v => Ok v
  | None => Raise KeyError
  end.

(** [d[k] = v] on a dictionary in insertion order: the value of an
    existing key is replaced in place, a new key is appended. *)
Fixpoint dict_setitem (d : list (string * Q)) (k : string) (v : Q)
    : list (string * Q) :=
  match d with
  | [] => [(k, v)]
  | (k', v') :: d' =>
      if decide (k' = k) then (k', v) :: d'
      else (k', v') :: dict_setitem d' k v
  end.

(** The inner loop of [_deepfri]:
    [go_score[p["go_term"]] = float(p["go_term_score"])], the right-hand
    side first.  A score that is present is a number, of which [float]
    returns the value; what [float] raises on a score of another type is
    not modelled. *)
Fixpoint score_predictions (ps : list Prediction) (go_score : list (string * Q))
    : outcome (list (string * Q)) :=
  match ps with
  | [] => Ok go_score
  | p :: ps' =>
      score ← getitem (go_term_score p);
      term ← getitem (go_term p);
      score_predictions ps' (dict_setitem go_score term score)
  end.

(** The outer loop of [_deepfri] over the model names. *)
Fixpoint score_models (final_data : FinalData) (models : list string)
    (go_score : list (string * Q)) : outcome (list (string * Q)) :=
  match models with
  | [] => Ok go_score
  | model :: models' =>
      go_score' ← score_predictions (model_predictions final_data model) go_score;
      score_models final_data models' go_score'
  end.

(** The models [_deepfri] reads. *)
Definition deepfri_models : list string := ["cnn_cc"; "cnn_mf"; "cnn_bp"].

(** [_deepfri] after the service has answered: the dictionary [go_score]
    built from [final_data]. *)
Definition _deepfri (final_data : FinalData) : outcome (list (string * Q)) :=
  score_models final_data deepfri_models [].

(** All predictions [_deepfri] reads, in the order it reads them. *)
Definition deepfri_predictions (final_data : FinalData) : list Prediction :=
  model_predictions final_data "cnn_cc"
  ++ model_predictions final_data "cnn_mf"
  ++ model_predictions final_data "cnn_bp".

(** ** InterProScan matches: [_interpro] *)

(** One element [g] of a ["goXRefs"] list; [xref_id] is [None] when the key
    ["id"] is absent or null. *)
Record GoXRef := mkGoXRef { xref_id : option string }.

Record IprEntry := mkIprEntry { goXRefs : option (list GoXRef) }.

(** [entry] is [None] when the key is absent or null. *)
Record IprSignature := mkIprSignature { entry : option IprEntry }.

Record IprMatch := mkIprMatch { signature : option IprSignature }.

Record IprResultItem := mkIprResultItem { matches : option (list IprMatch) }.

(** The value under ["results"]: a list of items, or one item alone. *)
Inductive IprResults :=
| ResultsList (items : list IprResultItem)
| ResultsDict (item : IprResultItem).

Record IprResult := mkIprResult { results : option IprResults }.

(** What is left of [s] after the prefix [p], if [s] starts with [p]. *)
Fixpoint strip_prefix (p s : string) : option string :=
  match p with
  | EmptyString => Some s
  | String c p' =>
      match s with
      | String c' s' => if decide (c = c') then strip_prefix p' s' else None
      | EmptyString => None
      end
  end.

Fixpoint take_string (n : nat) (s : string) : string :=
  match n, s with
  | S n', String c s' => String c (take_string n' s')
  | _, _ => EmptyString
  end.

Fixpoint drop_string (n : nat) (s : string) : string :=
  match n, s with
  | S n', String _ s' => drop_string n' s'
  | _, _ => s
  end.

(** *** Code points *)

Definition byte_of (c : Ascii.ascii) : N := Ascii.N_of_ascii c.

(** The number of bytes of the character whose encoding starts with the
    byte [c]. *)
Definition utf8_width (c : Ascii.ascii) : nat :=
  if (byte_of c <? 192)%N then 1
  else if (byte_of c <? 224)%N then 2
  else if (byte_of c <? 240)%N then 3
  else 4.

(** The six bits a continuation byte carries. *)
Definition continuation (c : Ascii.ascii) : option N :=
  if ((128 <=? byte_of c) && (byte_of c <? 192))%N
  then Some (byte_of c - 128)%N
  else None.

(** The code point of the first character of [s]. *)
Definition code_point (s : string) : option N :=
  match s with
  | EmptyString => None
  | String c0 s1 =>
      if (byte_of c0 <? 128)%N then Some (byte_of c0)
      else if (byte_of c0 <? 192)%N then None
      else
        match s1 with
        | EmptyString => None
        | String c1 s2 =>
            x1 ← continuation c1;
            if (byte_of c0 <? 224)%N
            then Some ((byte_of c0 - 192) * 64 + x1)%N
            else
              match s2 with
              | EmptyString => None
              | String c2 s3 =>
                  x2 ← continuation c2;
                  if (byte_of c0 <? 240)%N
                  then Some (((byte_of c0 - 224) * 64 + x1) * 64 + x2)%N
                  else
                    match s3 with
                    | EmptyString => None
                    | String c3 _ =>
                        x3 ← continuation c3;
                        Some ((((byte_of c0 - 240) * 64 + x1) * 64 + x2) * 64
                              + x3)%N
                    end
              end
        end
  end.

(** The decimal digits of Unicode 14.0, the database of CPython 3.11, as
    ranges of code points: a class [\d] to run the definitions with. *)
Definition unicode_decimal_ranges : list (N * N) :=
  [(48, 57);
   (1632, 1641);
   (1776, 1785);
   (1984, 1993);
   (2406, 2415);
   (2534, 2543);
   (2662, 2671);
   (2790, 2799);
   (2918, 2927);
   (3046, 3055);
   (3174, 3183);
   (3302, 3311);
   (3430, 3439);
   (3558, 3567);
   (3664, 3673);
   (3792, 3801);
   (3872, 3881);
   (4160, 4169);
   (4240, 4249);
   (6112, 6121);
   (6160, 6169);
   (6470, 6479);
   (6608, 6617);
   (6784, 6793);
   (6800, 6809);
   (6992, 7001);
   (7088, 7097);
   (7232, 7241);
   (7248, 7257);
   (42528, 42537);
   (43216, 43225);
   (43264, 43273);
   (43472, 43481);
   (43504, 43513);
   (43600, 43609);
   (44016, 44025);
   (65296, 65305);
   (66720, 66729);
   (68912, 68921);
   (69734, 69743);
   (69872, 69881);
   (69942, 69951);
   (70096, 70105);
   (70384, 70393);
   (70736, 70745);
   (70864, 70873);
   (71248, 71257);
   (71360, 71369);
   (71472, 71481);
   (71904, 71913);
   (72016, 72025);
   (72784, 72793);
   (73040, 73049);
   (73120, 73129);
   (92768, 92777);
   (92864, 92873);
   (93008, 93017);
   (120782, 120831);
   (123200, 123209);
   (123632, 123641);
   (125264, 125273);
   (130032, 130041)]%N.

Definition unicode_decimal (cp : N) : bool :=
  existsb (λ r : N * N, (r.1 <=? cp)%N && (cp <=? r.2)%N)
    unicode_decimal_ranges.

Section Pattern.

(** The class [\d]. *)
Variable decimal : N → bool.

(** The number of bytes of the decimal digit [s] starts with, if it starts
    with one. *)
Definition digit_width (s : string) : option nat :=
  match s with
  | EmptyString => None
  | String c _ =>
      match code_point s with
      | Some cp => if decimal cp then Some (utf8_width c) else None
      | None => None
      end
  end.

(** The number of bytes of the [n] decimal digits [s] starts with, if it
    starts with as many: [\d{n}] matched at the start of [s]. *)
Fixpoint digits_width (n : nat) (s : string) : option nat :=
  match n with
  | 0 => Some 0
  | S n' =>
      w ← digit_width s;
      rest ← digits_width n' (drop_string w s);
      Some (w + rest)
  end.

(** The number of bytes [GO:\d{7}] matches at the start of [s], if it
    matches. *)
Definition go_id_width (s : string) : option nat :=
  rest ← strip_prefix "GO:" s;
  w ← digits_width 7 rest;
  Some (3 + w).

(** [re.match(r"GO:\d{7}", go_id)]: the pattern is matched at the start of
    the string; what follows the seven digits is not looked at. *)
Definition go_id_match (go_id : string) : bool :=
  match go_id_width go_id with
  | Some _ => true
  | None => false
  end.

(** [m.get("signature", {}).get("entry") or {}], then
    [entry.get("goXRefs", [])]. *)
Definition match_goXRefs (m : IprMatch) : list GoXRef :=
  match signature m with
  | None => []
  | Some sig =>
      match entry sig with
      | None => []
      | Some e =>
          match goXRefs e with
          | None => []
          | Some gs => gs
          end
      end
  end.

(** The loop [for g in entry.get("goXRefs", [])]. *)
Definition add_goXRefs (gs : list GoXRef) (go_set : gset string) : gset string :=
  fold_left
    (λ (go_set : gset string) (g : GoXRef),
       let go_id := match xref_id g with Some s => s | None => EmptyString end in
       if go_id_match go_id then {[go_id]} ∪ go_set else go_set)
    gs go_set.

(** The loop [for m in res.get("matches", [])]. *)
Definition add_matches (res : IprResultItem) (go_set : gset string)
    : gset string :=
  fold_left (λ go_set m, add_goXRefs (match_goXRefs m) go_set)
    (match matches res with Some ms => ms | None => [] end) go_set.

(** [result.get("results", [])], one item alone wrapped in a list. *)
Definition result_items (result : IprResult) : list IprResultItem :=
  match results result with
  | None => []
  | Some (ResultsList items) => items
  | Some (ResultsDict item) => [item]
  end.

(** [_interpro] after the service has answered: the set [go_set] built
    from [result]. *)
Definition _interpro (result : IprResult) : gset string :=
  fold_left (λ go_set res, add_matches res go_set) (result_items result) ∅.

End Pattern.

(** Every [goXRefs] element the loops of [_interpro] visit. *)
Definition visited_goXRefs (result : IprResult) : list GoXRef :=
  res ← result_items result;
  m ← (match matches res with Some ms => ms | None => [] end);
  match_goXRefs m.

(** ** Sequences: [_extract_seq] and [extract_sequence_from_pdb] *)

(** A chain of a parsed structure: its identifier and the sequences
    [str(pp.get_sequence())] of the peptides [ppb.build_peptides(chain)]. *)
Record Chain := mkChain {
  chain_id : string;
  peptides : list string;
}.

(** [for pp in ppb.build_peptides(chain): seq += str(pp.get_sequence())] *)
Definition append_peptides (chain : Chain) (seq : string) : string :=
  fold_left String.append (peptides chain) seq.

(** [_extract_seq] of [main.py], on the parsed structure (a list of
    models, each a list of chains): the loop over the models is left at the
    end of its first iteration. *)
Definition _extract_seq (structure : list (list Chain)) : string :=
  match structure with
  | [] => EmptyString
  | model :: _ => fold_left (λ seq chain, append_peptides chain seq) model EmptyString
  end.

(** [if chain_id and chain.id != chain_id: continue]: [None] and the empty
    string select every chain. *)
Definition chain_skipped (wanted : option string) (chain : Chain) : bool :=
  match wanted with
  | None => false
  | Some EmptyString => false
  | Some c => bool_decide (chain_id chain ≠ c)
  end.

(** [extract_sequence_from_pdb] of [interpro.py]. *)
Definition extract_sequence_from_pdb (structure : list (list Chain))
    (wanted : option string) : string :=
  match structure with
  | [] => EmptyString
  | model :: _ =>
      fold_left
        (λ sequence chain,
           if chain_skipped wanted chain then sequence
           else append_peptides chain sequence)
        model EmptyString
  end.

(** The concatenation of a list of strings. *)
Definition join (parts : list string) : string :=
  foldr String.append EmptyString parts.

(** [p] has the two keys [_deepfri] reads. *)
Definition prediction_complete (p : Prediction) : Prop :=
  is_Some (go_term p) ∧ is_Some (go_term_score p).

#[global] Instance prediction_complete_decision p :
  Decision (prediction_complete p).
Proof. unfold prediction_complete. apply _. Defined.

(** The assignment of one prediction, on the dictionary as a map. *)
Definition insert_prediction (m : gmap string Q) (p : Prediction) : gmap string Q :=
  match go_term p, go_term_score p with
  | Some t, Some s => <[t := s]> m
  | _, _ => m
  end.

(** Sample answers of the two services. *)
Definition sample_final_data : FinalData :=
  mkFinalData (Some (
    <["cnn_mf" := mkModelOutput (Some
        [mkPrediction (Some "GO:0001") (Some "binding") (Some (9 # 10)%Q);
         mkPrediction (Some "GO:0002") (Some "activity") (Some (1 # 2)%Q)])]>
    (<["cnn_bp" := mkModelOutput (Some
        [mkPrediction (Some "GO:0001") (Some "binding") (Some (3 # 10)%Q)])]>
    ∅))).

Definition sample_ipr_result : IprResult :=
  mkIprResult (Some (ResultsDict (mkIprResultItem (Some
    [mkIprMatch (Some (mkIprSignature (Some (mkIprEntry (Some
       [mkGoXRef (Some "GO:0003677"); mkGoXRef (Some "GO:12");
        mkGoXRef None])))));
     mkIprMatch (Some (mkIprSignature None));
     mkIprMatch None])))).

Definition sample_structure : list (list Chain) :=
  [[mkChain "A" ["MKV"; "LT"]; mkChain "B" ["GG"]]; [mkChain "A" ["WWW"]]].

(** The chains [extract_sequence_from_pdb] does not skip. *)
Definition selected_chains (wanted : option string) (model : list Chain)
    : list Chain :=
  filter (λ chain, chain_skipped wanted chain = false) model.

(** ** [extract_go_predictions] of [deepfri.py] *)

(** One element of [records], and one row of the data frame. *)
Record GoRow := mkGoRow {
  row_go_term : string;
  row_name : string;
  row_score : Q;
  row_namespace : string;
}.

(** [ns_map], in the order its items are iterated. *)
Definition ns_map : list (string * string) :=
  [("cnn_cc", "CC"); ("cnn_mf", "MF"); ("cnn_bp", "BP"); ("cnn_ec", "EC")].

(** [p.get("go_term_score", 0.0)] *)
Definition score_or_zero (p : Prediction) : Q :=
  match go_term_score p with
  | Some score => score
  | None => 0%Q
  end.

(** The inner loop of [extract_go_predictions]: a prediction whose score
    reaches the threshold is appended to [records]; building the record
    reads [p["go_term"]], then [p["go_term_name"]].  The score is a number;
    what the comparison raises on a score of another type is not
    modelled. *)
Fixpoint collect_records (ns : string) (ps : list Prediction)
    (score_threshold : Q) (records : list GoRow) : outcome (list GoRow) :=
  match ps with
  | [] => Ok records
  | p :: ps' =>
      let score := score_or_zero p in
      if decide (score_threshold <= score)%Q then
        term ← getitem (go_term p);
        name ← getitem (go_term_name p);
        collect_records ns ps' score_threshold
          (records ++ [mkGoRow term name score ns])
      else collect_records ns ps' score_threshold records
  end.

(** The outer loop over [ns_map.items()]. *)
Fixpoint collect_models (json_data : FinalData) (models : list (string * string))
    (score_threshold : Q) (records : list GoRow) : outcome (list GoRow) :=
  match models with
  | [] => Ok records
  | (model, ns) :: models' =>
      records' ← collect_records ns (model_predictions json_data model)
                   score_threshold records;
      collect_models json_data models' score_threshold records'
  end.

(** pandas' [drop_duplicates(subset=["go_term"])] on the rows of the frame:
    of the rows with the same go_term the first is kept. *)
Fixpoint drop_duplicates (rows : list GoRow) (seen : gset string) : list GoRow :=
  match rows with
  | [] => []
  | row :: rows' =>
      if decide (row_go_term row ∈ seen) then drop_duplicates rows' seen
      else row :: drop_duplicates rows' ({[row_go_term row]} ∪ seen)
  end.

(** [extract_go_predictions]: the rows of the data frame it returns. *)
Definition extract_go_predictions (json_data : FinalData) (score_threshold : Q)
    : outcome (list GoRow) :=
  records ← collect_models json_data ns_map score_threshold [];
  Ok (drop_duplicates records ∅).

(** The predictions [extract_go_predictions] reads, each with the
    namespace of its model, in the order of reading. *)
Definition tagged_predictions (json_data : FinalData)
    : list (Prediction * string) :=
  '(model, ns) ← ns_map;
  (λ p, (p, ns)) <$> model_predictions json_data model.

(** [p] reaches the threshold. *)
Definition qualifies (score_threshold : Q) (p : Prediction) : Prop :=
  (score_threshold <= score_or_zero p)%Q.

(** [p] has the keys a record needs. *)
Definition prediction_named (p : Prediction) : Prop :=
  is_Some (go_term p) ∧ is_Some (go_term_name p).

#[global] Instance prediction_named_decision p : Decision (prediction_named p).
Proof. unfold prediction_named. apply _. Defined.

#[global] Instance qualifies_decision score_threshold p :
  Decision (qualifies score_threshold p).
Proof. unfold qualifies. apply _. Defined.

(** The record of a prediction that has its keys. *)
Definition to_row (x : Prediction * string) : option GoRow :=
  match go_term x.1, go_term_name x.1 with
  | Some term, Some name => Some (mkGoRow term name (score_or_zero x.1) x.2)
  | _, _ => None
  end.

(** The records of the predictions of a list that reach the threshold. *)
Definition rows_of (score_threshold : Q) (tagged : list (Prediction * string))
    : list GoRow :=
  omap to_row (filter (λ x, qualifies score_threshold x.1) tagged).

(** A prediction of the list that reaches the threshold lacks a key. *)
Definition record_key_missing (score_threshold : Q)
    (tagged : list (Prediction * string)) : Prop :=
  Exists (λ x, qualifies score_threshold x.1 ∧ ¬ prediction_named x.1) tagged.

(** ** [extract_main_data] of [interpro.py]

    This function inspects values of unknown shape, so its input is a JSON
    value as Python's [json] module returns it: a dictionary is the list of
    its items in insertion order, with distinct keys, and a number is
    finite. *)

#[local] Set Warnings "-register-all".

Inductive json :=
| JNull
| JBool (b : bool)
| JNum (q : Q)
| JStr (s : string)
| JList (items : list json)
| JDict (fields : list (string * json)).

(** The exceptions of this part. *)
Inductive PyFault := AttributeError | TypeError.

Inductive attempt (A : Type) : Type :=
| Returns (a : A)
| Fails (e : PyFault).
Arguments Returns {A} a.
Arguments Fails {A} e.

#[global] Instance attempt_ret : MRet attempt := λ A a, Returns a.
#[global] Instance attempt_bind : MBind attempt :=
  λ A B k m, match m with Returns a => k a | Fails e => Fails e end.

(** Python's truth value of a JSON value. *)
Definition truthy (x : json) : bool :=
  match x with
  | JNull => false
  | JBool b => b
  | JNum q => negb (Qeq_bool q 0)
  | JStr EmptyString => false
  | JStr _ => true
  | JList [] => false
  | JList _ => true
  | JDict [] => false
  | JDict _ => true
  end.

(** [x or y] *)
Definition py_or (x y : json) : json := if truthy x then x else y.

(** The value of a key in a dictionary. *)
Fixpoint assoc (k : string) (fields : list (string * json)) : option json :=
  match fields with
  | [] => None
  | (k', v) :: fields' => if decide (k' = k) then Some v else assoc k fields'
  end.

(** [x.get(k, default)]: only a dictionary has the method. *)
Definition json_get (x : json) (k : string) (default : json) : attempt json :=
  match x with
  | JDict fields =>
      Returns (match assoc k fields with Some v => v | None => default end)
  | _ => Fails AttributeError
  end.

(** [x.values()] *)
Definition json_values (x : json) : attempt (list json) :=
  match x with
  | JDict fields => Returns fields.*2
  | _ => Fails AttributeError
  end.

(** The characters of a string, each a string of one code point; [skip]
    counts the bytes of the last character still to pass. *)
Fixpoint string_chars_from (s : string) (skip : nat) : list json :=
  match s with
  | EmptyString => []
  | String c s' =>
      match skip with
      | S skip' => string_chars_from s' skip'
      | 0 =>
          JStr (take_string (utf8_width c) s)
          :: string_chars_from s' (utf8_width c - 1)
      end
  end.

Definition string_chars (s : string) : list json := string_chars_from s 0.

(** [for item in x]: a list gives its items, a dictionary its keys, a
    string its characters; nothing else can be iterated. *)
Definition py_iter (x : json) : attempt (list json) :=
  match x with
  | JList items => Returns items
  | JDict fields => Returns (JStr <$> fields.*1)
  | JStr s => Returns (string_chars s)
  | _ => Fails TypeError
  end.

Definition is_dict (x : json) : bool :=
  match x with JDict _ => true | _ => false end.

(** [isinstance(x, str) and x.startswith('GO:')] *)
Definition is_GO_string (x : json) : bool :=
  match x with
  | JStr s => bool_decide (is_Some (strip_prefix "GO:" s))
  | _ => false
  end.

Section Records.

(** The class [\d]. *)
Variable decimal : N → bool.

(** [re.findall(r'GO:\d{7}', s)]: the matches from left to right, the
    search resuming after each match; [skip] counts the bytes of the last
    match still to pass. *)
Fixpoint findall_go (s : string) (skip : nat) : list string :=
  match s with
  | EmptyString => []
  | String c s' =>
      match skip with
      | S skip' => findall_go s' skip'
      | 0 =>
          match go_id_width decimal s with
          | Some w => take_string w s :: findall_go s' (w - 1)
          | None => findall_go s' 0
          end
      end
  end.

(** ['GO:' in s] *)
Fixpoint contains_GO (s : string) : bool :=
  match s with
  | EmptyString => false
  | String c s' => bool_decide (is_Some (strip_prefix "GO:" s)) || contains_GO s'
  end.

(** One element of [go_terms]. *)
Record GoTermInfo := mkGoTermInfo {
  gt_id : string;
  gt_name : json;
  gt_category : json;
}.

(** The pair of [go_terms] and [seen_go_ids]. *)
Definition GoTermsState : Type := list GoTermInfo * gset string.

(** [if gid not in seen_go_ids: seen_go_ids.add(gid); go_terms.append(..)] *)
Definition add_go_term (gid : string) (gname gcat : json) (st : GoTermsState)
    : GoTermsState :=
  if decide (gid ∈ st.2) then st
  else (st.1 ++ [mkGoTermInfo gid gname gcat], {[gid]} ∪ st.2).

(** The loop [for v in g.values()] that looks for an identifier in the
    string values and stops at the first string that holds one. *)
Fixpoint first_found (vals : list json) : option string :=
  match vals with
  | [] => None
  | JStr s :: vals' =>
      match findall_go s 0 with
      | found :: _ => Some found
      | [] => first_found vals'
      end
  | _ :: vals' => first_found vals'
  end.

Definition get_or_null (fields : list (string * json)) (k : string) : json :=
  match assoc k fields with Some v => v | None => JNull end.

(** The body of [for g in gl]. *)
Definition add_xref (g : json) (st : GoTermsState) : GoTermsState :=
  match g with
  | JDict fields =>
      let gid := py_or (get_or_null fields "id")
                   (py_or (get_or_null fields "GO") (get_or_null fields "goId")) in
      let gname := py_or (get_or_null fields "name")
                     (py_or (get_or_null fields "term") (get_or_null fields "label")) in
      let gcat := py_or (get_or_null fields "category")
                    (py_or (get_or_null fields "namespace")
                       (get_or_null fields "type")) in
      let gid := if is_GO_string gid then gid
                 else match first_found fields.*2 with
                      | Some found => JStr found
                      | None => gid
                      end in
      match gid with
      | JStr s => if is_GO_string gid then add_go_term s gname gcat st else st
      | _ => st
      end
  | _ => st
  end.

(** [for gl in candidate_lists: for g in gl: ...] *)
Definition add_candidates (candidate_lists : list (list json))
    (st : GoTermsState) : GoTermsState :=
  fold_left (λ st gl, fold_left (λ st g, add_xref g st) gl st)
    candidate_lists st.

(** The fallback scan of one string value. *)
Definition scan_value (v : json) (st : GoTermsState) : GoTermsState :=
  match v with
  | JStr s =>
      if contains_GO s then
        fold_left (λ st f, add_go_term f JNull JNull st) (findall_go s 0) st
      else st
  | _ => st
  end.

(** [for container in (entry, signature, match): for v in
    (container or {}).values(): ...] *)
Fixpoint scan_containers (containers : list json) (st : GoTermsState)
    : attempt GoTermsState :=
  match containers with
  | [] => Returns st
  | container :: containers' =>
      vals ← json_values (py_or container (JDict []));
      scan_containers containers' (fold_left (λ st v, scan_value v st) vals st)
  end.

(** One element of [out]. *)
Record MainRecord := mkMainRecord {
  rec_accession : json;
  rec_name : json;
  rec_entry_accession : json;
  rec_entry_description : json;
  rec_go_terms : list GoTermInfo;
  rec_start : json;
  rec_end : json;
  rec_score : json;
}.

(** [isinstance(x, list)], giving the list. *)
Definition as_candidate (x : json) : list (list json) :=
  match x with
  | JList items => [items]
  | _ => []
  end.

(** The loop [for loc in locations]. *)
Fixpoint add_location_records (signature entry : json)
    (go_terms : list GoTermInfo) (locs : list json) (out : list MainRecord)
    : attempt (list MainRecord) :=
  match locs with
  | [] => Returns out
  | loc :: locs' =>
      if is_dict loc then
        representative ← json_get loc "representative" (JBool false);
        if truthy representative then
          accession ← json_get signature "accession" JNull;
          name ← json_get signature "name" JNull;
          entry_accession ← json_get entry "accession" JNull;
          entry_description ← json_get entry "description" JNull;
          start ← json_get loc "start" JNull;
          end_ ← json_get loc "end" JNull;
          score ← json_get loc "score" JNull;
          add_location_records signature entry go_terms locs'
            (out ++ [mkMainRecord accession name entry_accession
                       entry_description go_terms start end_ score])
        else add_location_records signature entry go_terms locs' out
      else add_location_records signature entry go_terms locs' out
  end.

(** The body of [for match in matches]. *)
Definition add_match_records (match_ : json) (out : list MainRecord)
    : attempt (list MainRecord) :=
  signature_raw ← json_get match_ "signature" (JDict []);
  let signature := py_or signature_raw (JDict []) in
  entry_raw ← json_get signature "entry" (JDict []);
  let entry := py_or entry_raw (JDict []) in
  locations_raw ← json_get match_ "locations" (JList []);
  let locations := py_or locations_raw (JList []) in
  entry_xrefs ← json_get entry "goXRefs" JNull;
  signature_xrefs ← json_get signature "goXRefs" JNull;
  match_xrefs ← json_get match_ "goXRefs" JNull;
  let candidate_lists :=
    as_candidate entry_xrefs ++ as_candidate signature_xrefs
    ++ as_candidate match_xrefs in
  let st := add_candidates candidate_lists ([], ∅) in
  st ← (match st.1 with
        | [] => scan_containers [entry; signature; match_] st
        | _ => Returns st
        end);
  locs ← py_iter locations;
  add_location_records signature entry st.1 locs out.

Fixpoint add_matches_records (ms : list json) (out : list MainRecord)
    : attempt (list MainRecord) :=
  match ms with
  | [] => Returns out
  | m :: ms' =>
      out' ← add_match_records m out;
      add_matches_records ms' out'
  end.

(** The body of [for res_item in results]. *)
Definition add_item_records (res_item : json) (out : list MainRecord)
    : attempt (list MainRecord) :=
  matches_raw ← json_get res_item "matches" (JList []);
  ms ← py_iter (py_or matches_raw (JList []));
  add_matches_records ms out.

Fixpoint add_items_records (items : list json) (out : list MainRecord)
    : attempt (list MainRecord) :=
  match items with
  | [] => Returns out
  | item :: items' =>
      out' ← add_item_records item out;
      add_items_records items' out'
  end.

Definition extract_main_data (result : json) : attempt (list MainRecord) :=
  results_raw ← json_get result "results" JNull;
  let results := py_or results_raw (JList []) in
  let results := if is_dict results then JList [results] else results in
  items ← py_iter results;
  add_items_records items [].

End Records.

(** The locations that give a record: dictionaries whose
    ['representative'] is true. *)
Definition is_representative (loc : json) : bool :=
  match loc with
  | JDict fields =>
      truthy (match assoc "representative" fields with
              | Some v => v
              | None => JBool false
              end)
  | _ => false
  end.

(** What the loops keep true of [go_terms] and [seen_go_ids]. *)
Definition go_terms_inv (st : GoTermsState) : Prop :=
  NoDup (gt_id <$> st.1)
  ∧ (∀ gid, gid ∈ st.2 ↔ gid ∈ gt_id <$> st.1)
  ∧ Forall (λ t, is_Some (strip_prefix "GO:" (gt_id t))) st.1.

(** The identifiers of a record's terms are distinct and start with
    [GO:]. *)
Definition go_terms_ok (r : MainRecord) : Prop :=
  NoDup (gt_id <$> rec_go_terms r)
  ∧ Forall (λ t, is_Some (strip_prefix "GO:" (gt_id t))) (rec_go_terms r).

(** A sample answer. *)
Definition sample_json_result : json :=
  JDict [("results", JList [JDict [("matches", JList [
    JDict [("signature", JDict [("accession", JStr "PF00001");
                                ("name", JStr "7tm_1");
                                ("entry", JDict [("accession", JStr "IPR000276");
                                                 ("goXRefs", JList [
                                    JDict [("id", JStr "GO:0004930");
                                           ("name", JStr "GPCR activity")];
                                    JDict [("id", JStr "GO:0004930")];
                                    JDict [("note", JStr "see GO:0016021 too")];
                                    JStr "GO:0000001"])])]);
           ("locations", JList [
              JDict [("start", JNum 10); ("end", JNum 90);
                     ("representative", JBool true)];
              JDict [("start", JNum 5); ("end", JNum 9)];
              JStr "x"])];
    JDict [("signature", JDict [("description", JStr "binds GO:0005515 and GO:0005515")]);
           ("locations", JList [JDict [("representative", JNum 1)]])]])]])].

(** A sample match with two representative locations out of four. *)
Definition sample_match : json :=
  JDict [("signature", JDict [("accession", JStr "PF00069");
                              ("entry", JDict [("goXRefs", JList [
                                 JDict [("id", JStr "GO:0004672")];
                                 JDict [("GO", JStr "GO:0005524")]])])]);
         ("locations", JList [
            JDict [("start", JNum 4); ("end", JNum 260);
                   ("representative", JBool true)];
            JDict [("start", JNum 1); ("end", JNum 3);
                   ("representative", JBool false)];
            JNull;
            JDict [("start", JNum 300); ("end", JNum 420); ("score", JNum 7);
                   ("representative", JStr "yes")]])].
(** ** Facts about parent paths *)

Section PathFacts.

Variable godag : gmap string GOTerm.

Lemma path_snoc n x y z :
  path godag n x y → edge godag y z → path godag (S n) x z.
Proof.
  induction 1 as [x | n x y' c He Hp IH]; intros Hz.
  - apply path_up with z; [done | constructor].
  - apply path_up with y'; [done | by apply IH].
Qed.

Lemma path_zero_inv x c : path godag 0 x c → x = c.
Proof. by inversion 1. Qed.

Lemma path_succ_inv n x c :
  path godag (S n) x c → ∃ y, edge godag x y ∧ path godag n y c.
Proof. inversion 1; subst; eauto. Qed.

Lemma edge_resolved x y node :
  godag !! x = Some node → edge godag x y ↔ y ∈ parents node.
Proof.
  intros Hx; split.
  - intros (node' & Hx' & Hy). congruence.
  - intros Hy. by exists node.
Qed.

Lemma edge_unresolved x y : godag !! x = None → ¬ edge godag x y.
Proof. intros Hx (node & Hx' & _). congruence. Qed.

Lemma edge_in_universe x y : edge godag x y → y ∈ parent_universe godag.
Proof.
  intros (node & Hx & Hy). unfold parent_universe.
  apply elem_of_union_list.
  exists (list_to_set (parents node)). split; [| set_solver].
  apply list_elem_of_fmap. exists (x, node). split; [done |].
  by apply elem_of_map_to_list.
Qed.

Lemma steps_unique x c n n' :
  steps godag x c n → steps godag x c n' → n = n'.
Proof.
  intros [Hp Hmin] [Hp' Hmin'].
  specialize (Hmin _ Hp'). specialize (Hmin' _ Hp). lia.
Qed.

End PathFacts.

(** ** The breadth-first search [_min_steps] *)
Lemma two_level_head_bounds v d rest :
  two_level ((v, d) :: rest) → Forall (λ e, d ≤ e.2 ≤ S d) rest.
Proof.
  intros (d0 & q1 & q2 & Heq & H1 & H2).
  destruct q1 as [|e1 q1]; simpl in Heq.
  - subst q2. inversion H2 as [|? ? Hd Hrest]; subst. simpl in Hd.
    eapply Forall_impl; [exact Hrest |]. simpl. intros e He. lia.
  - injection Heq as <- ->.
    inversion H1 as [|? ? Hd Hrest]; subst. simpl in *.
    apply Forall_app; split.
    + eapply Forall_impl; [exact Hrest |]. simpl. intros e He. lia.
    + eapply Forall_impl; [exact H2 |]. simpl. intros e He. lia.
Qed.

Lemma two_level_pop_push v d rest new :
  two_level ((v, d) :: rest) →
  Forall (λ e, e.2 = S d) new →
  two_level (rest ++ new).
Proof.
  intros (d0 & q1 & q2 & Heq & H1 & H2) Hnew.
  destruct q1 as [|e1 q1]; simpl in Heq.
  - subst q2. inversion H2 as [|? ? Hd Hrest]; subst. simpl in Hd. subst d.
    by exists (S d0), rest, new.
  - injection Heq as <- ->.
    inversion H1 as [|? ? Hd Hrest]; subst. simpl in *.
    exists d, q1, (q2 ++ new). rewrite <- app_assoc.
    split; [done |]. split; [done |].
    apply Forall_app; split; done.
Qed.

Section EnqueueParents.

Variable godag : gmap string GOTerm.

Lemma enqueue_parents_spec step pars queue seen :
  ∃ new : list (string * nat),
    enqueue_parents step pars queue seen
      = (queue ++ new, seen ∪ list_to_set pars)
    ∧ Forall (λ e, e.2 = S step) new
    ∧ NoDup new.*1
    ∧ ∀ v, v ∈ new.*1 ↔ v ∈ pars ∧ v ∉ seen.
Proof.
  unfold enqueue_parents.
  revert queue seen.
  induction pars as [|par pars IH]; intros queue seen; simpl.
  - exists []. rewrite app_nil_r.
    split; [f_equal; set_solver |].
    split; [constructor |]. split; [constructor |].
    intros v. simpl. set_solver.
  - destruct (decide (par ∈ seen)) as [Hin | Hnin]; simpl.
    + destruct (IH queue seen) as (new & Heq & Hd & Hnd & Hmem).
      exists new. rewrite Heq.
      split; [f_equal; set_solver |].
      split; [done |]. split; [done |].
      intros v. rewrite Hmem. set_solver.
    + destruct (IH (queue ++ [(par, S step)]) ({[par]} ∪ seen))
        as (new & Heq & Hd & Hnd & Hmem).
      exists ((par, S step) :: new). rewrite Heq.
      split; [rewrite <- app_assoc; f_equal; set_solver |].
      split; [by constructor |].
      split.
      * simpl. constructor; [| done]. rewrite Hmem. set_solver.
      * intros v. simpl. rewrite elem_of_cons, Hmem.
        destruct (decide (v = par)) as [-> | Hne]; set_solver.
Qed.

End EnqueueParents.

Section MinSteps.

Variable godag : gmap string GOTerm.
Variable start_go : string.
Variable target_set : gset string.

#[local] Abbreviation bfs_inv := (bfs_inv godag start_go target_set).
#[local] Abbreviation min_steps_result := (min_steps_result godag start_go target_set).
#[local] Abbreviation bfs_measure := (bfs_measure godag start_go).

Lemma bfs_inv_init : bfs_inv [(start_go, 0)] {[start_go]}.
Proof.
  split.
  - intros v d Hin. apply list_elem_of_singleton in Hin.
    injection Hin as -> ->. constructor.
  - intros v d Hin. apply list_elem_of_singleton in Hin.
    injection Hin as -> ->. set_solver.
  - simpl. apply NoDup_singleton.
  - intros v Hv Hnq. simpl in Hnq. set_solver.
  - exists 0, [(start_go, 0)], []. repeat split; repeat constructor.
  - intros w m Hp. right. exists start_go, 0, m.
    split; [apply list_elem_of_singleton; done |]. split; [done | lia].
  - intros v d Hin. apply list_elem_of_singleton in Hin.
    injection Hin as -> ->. rewrite size_singleton. lia.
  - set_solver.
Qed.

Lemma queue_entry_of_vertex (queue : list (string * nat)) v :
  v ∈ queue.*1 → ∃ d, (v, d) ∈ queue.
Proof.
  intros Hin. apply list_elem_of_fmap in Hin as ([v' d] & -> & Hin).
  by exists d.
Qed.

Lemma vertex_of_queue_entry (queue : list (string * nat)) v d :
  (v, d) ∈ queue → v ∈ queue.*1.
Proof. intros Hin. apply list_elem_of_fmap. by exists (v, d). Qed.

(** From a seen vertex, a path either ends at a finished vertex or
    crosses the queue. *)
Lemma closed_path_meets_queue (queue : list (string * nat)) (seen : gset string) :
  (∀ v, v ∈ seen → v ∉ queue.*1 → ∀ w, edge godag v w → w ∈ seen) →
  ∀ k y w, path godag k y w → y ∈ seen →
    (w ∈ seen ∧ w ∉ queue.*1)
    ∨ (∃ v d k', (v, d) ∈ queue ∧ path godag k' v w ∧ k' ≤ k).
Proof.
  intros Hclosed k y w Hp.
  induction Hp as [x | n x y c He Hp IH]; intros Hseen.
  - destruct (decide (x ∈ queue.*1)) as [Hq | Hq].
    + right. destruct (queue_entry_of_vertex _ _ Hq) as [d Hd].
      exists x, d, 0. split; [done |]. split; [constructor | lia].
    + by left.
  - destruct (decide (x ∈ queue.*1)) as [Hq | Hq].
    + right. destruct (queue_entry_of_vertex _ _ Hq) as [d Hd].
      exists x, d, (S n). split; [done |].
      split; [by apply path_up with y | lia].
    + destruct (IH (Hclosed x Hseen Hq y He))
        as [Hdone | (v & d & k' & Hin & Hp' & Hle)].
      * by left.
      * right. exists v, d, k'. split; [done |]. split; [done | lia].
Qed.

(** One iteration of the loop on a head that is not a target: [pars] are
    the parents of the head (none when it does not resolve) and [new] the
    entries the inner loop appended. *)
Lemma bfs_inv_step cur step rest seen pars (new : list (string * nat)) :
  bfs_inv ((cur, step) :: rest) seen →
  cur ∉ target_set →
  (∀ w, edge godag cur w ↔ w ∈ pars) →
  Forall (λ e, e.2 = S step) new →
  NoDup new.*1 →
  (∀ v, v ∈ new.*1 ↔ v ∈ pars ∧ v ∉ seen) →
  bfs_inv (rest ++ new) (seen ∪ list_to_set pars).
Proof.
  intros Hinv Hcur Hpars Hlvl Hnd Hnew.
  destruct Hinv as [Hpath Hseen Hnodup Hclosed Hlevels Hfront Hsize Huniv].
  simpl in Hnodup. apply NoDup_cons in Hnodup as [Hcur_rest Hnodup].
  assert (Hcur_seen : cur ∈ seen) by (eapply Hseen; left).
  assert (Hrest_seen : ∀ v, v ∈ rest.*1 → v ∈ seen).
  { intros v Hv. destruct (queue_entry_of_vertex _ _ Hv) as [d Hd].
    eapply Hseen. right. exact Hd. }
  assert (Hbounds := two_level_head_bounds _ _ _ Hlevels).
  rewrite Forall_forall in Hbounds, Hlvl.
  assert (Hclosed' : ∀ v, v ∈ seen ∪ list_to_set pars → v ∉ (rest ++ new).*1 →
            (v ∉ target_set)
            ∧ (∀ w, edge godag v w → w ∈ seen ∪ list_to_set pars)).
  { intros v Hv Hnq. rewrite fmap_app, elem_of_app in Hnq.
    destruct (decide (v ∈ seen)) as [Hvs | Hvs].
    - destruct (decide (v = cur)) as [-> | Hne].
      + split; [done |]. intros w Hw. apply Hpars in Hw. set_solver.
      + destruct (Hclosed v Hvs) as [Ht Hw].
        { simpl. rewrite elem_of_cons. tauto. }
        split; [done |]. intros w He. specialize (Hw w He). set_solver.
    - exfalso. apply Hnq. right. apply Hnew. set_solver. }
  split.
  - intros v d Hin. apply elem_of_app in Hin as [Hin | Hin].
    + apply Hpath. by right.
    + rewrite (Hlvl _ Hin : d = S step).
      apply path_snoc with cur; [apply Hpath; left |].
      apply Hpars. apply (vertex_of_queue_entry _ _ _) in Hin.
      by apply Hnew in Hin as [? _].
  - intros v d Hin. apply elem_of_app in Hin as [Hin | Hin].
    + apply elem_of_union_l. eapply Hseen. right. exact Hin.
    + apply (vertex_of_queue_entry _ _ _) in Hin.
      apply Hnew in Hin as [Hin _]. set_solver.
  - rewrite fmap_app. apply NoDup_app. split; [done |]. split; [| done].
    intros v Hv Hv'. apply Hnew in Hv' as [_ Hv']. auto.
  - exact Hclosed'.
  - eapply two_level_pop_push; [exact Hlevels |]. by apply Forall_forall.
  - intros w m Hp.
    destruct (Hfront w m Hp) as [[Hws Hwq] | (v & d & k & Hin & Hk & Hle)].
    + left. split; [set_solver |].
      rewrite fmap_app, elem_of_app. intros [Hw | Hw].
      * apply Hwq. simpl. by right.
      * apply Hnew in Hw as [_ Hw]. done.
    + apply elem_of_cons in Hin as [Heq | Hin].
      * injection Heq as -> ->.
        destruct k as [|k].
        -- apply path_zero_inv in Hk as <-.
           left. split; [set_solver |].
           rewrite fmap_app, elem_of_app. intros [Hw | Hw]; [done |].
           apply Hnew in Hw as [_ Hw]. done.
        -- apply path_succ_inv in Hk as (y & He & Hk).
           assert (Hy : y ∈ seen ∪ list_to_set pars).
           { apply Hpars in He. set_solver. }
           destruct (closed_path_meets_queue (rest ++ new)
                       (seen ∪ list_to_set pars)
                       (λ v Hv Hq, proj2 (Hclosed' v Hv Hq)) k y w Hk Hy)
             as [Hdone | (v & d & k' & Hin & Hk' & Hle')].
           ++ by left.
           ++ right. exists v, d, k'. split; [done |]. split; [done |].
              assert (d ≤ S step); [| lia].
              apply elem_of_app in Hin as [Hin | Hin].
              ** apply (Hbounds _ Hin).
              ** rewrite (Hlvl _ Hin : d = S step). done.
      * right. exists v, d, k. split; [| done].
        apply elem_of_app. by left.
  - intros v d Hin. apply elem_of_app in Hin as [Hin | Hin].
    + etrans; [eapply Hsize; right; exact Hin |].
      apply subseteq_size. set_solver.
    + rewrite (Hlvl _ Hin : d = S step).
      apply (vertex_of_queue_entry _ _ _) in Hin.
      apply Hnew in Hin as [Hin Hns].
      assert (Hsub : {[v]} ∪ seen ⊆ seen ∪ list_to_set pars) by set_solver.
      apply subseteq_size in Hsub.
      rewrite size_union in Hsub by set_solver.
      rewrite size_singleton in Hsub.
      specialize (Hsize cur step ltac:(left)). lia.
  - intros v Hv. apply elem_of_union in Hv as [Hv | Hv]; [by apply Huniv |].
    apply elem_of_union_r. apply edge_in_universe with cur.
    apply Hpars. set_solver.
Qed.
Lemma bfs_measure_step cur step rest seen pars (new : list (string * nat)) :
  NoDup new.*1 →
  (∀ v, v ∈ new.*1 ↔ v ∈ pars ∧ v ∉ seen) →
  list_to_set pars ⊆ parent_universe godag →
  S (bfs_measure (rest ++ new) (seen ∪ list_to_set pars))
  = bfs_measure ((cur, step) :: rest) seen.
Proof.
  intros Hnd Hnew Hsub. unfold bfs_measure.
  set (U := {[start_go]} ∪ parent_universe godag).
  assert (Hsplit : U ∖ seen
                   = (U ∖ (seen ∪ list_to_set pars)) ∪ list_to_set new.*1).
  { apply set_eq. intros v.
    split.
    - intros [HU Hs]%elem_of_difference.
      destruct (decide (v ∈ pars)) as [Hp | Hp].
      + apply elem_of_union_r, elem_of_list_to_set, Hnew. done.
      + apply elem_of_union_l. set_solver.
    - intros [Hv | Hv]%elem_of_union; [set_solver |].
      apply elem_of_list_to_set, Hnew in Hv as [Hp Hs].
      apply elem_of_difference. split; [| done]. subst U. set_solver. }
  rewrite Hsplit.
  rewrite (size_union (U ∖ (seen ∪ list_to_set pars)) (list_to_set new.*1)).
  - rewrite size_list_to_set by done.
    rewrite length_app, length_fmap. simpl. lia.
  - intros v Hv Hv'. apply elem_of_list_to_set, Hnew in Hv'.
    set_solver.
Qed.

Lemma _min_steps_loop_correct fuel queue seen :
  bfs_inv queue seen →
  bfs_measure queue seen < fuel →
  min_steps_result (_min_steps_loop godag fuel target_set queue seen).
Proof.
  revert queue seen.
  induction fuel as [|fuel IH]; intros queue seen Hinv Hfuel; [lia |].
  simpl. destruct queue as [|[cur step] rest].
  - intros t m Ht Hp.
    destruct (inv_front _ _ _ _ _ Hinv t m Hp) as [[Hs Hq] | (v & d & k & Hin & _)].
    + by destruct (inv_closed _ _ _ _ _ Hinv t Hs Hq).
    + by apply elem_of_nil in Hin.
  - destruct (decide (cur ∈ target_set)) as [Hcur | Hcur].
    + split; [| split].
      * exists cur. split; [done |]. apply (inv_path _ _ _ _ _ Hinv). left.
      * intros t m Ht Hp.
        destruct (inv_front _ _ _ _ _ Hinv t m Hp)
          as [[Hs Hq] | (v & d & k & Hin & _ & Hle)].
        -- by destruct (inv_closed _ _ _ _ _ Hinv t Hs Hq).
        -- assert (step ≤ d); [| lia].
           apply elem_of_cons in Hin as [Heq | Hin].
           ++ by injection Heq as -> ->.
           ++ pose proof (two_level_head_bounds _ _ _ (inv_levels _ _ _ _ _ Hinv))
                as Hb.
              rewrite Forall_forall in Hb. apply (Hb _ Hin).
      * pose proof (inv_size _ _ _ _ _ Hinv cur step ltac:(left)) as Hsz.
        pose proof (subseteq_size _ _ (inv_univ _ _ _ _ _ Hinv)) as Hsub.
        pose proof (size_union_alt ({[start_go]} : gset string)
                      (parent_universe godag)) as Hu.
        rewrite size_singleton in Hu.
        pose proof (subseteq_size (parent_universe godag ∖ {[start_go]})
                      (parent_universe godag) ltac:(set_solver)).
        lia.
    + destruct (godag !! cur) as [node|] eqn:Hnode.
      * destruct (enqueue_parents_spec step (parents node) rest seen)
          as (new & -> & Hlvl & Hnd & Hnew).
        apply IH.
        -- eapply bfs_inv_step; eauto.
           intros w. by apply edge_resolved.
        -- assert (Hsub : list_to_set (parents node) ⊆ parent_universe godag).
           { intros v Hv. apply elem_of_list_to_set in Hv.
             apply edge_in_universe with cur.
             by apply (edge_resolved _ _ _ _ Hnode). }
           pose proof (bfs_measure_step cur step rest seen _ _ Hnd Hnew Hsub).
           lia.
      * replace rest with (rest ++ []) by apply app_nil_r.
        replace seen with (seen ∪ list_to_set (@nil string)) by set_solver.
        apply IH.
        -- eapply (bfs_inv_step cur step rest seen []); eauto.
           ++ intros w. split; [| by intros ?%elem_of_nil].
              intros He. by apply edge_unresolved in He.
           ++ constructor.
           ++ intros v. simpl. set_solver.
        -- assert (Hm : S (bfs_measure (rest ++ []) (seen ∪ list_to_set []))
                        = bfs_measure ((cur, step) :: rest) seen).
           { apply bfs_measure_step; [constructor | | set_solver].
             intros v. simpl. set_solver. }
           lia.
Qed.

Lemma min_steps_result_unique r r' :
  min_steps_result r → min_steps_result r' → r = r'.
Proof.
  destruct r as [d|], r' as [d'|]; simpl; try done.
  - intros ((t & Ht & Hp) & Hmin & _) ((t' & Ht' & Hp') & Hmin' & _).
    specialize (Hmin t' d' Ht' Hp'). specialize (Hmin' t d Ht Hp).
    f_equal. lia.
  - intros ((t & Ht & Hp) & _) Hnone. by destruct (Hnone t d Ht).
  - intros Hnone ((t & Ht & Hp) & _). by destruct (Hnone t d' Ht).
Qed.

(** The loop never runs out of fuel: any two sufficient amounts give the
    same result. *)
Lemma _min_steps_loop_fuel fuel fuel' queue seen :
  bfs_inv queue seen →
  bfs_measure queue seen < fuel →
  bfs_measure queue seen < fuel' →
  _min_steps_loop godag fuel target_set queue seen
  = _min_steps_loop godag fuel' target_set queue seen.
Proof.
  intros Hinv Hfuel Hfuel'.
  apply min_steps_result_unique; by apply _min_steps_loop_correct.
Qed.

Lemma bfs_measure_init :
  bfs_measure [(start_go, 0)] {[start_go]} < search_bound godag.
Proof.
  unfold bfs_measure, search_bound. simpl.
  pose proof (subseteq_size
                (({[start_go]} ∪ parent_universe godag) ∖ {[start_go]})
                (parent_universe godag) ltac:(set_solver)).
  lia.
Qed.

Lemma _min_steps_more_fuel extra :
  _min_steps_loop godag (search_bound godag + extra) target_set
    [(start_go, 0)] {[start_go]}
  = _min_steps godag start_go target_set.
Proof.
  apply _min_steps_loop_fuel; [apply bfs_inv_init | |];
    pose proof bfs_measure_init; lia.
Qed.

Lemma _min_steps_correct :
  min_steps_result (_min_steps godag start_go target_set).
Proof.
  apply _min_steps_loop_correct; [apply bfs_inv_init | apply bfs_measure_init].
Qed.

End MinSteps.

(** ** Ancestor sets and the distance *)

Section Distance.

Variable godag : gmap string GOTerm.

Lemma _min_steps_Some start_go c d :
  _min_steps godag start_go {[c]} = Some d →
  steps godag start_go c d ∧ d ≤ size (parent_universe godag).
Proof.
  intros Hr. pose proof (_min_steps_correct godag start_go {[c]}) as Hc.
  rewrite Hr in Hc. destruct Hc as ((t & Ht & Hp) & Hmin & Hb).
  apply elem_of_singleton in Ht as ->.
  split; [| done]. split; [done |].
  intros m Hm. apply (Hmin c); [set_solver | done].
Qed.

Lemma _min_steps_None start_go c :
  _min_steps godag start_go {[c]} = None → ¬ ancestor godag start_go c.
Proof.
  intros Hr [m Hp]. pose proof (_min_steps_correct godag start_go {[c]}) as Hc.
  rewrite Hr in Hc. apply (Hc c m); [set_solver | done].
Qed.

(** The search finds every ancestor, and within [size parent_universe]
    steps. *)
Lemma _min_steps_ancestor start_go c :
  ancestor godag start_go c →
  ∃ d, _min_steps godag start_go {[c]} = Some d
       ∧ steps godag start_go c d ∧ d ≤ size (parent_universe godag).
Proof.
  intros Hanc.
  destruct (_min_steps godag start_go {[c]}) as [d|] eqn:Hr.
  - exists d. split; [done |]. by apply _min_steps_Some.
  - by apply _min_steps_None in Hr.
Qed.

Lemma elem_of_get_all_parents_rec depth x node c :
  godag !! x = Some node →
  c ∈ get_all_parents_rec godag depth node
  ↔ ∃ m, m < depth ∧ path godag (S m) x c.
Proof.
  revert x node c.
  induction depth as [|depth IH]; intros x node c Hx; simpl.
  - split; [set_solver | intros (m & Hm & _); lia].
  - rewrite elem_of_union_list. split.
    + intros (X & HX & Hc).
      apply list_elem_of_fmap in HX as (par & -> & Hpar).
      apply elem_of_union in Hc as [Hc | Hc].
      * apply elem_of_singleton in Hc as ->.
        exists 0. split; [lia |].
        apply path_up with par; [by exists node | constructor].
      * destruct (godag !! par) as [pnode|] eqn:Hp; [| set_solver].
        apply (IH par pnode c Hp) in Hc as (m & Hm & Hpath).
        exists (S m). split; [lia |].
        apply path_up with par; [by exists node | done].
    + intros (m & Hm & Hpath).
      apply path_succ_inv in Hpath as (y & He & Hpath).
      apply (edge_resolved _ _ _ _ Hx) in He.
      eexists. split; [apply list_elem_of_fmap; by exists y |].
      destruct m as [|m].
      * apply path_zero_inv in Hpath as ->. set_solver.
      * apply elem_of_union_r.
        pose proof Hpath as (z & (pnode & Hy & Hz) & _)%path_succ_inv.
        rewrite Hy. apply (IH y pnode c Hy). exists m. split; [lia | done].
Qed.

(** [get_all_parents] is the set of proper ancestors: the cut of the
    recursion at [search_bound] loses nothing. *)
Lemma elem_of_get_all_parents x node c :
  godag !! x = Some node →
  c ∈ get_all_parents godag node ↔ ∃ m, path godag (S m) x c.
Proof.
  intros Hx. unfold get_all_parents.
  rewrite (elem_of_get_all_parents_rec _ x) by done. split.
  - intros (m & _ & Hp). by exists m.
  - intros (m & Hp).
    apply path_succ_inv in Hp as (y & He & Hp).
    destruct (_min_steps_ancestor y c) as (d & _ & [Hd _] & Hb);
      [by exists m |].
    exists d. split; [unfold search_bound; lia |].
    by apply path_up with y.
Qed.

(** A deeper cut of the recursion gives the same set. *)
Lemma get_all_parents_rec_more_depth x node extra :
  godag !! x = Some node →
  get_all_parents_rec godag (search_bound godag + extra) node
  = get_all_parents godag node.
Proof.
  intros Hx. apply set_eq. intros c.
  rewrite (elem_of_get_all_parents_rec _ x) by done.
  rewrite (elem_of_get_all_parents x) by done. split.
  - intros (m & _ & Hp). by exists m.
  - intros Hc. apply (elem_of_get_all_parents x node c Hx) in Hc.
    unfold get_all_parents in Hc.
    apply (elem_of_get_all_parents_rec _ x node c Hx) in Hc as (m & Hm & Hp).
    exists m. split; [lia | done].
Qed.

Lemma elem_of_ancestor_set x node c :
  godag !! x = Some node →
  c ∈ ({[x]} ∪ get_all_parents godag node : gset string) ↔ ancestor godag x c.
Proof.
  intros Hx. rewrite elem_of_union, elem_of_singleton,
    (elem_of_get_all_parents x) by done.
  split.
  - intros [-> | [m Hp]]; [exists 0; constructor | by exists (S m)].
  - intros [[|m] Hp]; [left | right; by exists m].
    symmetry. by apply (path_zero_inv godag).
Qed.

Lemma best_over_cons go1 go2 ca common best :
  best_over godag go1 go2 (ca :: common) best
  = best_over godag go1 go2 common
      (match pair_steps godag go1 go2 ca with
       | Some s => Some (match best with Some m => Nat.min m s | None => s end)
       | None => best
       end).
Proof.
  unfold best_over, pair_steps. simpl.
  destruct (_min_steps godag go1 {[ca]}), (_min_steps godag go2 {[ca]}); done.
Qed.

(** The loop returns the least of [best] and the sums of the common
    ancestors for which both searches succeed. *)
Lemma best_over_spec go1 go2 common best :
  match best_over godag go1 go2 common best with
  | Some d =>
      (best = Some d ∨ ∃ ca, ca ∈ common ∧ pair_steps godag go1 go2 ca = Some d)
      ∧ (∀ m, best = Some m → d ≤ m)
      ∧ (∀ ca m, ca ∈ common → pair_steps godag go1 go2 ca = Some m → d ≤ m)
  | None => best = None ∧ ∀ ca, ca ∈ common → pair_steps godag go1 go2 ca = None
  end.
Proof.
  revert best. induction common as [|ca common IH]; intros best.
  - unfold best_over. simpl. destruct best as [d|].
    + split; [by left |]. split; [| by intros ? ? ?%elem_of_nil].
      intros m [= ->]. done.
    + split; [done |]. by intros ? ?%elem_of_nil.
  - rewrite best_over_cons.
    specialize (IH (match pair_steps godag go1 go2 ca with
                    | Some s => Some (match best with
                                      | Some m => Nat.min m s | None => s end)
                    | None => best
                    end)).
    destruct (best_over godag go1 go2 common _) as [d|].
    + destruct IH as (Hor & Hbest & Hall).
      destruct (pair_steps godag go1 go2 ca) as [s|] eqn:Hs.
      * specialize (Hbest _ eq_refl). split; [| split].
        -- destruct Hor as [[= Hd] | (ca' & Hin & Hca')].
           ++ destruct best as [m|].
              ** destruct (Nat.min_spec m s) as [[_ Hm] | [_ Hm]].
                 --- left. congruence.
                 --- right. exists ca. split; [left |]. congruence.
              ** right. exists ca. split; [left |]. congruence.
           ++ right. exists ca'. split; [by right | done].
        -- intros m ->. lia.
        -- intros ca' m [-> | Hin]%elem_of_cons Hm.
           ++ rewrite Hs in Hm. injection Hm as <-.
              destruct best; lia.
           ++ by apply (Hall ca').
      * split; [| split].
        -- destruct Hor as [Hd | (ca' & Hin & Hca')]; [by left |].
           right. exists ca'. split; [by right | done].
        -- done.
        -- intros ca' m [-> | Hin]%elem_of_cons Hm; [congruence |].
           by apply (Hall ca').
    + destruct IH as (Hbest & Hall).
      destruct (pair_steps godag go1 go2 ca) as [s|] eqn:Hs; [done |].
      split; [done |].
      intros ca' [-> | Hin]%elem_of_cons; [done | by apply Hall].
Qed.

End Distance.

(** ** Python arithmetic *)

Lemma Q_of_nat_nonneg n : (0 <= Q_of_nat n)%Q.
Proof.
  unfold Q_of_nat, Qle. simpl. lia.
Qed.

Lemma Q_of_nat_pos n : 0 < n → (0 < Q_of_nat n)%Q.
Proof.
  intros Hn. unfold Q_of_nat, Qlt. simpl. lia.
Qed.

Lemma py_div_ok x y : ¬ (y == 0)%Q → py_div x y = Ok (Qred (x / y)).
Proof. intros Hy. unfold py_div. by destruct (decide (y == 0)%Q). Qed.

Lemma py_div_zero x y : (y == 0)%Q → py_div x y = Raise ZeroDivisionError.
Proof. intros Hy. unfold py_div. by destruct (decide (y == 0)%Q). Qed.

Lemma similarity_ok d : similarity d = Ok (sim_value d).
Proof.
  destruct d as [d|]; [| done]. simpl. apply py_div_ok.
  pose proof (Q_of_nat_nonneg d). lra.
Qed.

Lemma sim_value_Some_eq d : (sim_value (Some d) == 1 / (1 + Q_of_nat d))%Q.
Proof. simpl. apply Qred_correct. Qed.

Lemma sim_value_Some_pos d : (0 < sim_value (Some d))%Q.
Proof.
  rewrite sim_value_Some_eq. pose proof (Q_of_nat_nonneg d).
  apply Qlt_shift_div_l; lra.
Qed.

Lemma sim_value_nonneg d : (0 <= sim_value d)%Q.
Proof.
  destruct d as [d|]; [| simpl; lra].
  apply Qlt_le_weak, sim_value_Some_pos.
Qed.

Lemma sim_value_pos_iff d : (0 < sim_value d)%Q ↔ is_Some d.
Proof.
  destruct d as [d|]; split.
  - by eexists.
  - intros _. apply sim_value_Some_pos.
  - simpl. lra.
  - by intros [? ?].
Qed.

(** ** The distance [_go_distance] *)

Section DistanceTheorems.

Variable godag : gmap string GOTerm.

Lemma pair_steps_comm go1 go2 ca :
  pair_steps godag go1 go2 ca = pair_steps godag go2 go1 ca.
Proof.
  unfold pair_steps.
  destruct (_min_steps godag go1 {[ca]}), (_min_steps godag go2 {[ca]});
    try done.
  f_equal. lia.
Qed.

Lemma best_over_swap go1 go2 common best :
  best_over godag go1 go2 common best = best_over godag go2 go1 common best.
Proof.
  revert best. induction common as [|ca common IH]; intros best; [done |].
  rewrite !best_over_cons, pair_steps_comm. apply IH.
Qed.

(** The order in which [common] is iterated does not matter. *)
Lemma best_over_Permutation go1 go2 common common' best :
  common ≡ₚ common' →
  best_over godag go1 go2 common best = best_over godag go1 go2 common' best.
Proof.
  intros Hperm. revert best.
  induction Hperm as [| x l l' _ IH | x y l | l l' l'' _ IH1 _ IH2];
    intros best.
  - done.
  - rewrite !best_over_cons. apply IH.
  - rewrite !best_over_cons. f_equal.
    destruct (pair_steps godag go1 go2 x) as [sx|],
             (pair_steps godag go1 go2 y) as [sy|], best as [m|];
      try done; f_equal; lia.
  - by rewrite IH1, IH2.
Qed.

Lemma pair_steps_common_ancestor go1 go2 ca :
  common_ancestor godag go1 go2 ca →
  ∃ da db, pair_steps godag go1 go2 ca = Some (da + db)
           ∧ steps godag go1 ca da ∧ steps godag go2 ca db.
Proof.
  intros [Ha Hb].
  destruct (_min_steps_ancestor godag go1 ca Ha) as (da & Hda & Hsa & _).
  destruct (_min_steps_ancestor godag go2 ca Hb) as (db & Hdb & Hsb & _).
  exists da, db. unfold pair_steps. by rewrite Hda, Hdb.
Qed.

Lemma elem_of_common go1 go2 a b c :
  godag !! go1 = Some a → godag !! go2 = Some b →
  c ∈ (({[go1]} ∪ get_all_parents godag a)
       ∩ ({[go2]} ∪ get_all_parents godag b) : gset string)
  ↔ common_ancestor godag go1 go2 c.
Proof.
  intros Ha Hb. rewrite elem_of_intersection.
  rewrite (elem_of_ancestor_set godag go1 a c Ha).
  rewrite (elem_of_ancestor_set godag go2 b c Hb). done.
Qed.

Lemma _go_distance_min go1 go2 :
  go1 ≠ go2 →
  is_Some (godag !! go1) →
  is_Some (godag !! go2) →
  (∃ c, common_ancestor godag go1 go2 c) →
  ∃ d, _go_distance godag go1 go2 = Some d
       ∧ (∃ c da db, common_ancestor godag go1 go2 c
                     ∧ steps godag go1 c da ∧ steps godag go2 c db
                     ∧ d = da + db)
       ∧ (∀ c da db, common_ancestor godag go1 go2 c →
                     steps godag go1 c da → steps godag go2 c db →
                     d ≤ da + db).
Proof.
  intros Hne [a Ha] [b Hb] [c0 Hc0].
  unfold _go_distance. rewrite decide_False by done. rewrite Ha, Hb. simpl.
  set (common := ({[go1]} ∪ get_all_parents godag a)
                 ∩ ({[go2]} ∪ get_all_parents godag b)).
  assert (Hmem : ∀ c, c ∈ elements common ↔ common_ancestor godag go1 go2 c).
  { intros c. rewrite elem_of_elements. by apply elem_of_common. }
  rewrite decide_False.
  2:{ intros Hempty. apply Hmem in Hc0. rewrite Hempty in Hc0.
      rewrite elements_empty in Hc0. by apply elem_of_nil in Hc0. }
  pose proof (best_over_spec godag go1 go2 (elements common) None) as Hspec.
  destruct (best_over godag go1 go2 (elements common) None) as [d|].
  - exists d. split; [done |].
    destruct Hspec as ([? | (ca & Hin & Hca)] & _ & Hmin); [done |].
    split.
    + apply Hmem in Hin.
      destruct (pair_steps_common_ancestor go1 go2 ca Hin)
        as (da & db & Hp & Hsa & Hsb).
      exists ca, da, db.
      split; [done |]. split; [done |]. split; [done |]. congruence.
    + intros c da db Hc Hsa Hsb.
      destruct (pair_steps_common_ancestor go1 go2 c Hc)
        as (da' & db' & Hp & Hsa' & Hsb').
      rewrite (steps_unique godag _ _ _ _ Hsa Hsa').
      rewrite (steps_unique godag _ _ _ _ Hsb Hsb').
      apply (Hmin c); [by apply Hmem | done].
  - destruct Hspec as [_ Hnone].
    destruct (pair_steps_common_ancestor go1 go2 c0 Hc0) as (da & db & Hp & _).
    rewrite Hnone in Hp by (by apply Hmem). done.
Qed.

Lemma _go_distance_unreachable go1 go2 :
  go1 ≠ go2 →
  godag !! go1 = None ∨ godag !! go2 = None
  ∨ ¬ (∃ c, common_ancestor godag go1 go2 c) →
  _go_distance godag go1 go2 = None.
Proof.
  intros Hne Hcases. unfold _go_distance. rewrite decide_False by done.
  destruct (godag !! go1) as [a|] eqn:Ha; [| done].
  destruct (godag !! go2) as [b|] eqn:Hb; [| done]. simpl.
  destruct Hcases as [? | [? | Hno]]; [done.. |].
  rewrite decide_True; [done |].
  apply set_eq. intros c. rewrite (elem_of_common go1 go2 a b c Ha Hb).
  split; [| set_solver]. intros Hc. exfalso. apply Hno. by exists c.
Qed.

Lemma _go_distance_sym go1 go2 :
  _go_distance godag go1 go2 = _go_distance godag go2 go1.
Proof.
  unfold _go_distance.
  destruct (decide (go1 = go2)) as [-> | Hne].
  - by rewrite decide_True.
  - rewrite decide_False by done.
    destruct (godag !! go1) as [a|], (godag !! go2) as [b|]; try done. simpl.
    rewrite (comm_L (∩) ({[go2]} ∪ get_all_parents godag b)).
    destruct (decide _); [done |]. apply best_over_swap.
Qed.

End DistanceTheorems.

(** ** The similarity scorer *)

Section ScorerTheorems.

Variable godag : gmap string GOTerm.

#[local] Abbreviation sim := (term_similarity godag).

Lemma best_partner_spec a setB best pair :
  ∃ best' pair',
    best_partner godag a setB best pair = Ok (best', pair')
    ∧ ((best' = best ∧ pair' = pair
        ∧ ∀ b, b ∈ setB → (sim a b <= best)%Q)
       ∨ (∃ l1 b l2, setB = l1 ++ b :: l2
                     ∧ pair' = (a, b, sim a b) ∧ best' = sim a b
                     ∧ (best < best')%Q
                     ∧ (∀ b', b' ∈ l1 → (sim a b' < best')%Q)
                     ∧ (∀ b', b' ∈ l2 → (sim a b' <= best')%Q))).
Proof.
  revert best pair.
  induction setB as [|b setB IH]; intros best pair; simpl.
  - exists best, pair. split; [done |]. left.
    split; [done |]. split; [done |]. by intros b ?%elem_of_nil.
  - rewrite similarity_ok. simpl. fold (sim a b).
    destruct (decide (best < sim a b)%Q) as [Hlt | Hge].
    + destruct (IH (sim a b) (a, b, sim a b))
        as (best' & pair' & Heq & [(-> & -> & Hall) | Himp]).
      * exists (sim a b), (a, b, sim a b). split; [done |]. right.
        exists [], b, setB. split; [done |]. split; [done |].
        split; [done |]. split; [done |].
        split; [by intros b' ?%elem_of_nil | done].
      * destruct Himp as (l1 & b2 & l2 & -> & -> & -> & Hlt' & H1 & H2).
        exists (sim a b2), (a, b2, sim a b2). split; [done |]. right.
        exists (b :: l1), b2, l2. split; [done |]. split; [done |].
        split; [done |]. split; [lra |]. split; [| done].
        intros b' [-> | Hin]%elem_of_cons; [done | by apply H1].
    + apply Qnot_lt_le in Hge.
      destruct (IH best pair)
        as (best' & pair' & Heq & [(-> & -> & Hall) | Himp]).
      * exists best, pair. split; [done |]. left.
        split; [done |]. split; [done |].
        intros b' [-> | Hin]%elem_of_cons; [done | by apply Hall].
      * destruct Himp as (l1 & b2 & l2 & -> & -> & -> & Hlt' & H1 & H2).
        exists (sim a b2), (a, b2, sim a b2). split; [done |]. right.
        exists (b :: l1), b2, l2. split; [done |]. split; [done |].
        split; [done |]. split; [done |]. split; [| done].
        intros b' [-> | Hin]%elem_of_cons; [lra | by apply H1].
Qed.

Lemma collect_scores_spec setA setB scores :
  ∃ recorded,
    collect_scores godag setA setB scores = Ok (scores ++ recorded)
    ∧ Forall (first_best_partner godag setB) recorded
    ∧ recorded.*1.*1 = filter (has_partner godag setB) setA.
Proof.
  revert scores.
  induction setA as [|a setA IH]; intros scores; simpl.
  - exists []. rewrite app_nil_r. split; [done |]. split; [constructor | done].
  - destruct (best_partner_spec a setB 0%Q (a, EmptyString, 0%Q))
      as (best' & pair' & -> & [(-> & -> & Hall) | Himp]); simpl.
    + destruct (IH scores) as (recorded & Heq & HF & Hfst).
      exists recorded. split; [done |]. split; [done |].
      rewrite filter_cons_False; [done |].
      intros Hex. apply Exists_exists in Hex as (b & Hb & Hpos).
      specialize (Hall b Hb). lra.
    + destruct Himp as (l1 & b & l2 & -> & -> & -> & Hpos & H1 & H2).
      rewrite decide_True by done.
      destruct (IH (scores ++ [(a, b, sim a b)])) as (recorded & Heq & HF & Hfst).
      exists ((a, b, sim a b) :: recorded).
      split; [rewrite <- app_assoc in Heq; exact Heq |].
      split.
      * constructor; [| done]. simpl.
        split; [done |]. split; [done |]. by exists l1, l2.
      * rewrite filter_cons_True; [simpl; by f_equal |].
        apply Exists_exists. exists b. split; [| done].
        apply elem_of_app. right. left.
Qed.

Lemma score_summary_ok scores sim_threshold :
  score_summary scores sim_threshold
  = Ok (mean_score scores,
        filter (λ p : SimilarityPair, (sim_threshold <= pair_score p)%Q) scores).
Proof.
  destruct scores as [|p scores]; [done |].
  unfold score_summary, mean_score.
  rewrite py_div_ok; [done |].
  pose proof (Q_of_nat_pos (length (p :: scores)) ltac:(simpl; lia)). lra.
Qed.

Lemma _semantic_pairs_spec setA setB sim_threshold :
  ∃ recorded,
    collect_scores godag setA setB [] = Ok recorded
    ∧ Forall (first_best_partner godag setB) recorded
    ∧ recorded.*1.*1 = filter (has_partner godag setB) setA
    ∧ _semantic_pairs godag setA setB sim_threshold
      = Ok (mean_score recorded,
            filter (λ p : SimilarityPair, (sim_threshold <= pair_score p)%Q)
              recorded).
Proof.
  destruct (collect_scores_spec setA setB []) as (recorded & Heq & HF & Hfst).
  simpl in Heq. exists recorded. split; [done |]. split; [done |].
  split; [done |].
  unfold _semantic_pairs. rewrite Heq. simpl. apply score_summary_ok.
Qed.

End ScorerTheorems.

(** ** The reconciler *)

Lemma dict_getitem_key df_go go :
  go ∈ dict_keys df_go →
  ∃ score, (list_to_map df_go : gmap string Q) !! go = Some score
           ∧ dict_getitem df_go go = Ok score.
Proof.
  intros Hin. unfold dict_getitem.
  destruct ((list_to_map df_go : gmap string Q) !! go) as [score|] eqn:Hl.
  - by exists score.
  - by apply not_elem_of_list_to_map in Hl.
Qed.

Lemma high_conf_comprehension_spec df_go gos acc :
  (∀ go, go ∈ gos → go ∈ dict_keys df_go) →
  high_conf_comprehension df_go gos acc
  = Ok (acc ∪ list_to_set
                (filter (score_at_least high_confidence_cutoff df_go) gos)).
Proof.
  revert acc. induction gos as [|go gos IH]; intros acc Hkeys; simpl.
  - f_equal. set_solver.
  - destruct (dict_getitem_key df_go go) as (score & Hl & ->);
      [apply Hkeys; left |]. simpl.
    rewrite IH by (intros go' Hgo'; apply Hkeys; by right).
    f_equal.
    destruct (decide (high_confidence_cutoff <= score)%Q) as [Hle | Hlt].
    + rewrite filter_cons_True by (unfold score_at_least; by rewrite Hl).
      set_solver.
    + rewrite filter_cons_False by (unfold score_at_least; by rewrite Hl).
      done.
Qed.

Lemma high_conf_comprehension_elements df_go (common : gset string) :
  common ⊆ list_to_set (dict_keys df_go) →
  high_conf_comprehension df_go (elements common) ∅
  = Ok (high_confidence_at high_confidence_cutoff df_go common).
Proof.
  intros Hsub. rewrite high_conf_comprehension_spec.
  - f_equal. apply set_eq. intros go. unfold high_confidence_at.
    rewrite elem_of_union, elem_of_list_to_set, list_elem_of_filter,
      elem_of_filter, elem_of_elements. set_solver.
  - intros go Hgo. apply elem_of_elements, Hsub in Hgo. set_solver.
Qed.

Lemma jaccard_ok (A B : gset string) :
  (if decide (A ∪ B = ∅) then Ok 0%Q
   else py_div (Q_of_nat (size (A ∩ B))) (Q_of_nat (size (A ∪ B))))
  = Ok (jaccard_index A B).
Proof.
  unfold jaccard_index. destruct (decide (A ∪ B = ∅)) as [He | Hne]; [done |].
  apply py_div_ok.
  assert (size (A ∪ B) ≠ 0).
  { intros Hz. apply size_empty_iff in Hz. by apply leibniz_equiv in Hz. }
  pose proof (Q_of_nat_pos (size (A ∪ B)) ltac:(lia)). lra.
Qed.

(** [analyze_pdb] never raises; every field of its result in closed form. *)
Lemma analyze_pdb_ok godag ipro_go df_go sem_sim_threshold :
  ∃ recorded,
    collect_scores godag ipro_go (dict_keys df_go) [] = Ok recorded
    ∧ Forall (first_best_partner godag (dict_keys df_go)) recorded
    ∧ recorded.*1.*1 = filter (has_partner godag (dict_keys df_go)) ipro_go
    ∧ let A : gset string := list_to_set ipro_go in
      let B : gset string := list_to_set (dict_keys df_go) in
      let sem_pairs :=
        filter (λ p : SimilarityPair, (sem_sim_threshold <= pair_score p)%Q)
          recorded in
      let high := high_confidence_at high_confidence_cutoff df_go (A ∩ B) in
      analyze_pdb godag ipro_go df_go sem_sim_threshold
      = Ok {| interpro_count := length ipro_go;
              deepfri_count := length df_go;
              common := A ∩ B;
              common_count := size (A ∩ B);
              high_confidence_common := high;
              high_confidence_count := size high;
              interpro_only := A ∖ B;
              interpro_only_count := size (A ∖ B);
              deepfri_only := B ∖ A;
              deepfri_only_count := size (B ∖ A);
              jaccard := jaccard_index A B;
              deepfri_scores := df_go;
              semantic_avg_sim := mean_score recorded;
              semantic_pairs := sem_pairs;
              semantic_pairs_count := length sem_pairs |}.
Proof.
  destruct (_semantic_pairs_spec godag ipro_go (dict_keys df_go)
              sem_sim_threshold) as (recorded & Hrec & HF & Hfst & Hsem).
  exists recorded. split; [done |]. split; [done |]. split; [done |].
  intros A B sem_pairs high. unfold analyze_pdb.
  fold A B. rewrite jaccard_ok. simpl.
  rewrite high_conf_comprehension_elements by set_solver. simpl.
  rewrite Hsem. done.
Qed.

(** ** Independence of the iteration order *)

Lemma lowest_terms_eq q1 q2 :
  Qred q1 = q1 → Qred q2 = q2 → (q1 == q2)%Q → q1 = q2.
Proof. intros H1 H2 Heq. rewrite <- H1, <- H2. by apply Qred_complete. Qed.

Lemma sim_value_lowest_terms d : Qred (sim_value d) = sim_value d.
Proof.
  destruct d as [d|]; [| done]. simpl.
  apply Qred_complete, Qred_correct.
Qed.

Lemma Qmax_cases x y : Qmax x y = x ∨ Qmax x y = y.
Proof.
  unfold Qmax, GenericMinMax.gmax. destruct (x ?= y)%Q; auto.
Qed.

(** ** Rounding *)

Lemma pow2_pos z : (0 < pow2 z)%Q.
Proof. apply Qpower_0_lt. reflexivity. Qed.

Lemma pow2_add a b : (pow2 (a + b) == pow2 a * pow2 b)%Q.
Proof. apply Qpower_plus. discriminate. Qed.

Lemma pow2_sub a b : (pow2 (a - b) == pow2 a / pow2 b)%Q.
Proof. apply Qpower_minus. discriminate. Qed.

Lemma pow2_inject z : (0 <= z)%Z → (pow2 z == inject_Z (2 ^ z))%Q.
Proof. intros Hz. unfold pow2. by rewrite (Zpower_Qpower 2 z Hz). Qed.

Lemma pow2_le a b : (a <= b)%Z → (pow2 a <= pow2 b)%Q.
Proof. intros H. apply Qpower_le_compat_l; [done |]. discriminate. Qed.

Lemma pow2_lt a b : (a < b)%Z → (pow2 a < pow2 b)%Q.
Proof. intros H. apply Qpower_lt_compat_l; [done |]. reflexivity. Qed.

Lemma pow2_succ a : (pow2 (a + 1) == 2 * pow2 a)%Q.
Proof. rewrite pow2_add. change (pow2 1) with 2%Q. ring. Qed.


Lemma inject_Z_pos z : (0 < z)%Z → (0 < inject_Z z)%Q.
Proof. intros H. unfold Qlt. simpl. lia. Qed.

Lemma Qdiv_lt_cross a b c d :
  (0 < b)%Q → (0 < d)%Q → (a * d < c * b)%Q → (a / b < c / d)%Q.
Proof.
  intros Hb Hd H. apply Qlt_shift_div_r; [done |].
  assert (c / d * b == (c * b) / d)%Q as -> by (field; lra).
  apply Qlt_shift_div_l; done.
Qed.

Lemma Qdiv_le_cross a b c d :
  (0 < b)%Q → (0 < d)%Q → (a * d <= c * b)%Q → (a / b <= c / d)%Q.
Proof.
  intros Hb Hd H. apply Qle_shift_div_r; [done |].
  assert (c / d * b == (c * b) / d)%Q as -> by (field; lra).
  apply Qle_shift_div_l; done.
Qed.

(** [binade x] is the exponent of the power of two at or below [x]. *)
Lemma binade_spec x :
  (0 < x)%Q → (pow2 (binade x) <= x)%Q ∧ (x < pow2 (binade x + 1))%Q.
Proof.
  intros Hx. destruct x as [n d]. 
  assert (Hn : (0 < n)%Z).
  { unfold Qlt in Hx. simpl in Hx. lia. }
  unfold binade. cbn [Qnum Qden].
  set (ln := Z.log2 n). set (ld := Z.log2 (Z.pos d)).
  destruct (Z.log2_spec n Hn) as [Hn1 Hn2]. fold ln in Hn1, Hn2.
  destruct (Z.log2_spec (Z.pos d) (Pos2Z.is_pos d)) as [Hd1 Hd2].
  fold ld in Hd1, Hd2.
  assert (Hln : (0 <= ln)%Z) by apply Z.log2_nonneg.
  assert (Hld : (0 <= ld)%Z) by apply Z.log2_nonneg.
  assert (Hq : (n # d == inject_Z n / inject_Z (Z.pos d))%Q) by apply Qmake_Qdiv.
  assert (HD : (0 < inject_Z (Z.pos d))%Q) by (apply inject_Z_pos; lia).
  assert (HN : (0 < inject_Z n)%Q) by (by apply inject_Z_pos).
  assert (HA : (pow2 ln <= inject_Z n)%Q).
  { rewrite pow2_inject by done. by rewrite <- Zle_Qle. }
  assert (HA' : (inject_Z n < pow2 (ln + 1))%Q).
  { rewrite pow2_inject by lia. rewrite <- Zlt_Qlt.
    by replace (ln + 1)%Z with (Z.succ ln) by lia. }
  assert (HB : (pow2 ld <= inject_Z (Z.pos d))%Q).
  { rewrite pow2_inject by done. by rewrite <- Zle_Qle. }
  assert (HB' : (inject_Z (Z.pos d) < pow2 (ld + 1))%Q).
  { rewrite pow2_inject by lia. rewrite <- Zlt_Qlt.
    by replace (ld + 1)%Z with (Z.succ ld) by lia. }
  pose proof (pow2_pos ln) as Hpn. pose proof (pow2_pos ld) as Hpd.
  pose proof (pow2_pos (ln + 1)) as Hpn'. pose proof (pow2_pos (ld + 1)) as Hpd'.
  assert (Hupper : (n # d < pow2 (ln - ld + 1))%Q).
  { rewrite Hq.
    replace (ln - ld + 1)%Z with ((ln + 1) - ld)%Z by lia.
    rewrite pow2_sub. apply Qdiv_lt_cross; [done | done |]. nra. }
  assert (Hlower : (pow2 (ln - ld - 1) <= n # d)%Q).
  { rewrite Hq.
    replace (ln - ld - 1)%Z with (ln - (ld + 1))%Z by lia.
    rewrite pow2_sub. apply Qdiv_le_cross; [done | done |]. nra. }
  destruct (decide (pow2 (ln - ld) <= n # d)%Q) as [Hle | Hnle].
  - split; done.
  - split; [done |].
    replace (ln - ld - 1 + 1)%Z with (ln - ld)%Z by lia.
    by apply Qnot_le_lt.
Qed.

Lemma Qfloor_bounds q :
  (inject_Z (Qfloor q) <= q)%Q ∧ (q < inject_Z (Qfloor q) + 1)%Q.
Proof.
  split; [apply Qfloor_le |].
  pose proof (Qlt_floor q) as H. rewrite inject_Z_plus in H. exact H.
Qed.

Lemma round_half_even_cases q :
  let f := Qfloor q in
  (round_half_even q = f ∧ (q - inject_Z f <= 1 # 2)%Q)
  ∨ (round_half_even q = (f + 1)%Z ∧ ((1 # 2) <= q - inject_Z f)%Q).
Proof.
  intros f. unfold round_half_even. fold f.
  destruct (decide (q - inject_Z f < 1 # 2)%Q) as [H1 | H1].
  { left. split; [done | lra]. }
  destruct (decide ((1 # 2) < q - inject_Z f)%Q) as [H2 | H2].
  { right. split; [done | lra]. }
  apply Qnot_lt_le in H1, H2.
  destruct (Z.even f); [left | right]; done.
Qed.

(** Rounding to an integer moves by at most one half. *)
Lemma round_half_even_near q :
  (q - (1 # 2) <= inject_Z (round_half_even q))%Q
  ∧ (inject_Z (round_half_even q) <= q + (1 # 2))%Q.
Proof.
  destruct (Qfloor_bounds q) as [Hf1 Hf2].
  destruct (round_half_even_cases q) as [[-> H] | [-> H]].
  - lra.
  - rewrite inject_Z_plus. change (inject_Z 1) with 1%Q. lra.
Qed.

(** It never passes an integer. *)
Lemma round_half_even_le q z :
  (q <= inject_Z z)%Q → (round_half_even q <= z)%Z.
Proof.
  intros Hq. destruct (Qfloor_bounds q) as [Hf1 Hf2].
  destruct (round_half_even_cases q) as [[-> H] | [-> H]].
  - rewrite Zle_Qle. lra.
  - assert (inject_Z (Qfloor q) < inject_Z z)%Q as Hlt by lra.
    rewrite <- Zlt_Qlt in Hlt. lia.
Qed.

Lemma round_half_even_ge q z :
  (inject_Z z <= q)%Q → (z <= round_half_even q)%Z.
Proof.
  intros Hq. destruct (Qfloor_bounds q) as [Hf1 Hf2].
  assert (z <= Qfloor q)%Z as Hz.
  { assert (inject_Z z < inject_Z (Qfloor q + 1))%Q as Hlt.
    { rewrite inject_Z_plus. change (inject_Z 1) with 1%Q. lra. }
    rewrite <- Zlt_Qlt in Hlt. lia. }
  destruct (round_half_even_cases q) as [[-> H] | [-> H]]; lia.
Qed.

(** A tie goes to the even neighbour. *)
Lemma round_half_even_tie_down q z :
  Z.even z = true → (inject_Z z <= q)%Q → (q <= inject_Z z + (1 # 2))%Q →
  round_half_even q = z.
Proof.
  intros Hev H1 H2.
  assert (Qfloor q = z) as Hf.
  { destruct (Qfloor_bounds q) as [Hf1 Hf2].
    assert (inject_Z z < inject_Z (Qfloor q + 1))%Q as Ha.
    { rewrite inject_Z_plus. change (inject_Z 1) with 1%Q. lra. }
    assert (inject_Z (Qfloor q) < inject_Z (z + 1))%Q as Hb.
    { rewrite inject_Z_plus. change (inject_Z 1) with 1%Q. lra. }
    rewrite <- Zlt_Qlt in Ha, Hb. lia. }
  unfold round_half_even. rewrite Hf.
  destruct (decide (q - inject_Z z < 1 # 2)%Q) as [H3 | H3]; [done |].
  destruct (decide ((1 # 2) < q - inject_Z z)%Q) as [H4 | H4]; [lra |].
  by rewrite Hev.
Qed.

Lemma ulp_pos x : (0 < ulp x)%Q.
Proof. apply pow2_pos. Qed.

Lemma Qabs_of_pos x : (0 < x)%Q → Qabs x = x.
Proof.
  destruct x as [n d]. unfold Qlt. simpl. intros H.
  unfold Qabs. f_equal. lia.
Qed.

Lemma binary64_pos_eq x :
  (0 < x)%Q →
  (binary64 x == inject_Z (round_half_even (x / ulp x)) * ulp x)%Q.
Proof.
  intros Hx. unfold binary64, ulp.
  destruct (decide (x == 0)%Q) as [H0 | _]; [lra |].
  rewrite Qred_correct.
  destruct (decide (0 < x)%Q) as [_ | Hn]; [| done].
  by rewrite (Qabs_of_pos x Hx).
Qed.

(** The scaled value has 53 binary digits before the point. *)
Lemma mantissa_bounds x :
  (0 < x)%Q →
  (inject_Z (2 ^ 52) <= x / ulp x)%Q ∧ (x / ulp x < inject_Z (2 ^ 53))%Q.
Proof.
  intros Hx. unfold ulp. rewrite (Qabs_of_pos x Hx).
  destruct (binade_spec x Hx) as [H1 H2].
  pose proof (pow2_pos (binade x - 52)) as Hu.
  assert (pow2 (binade x) == pow2 (binade x - 52) * inject_Z (2 ^ 52))%Q as He1.
  { rewrite <- (pow2_inject 52) by lia. rewrite <- pow2_add.
    by replace (binade x - 52 + 52)%Z with (binade x) by lia. }
  assert (pow2 (binade x + 1) == pow2 (binade x - 52) * inject_Z (2 ^ 53))%Q
    as He2.
  { rewrite <- (pow2_inject 53) by lia. rewrite <- pow2_add.
    by replace (binade x - 52 + 53)%Z with (binade x + 1)%Z by lia. }
  split.
  - apply Qle_shift_div_l; [done |]. rewrite Qmult_comm, <- He1. done.
  - apply Qlt_shift_div_r; [done |]. rewrite Qmult_comm, <- He2. done.
Qed.


(** One rounding changes a positive number by a relative error of at most
    the unit roundoff. *)
Lemma binary64_rel x :
  (0 < x)%Q →
  ((1 - unit_roundoff) * x <= binary64 x)%Q
  ∧ (binary64 x <= (1 + unit_roundoff) * x)%Q.
Proof.
  intros Hx. rewrite (binary64_pos_eq x Hx).
  destruct (mantissa_bounds x Hx) as [Hm1 Hm2].
  destruct (round_half_even_near (x / ulp x)) as [Hr1 Hr2].
  pose proof (ulp_pos x) as Hu.
  set (m := (x / ulp x)%Q) in *.
  set (r := inject_Z (round_half_even m)) in *.
  assert (x == m * ulp x)%Q as Hxm.
  { unfold m. field. lra. }
  assert ((1 # 2) <= unit_roundoff * m)%Q as Hhalf.
  { change (inject_Z (2 ^ 52)) with (4503599627370496 # 1)%Q in Hm1.
    change unit_roundoff with (1 # 9007199254740992)%Q. lra. }
  set (w := ulp x) in *. clearbody m r w.
  change unit_roundoff with (1 # 9007199254740992)%Q in *.
  assert (0 <= (r - m + (1 # 9007199254740992) * m) * w)%Q as Hlo.
  { apply Qmult_le_0_compat; lra. }
  assert (0 <= (m + (1 # 9007199254740992) * m - r) * w)%Q as Hhi.
  { apply Qmult_le_0_compat; lra. }
  split; nra.
Qed.

Lemma binary64_0 : binary64 0 = 0%Q.
Proof. reflexivity. Qed.

Lemma binary64_pos x : (0 < x)%Q → (0 < binary64 x)%Q.
Proof.
  intros Hx. destruct (binary64_rel x Hx) as [H _].
  change unit_roundoff with (1 # 9007199254740992)%Q in H.
  eapply Qlt_le_trans; [| exact H].
  apply Qmult_lt_0_compat; [reflexivity | done].
Qed.

Lemma binary64_nonneg x : (0 <= x)%Q → (0 <= binary64 x)%Q.
Proof.
  intros Hx. destruct (decide (x == 0)%Q) as [H0 | H0].
  - unfold binary64. by destruct (decide (x == 0)%Q).
  - apply Qlt_le_weak, binary64_pos. lra.
Qed.

(** Rounding never passes a multiple of the unit in the last place. *)
Lemma binary64_le_multiple x j :
  (0 < x)%Q → (x <= inject_Z j * ulp x)%Q →
  (binary64 x <= inject_Z j * ulp x)%Q.
Proof.
  intros Hx Hj. rewrite (binary64_pos_eq x Hx).
  pose proof (ulp_pos x) as Hu.
  apply Qmult_le_compat_r; [| lra].
  rewrite <- Zle_Qle. apply round_half_even_le.
  apply Qle_shift_div_r; done.
Qed.

(** An integer of at most 53 binary digits is a float: rounding does not
    pass it. *)
Lemma binary64_le_int x k :
  (0 <= x)%Q → (x <= inject_Z k)%Q → (k <= 2 ^ 53)%Z →
  (binary64 x <= inject_Z k)%Q.
Proof.
  intros Hx0 Hxk Hk.
  destruct (decide (x == 0)%Q) as [H0 | H0].
  { unfold binary64. destruct (decide (x == 0)%Q); [lra | done]. }
  assert (Hx : (0 < x)%Q) by lra. clear Hx0 H0.
  destruct (binade_spec x Hx) as [Hb1 Hb2].
  assert (Hul : ulp x = pow2 (binade x - 52)).
  { unfold ulp. by rewrite (Qabs_of_pos x Hx). }
  assert (Hk53 : (inject_Z k <= pow2 53)%Q).
  { rewrite pow2_inject by lia. by rewrite <- Zle_Qle. }
  assert (He : (binade x <= 53)%Z).
  { apply (Qpower_le_compat_l_inv 2); [| reflexivity].
    fold (pow2 (binade x)). fold (pow2 53). lra. }
  destruct (decide (binade x = 53%Z)) as [E53 | E53].
  - (* then [x] is [2 ^ 53] itself *)
    rewrite E53 in Hb1.
    assert (inject_Z k == inject_Z (2 ^ 52) * ulp x)%Q as ->.
    { rewrite Hul, E53. change (pow2 (53 - 52)) with 2%Q.
      change (inject_Z (2 ^ 52) * 2)%Q with (pow2 53). lra. }
    apply binary64_le_multiple; [done |].
    rewrite Hul, E53. change (pow2 (53 - 52)) with 2%Q.
    change (inject_Z (2 ^ 52) * 2)%Q with (pow2 53). lra.
  - assert (Hs : (0 <= 52 - binade x)%Z) by lia.
    assert (inject_Z k == inject_Z (k * 2 ^ (52 - binade x)) * ulp x)%Q as Hkj.
    { rewrite Hul, inject_Z_mult, <- (pow2_inject _ Hs), <- Qmult_assoc.
      rewrite <- pow2_add.
      replace (52 - binade x + (binade x - 52))%Z with 0%Z by lia.
      change (pow2 0) with 1%Q. ring. }
    rewrite Hkj. apply binary64_le_multiple; [done |]. by rewrite <- Hkj.
Qed.

(** Above [2 ^ 53] the floats are two apart: adding at most one to
    [2 ^ 53] rounds back to it. *)
Lemma binary64_stuck x :
  (0 <= x)%Q → (x <= inject_Z (2 ^ 53) + 1)%Q →
  (binary64 x <= inject_Z (2 ^ 53))%Q.
Proof.
  intros Hx0 Hx1.
  destruct (decide (x <= inject_Z (2 ^ 53))%Q) as [Hle | Hgt].
  { by apply binary64_le_int. }
  apply Qnot_le_lt in Hgt.
  assert (Hx : (0 < x)%Q).
  { eapply Qlt_trans; [| exact Hgt]. reflexivity. }
  destruct (binade_spec x Hx) as [Hb1 Hb2].
  assert (Hul : ulp x = pow2 (binade x - 52)).
  { unfold ulp. by rewrite (Qabs_of_pos x Hx). }
  assert (E53 : binade x = 53%Z).
  { assert (53 < binade x + 1)%Z.
    { apply (Qpower_lt_compat_l_inv 2); [| reflexivity].
      fold (pow2 53). fold (pow2 (binade x + 1)).
      change (pow2 53) with (inject_Z (2 ^ 53)). lra. }
    assert (binade x < 54)%Z.
    { apply (Qpower_lt_compat_l_inv 2); [| reflexivity].
      fold (pow2 (binade x)). fold (pow2 54).
      change (pow2 54) with (2 * inject_Z (2 ^ 53))%Q.
      change (inject_Z (2 ^ 53)) with (9007199254740992 # 1)%Q in *. lra. }
    lia. }
  rewrite (binary64_pos_eq x Hx), Hul, E53.
  change (pow2 (53 - 52)) with 2%Q.
  rewrite (round_half_even_tie_down (x / 2) (2 ^ 52)).
  - change (inject_Z (2 ^ 52) * 2)%Q with (inject_Z (2 ^ 53)). lra.
  - reflexivity.
  - change (inject_Z (2 ^ 53)) with (9007199254740992 # 1)%Q in *.
    change (inject_Z (2 ^ 52)) with (4503599627370496 # 1)%Q.
    apply Qle_shift_div_l; [reflexivity |]. lra.
  - change (inject_Z (2 ^ 53)) with (9007199254740992 # 1)%Q in *.
    change (inject_Z (2 ^ 52)) with (4503599627370496 # 1)%Q.
    apply Qle_shift_div_r; [reflexivity |]. lra.
Qed.

Lemma binary64_rel_nonneg x :
  (0 <= x)%Q →
  ((1 - unit_roundoff) * x <= binary64 x)%Q
  ∧ (binary64 x <= (1 + unit_roundoff) * x)%Q.
Proof.
  intros Hx. destruct (decide (x == 0)%Q) as [H0 | H0].
  - unfold binary64. destruct (decide (x == 0)%Q); [| done].
    rewrite H0. split; lra.
  - apply binary64_rel. lra.
Qed.

Lemma binary64_unit_interval x :
  (0 < x)%Q → (x <= 1)%Q → (0 < binary64 x)%Q ∧ (binary64 x <= 1)%Q.
Proof.
  intros H0 H1. split; [by apply binary64_pos |].
  apply (binary64_le_int x 1); [lra | done | done].
Qed.

Lemma Q_of_nat_S_plus n : (Q_of_nat (S n) == Q_of_nat n + 1)%Q.
Proof.
  unfold Q_of_nat. rewrite Nat2Z.inj_succ, <- Z.add_1_r, inject_Z_plus.
  reflexivity.
Qed.

(** The partial sums of numbers of (0, 1] stay at or below their count,
    and positive. *)
Lemma fold_float_add_bounds (xs : list Q) (acc : Q) (k : nat) :
  Forall (λ x, (0 < x)%Q ∧ (x <= 1)%Q) xs →
  (0 <= acc)%Q → (acc <= Q_of_nat k)%Q → (acc <= inject_Z (2 ^ 53))%Q →
  let r := fold_left (λ acc x, binary64 (acc + binary64 x)%Q) xs acc in
  (r <= Q_of_nat (k + length xs))%Q
  ∧ ((0 < acc)%Q ∨ xs ≠ [] → (0 < r)%Q).
Proof.
  intros HF. revert acc k.
  induction HF as [|x xs [Hx0 Hx1] _ IH]; intros acc k Hacc0 Hacck Hacc53 r.
  - subst r. simpl. rewrite Nat.add_0_r.
    split; [done |]. by intros [? | ?].
  - subst r. cbn [fold_left length].
    destruct (binary64_unit_interval x Hx0 Hx1) as [Hb0 Hb1].
    set (acc' := binary64 (acc + binary64 x)%Q).
    assert (H0' : (0 < acc')%Q) by (apply binary64_pos; lra).
    assert (H53' : (acc' <= inject_Z (2 ^ 53))%Q).
    { apply binary64_stuck; lra. }
    assert (Hk' : (acc' <= Q_of_nat (S k))%Q).
    { destruct (decide (Z.of_nat (S k) <= 2 ^ 53)%Z) as [Hs | Hs].
      - apply binary64_le_int; [lra | | done].
        fold (Q_of_nat (S k)). rewrite Q_of_nat_S_plus. lra.
      - eapply Qle_trans; [exact H53' |].
        unfold Q_of_nat. rewrite <- Zle_Qle. lia. }
    destruct (IH acc' (S k)) as (Hr & Hpos); [lra | done | done |].
    split.
    + by replace (k + S (length xs)) with (S k + length xs) by lia.
    + intros _. apply Hpos. by left.
Qed.

Lemma py_sum_bounds (xs : list Q) :
  Forall (λ x, (0 < x)%Q ∧ (x <= 1)%Q) xs →
  (0 <= py_sum xs)%Q ∧ (py_sum xs <= Q_of_nat (length xs))%Q
  ∧ (xs ≠ [] → (0 < py_sum xs)%Q).
Proof.
  intros HF. unfold py_sum.
  destruct (fold_float_add_bounds xs 0%Q 0 HF) as (Hle & Hpos);
    [lra | done | done |].
  split; [| split; [done |]].
  - destruct xs as [|x xs]; [simpl; lra |].
    apply Qlt_le_weak, Hpos. by right.
  - intros Hne. apply Hpos. by right.
Qed.

(** ** The accumulated rounding error *)

Lemma pow_roundoff_S (q : Q) (k : nat) :
  (q ^ Z.of_nat (S k) == q * q ^ Z.of_nat k)%Q.
Proof.
  rewrite Nat2Z.inj_succ, <- Z.add_1_l.
  destruct k as [|k].
  - simpl. ring.
  - rewrite Qpower_plus'; [| lia]. by rewrite Qpower_1_r.
Qed.

Lemma pow_down_bounds (k : nat) :
  (0 < (1 - unit_roundoff) ^ Z.of_nat k)%Q
  ∧ ((1 - unit_roundoff) ^ Z.of_nat k <= 1)%Q.
Proof.
  induction k as [|k [IH0 IH1]].
  - simpl. split; lra.
  - rewrite pow_roundoff_S.
    change unit_roundoff with (1 # 9007199254740992)%Q in *. split; nra.
Qed.

Lemma pow_up_bounds (k : nat) : (1 <= (1 + unit_roundoff) ^ Z.of_nat k)%Q.
Proof.
  induction k as [|k IH].
  - simpl. lra.
  - rewrite pow_roundoff_S.
    change unit_roundoff with (1 # 9007199254740992)%Q in *. nra.
Qed.

Lemma within_roundings_S k exact computed :
  (0 <= exact)%Q → within_roundings k exact computed →
  within_roundings (S k) exact computed.
Proof.
  intros He [H1 H2]. unfold within_roundings. rewrite !pow_roundoff_S.
  destruct (pow_down_bounds k) as [Hd0 Hd1]. pose proof (pow_up_bounds k) as Hu.
  set (a := ((1 - unit_roundoff) ^ Z.of_nat k)%Q) in *.
  set (b := ((1 + unit_roundoff) ^ Z.of_nat k)%Q) in *. clearbody a b.
  change unit_roundoff with (1 # 9007199254740992)%Q in *.
  assert (0 <= a * exact)%Q by (apply Qmult_le_0_compat; lra).
  assert (0 <= b * exact)%Q by (apply Qmult_le_0_compat; lra).
  split; nra.
Qed.

Lemma within_roundings_mono k k' exact computed :
  k ≤ k' → (0 <= exact)%Q → within_roundings k exact computed →
  within_roundings k' exact computed.
Proof.
  induction 1 as [|k' _ IH]; [done |]. intros He H.
  apply within_roundings_S; [done |]. by apply IH.
Qed.

Lemma within_roundings_nonneg k exact computed :
  (0 <= exact)%Q → within_roundings k exact computed → (0 <= computed)%Q.
Proof.
  intros He [H _]. destruct (pow_down_bounds k) as [Hd0 _].
  eapply Qle_trans; [| exact H]. apply Qmult_le_0_compat; lra.
Qed.

(** One more rounding. *)
Lemma within_roundings_round k exact computed :
  (0 <= exact)%Q → within_roundings k exact computed →
  within_roundings (S k) exact (binary64 computed).
Proof.
  intros He H. pose proof (within_roundings_nonneg _ _ _ He H) as Hc.
  destruct H as [H1 H2].
  destruct (binary64_rel_nonneg computed Hc) as [Hr1 Hr2].
  unfold within_roundings. rewrite !pow_roundoff_S.
  destruct (pow_down_bounds k) as [Hd0 Hd1]. pose proof (pow_up_bounds k) as Hu.
  set (a := ((1 - unit_roundoff) ^ Z.of_nat k)%Q) in *.
  set (b := ((1 + unit_roundoff) ^ Z.of_nat k)%Q) in *.
  set (r := binary64 computed) in *. clearbody a b r.
  change unit_roundoff with (1 # 9007199254740992)%Q in *.
  split; nra.
Qed.

(** Adding two computed numbers. *)
Lemma within_roundings_plus k e1 c1 e2 c2 :
  within_roundings k e1 c1 → within_roundings k e2 c2 →
  within_roundings k (e1 + e2) (c1 + c2).
Proof.
  intros [H1 H2] [H3 H4]. unfold within_roundings. split; nra.
Qed.

Lemma within_roundings_scale k exact computed c :
  (0 <= c)%Q → within_roundings k exact computed →
  within_roundings k (exact * c) (computed * c).
Proof.
  intros Hc [H1 H2]. unfold within_roundings.
  set (a := ((1 - unit_roundoff) ^ Z.of_nat k)%Q) in *.
  set (b := ((1 + unit_roundoff) ^ Z.of_nat k)%Q) in *. clearbody a b.
  split; nra.
Qed.

(** The sum computed in floats is the exact sum up to one rounding for each
    term and each addition. *)
Lemma fold_float_add_within (xs : list Q) (k : nat) (exact acc : Q) :
  Forall (λ x, (0 <= x)%Q) xs →
  (0 <= exact)%Q → 1 ≤ k → within_roundings k exact acc →
  within_roundings (k + length xs) (exact + foldr Qplus 0%Q xs)
    (fold_left (λ acc x, binary64 (acc + binary64 x)%Q) xs acc).
Proof.
  intros HF. revert k exact acc.
  induction HF as [|x xs Hx _ IH]; intros k exact acc He Hk Hacc.
  - simpl. rewrite Nat.add_0_r. destruct Hacc as [H1 H2].
    unfold within_roundings. split; lra.
  - cbn [fold_left foldr length].
    replace (k + S (length xs)) with (S k + length xs) by lia.
    assert (exact + (x + foldr Qplus 0 xs) == (exact + x) + foldr Qplus 0 xs)%Q
      as Hassoc by ring.
    destruct (IH (S k) (exact + x)%Q (binary64 (acc + binary64 x)%Q))
      as [H1 H2]; [lra | lia | |].
    + apply within_roundings_round; [lra |].
      apply within_roundings_plus; [done |].
      apply (within_roundings_mono 1 k); [done | done |].
      destruct (binary64_rel_nonneg x Hx) as [Hr1 Hr2].
      unfold within_roundings. simpl. 
      change unit_roundoff with (1 # 9007199254740992)%Q in *. split; lra.
    + unfold within_roundings. rewrite Hassoc. done.
Qed.

Lemma py_sum_within (xs : list Q) :
  Forall (λ x, (0 <= x)%Q) xs →
  within_roundings (S (length xs)) (foldr Qplus 0%Q xs) (py_sum xs).
Proof.
  intros HF.
  pose proof (fold_float_add_within xs 1 0%Q 0%Q HF) as H.
  destruct H as [H1 H2]; [lra | done | |].
  - unfold within_roundings. split; lra.
  - unfold within_roundings, py_sum.
    replace (S (length xs)) with (1 + length xs) by lia.
    split.
    + eapply Qle_trans; [| exact H1]. lra.
    + eapply Qle_trans; [exact H2 |]. lra.
Qed.

Lemma exact_sum_Permutation xs ys :
  xs ≡ₚ ys → (foldr Qplus 0 xs == foldr Qplus 0 ys)%Q.
Proof.
  induction 1 as [| x l l' _ IH | x y l | l l' l'' _ IH1 _ IH2]; simpl.
  - reflexivity.
  - by rewrite IH.
  - ring.
  - by rewrite IH1.
Qed.

Lemma exact_mean_Permutation xs ys :
  xs ≡ₚ ys → (exact_mean xs == exact_mean ys)%Q.
Proof.
  intros H. unfold exact_mean.
  by rewrite (exact_sum_Permutation _ _ H), (Permutation_length H).
Qed.

Lemma exact_sum_nonneg xs :
  Forall (λ x, (0 <= x)%Q) xs → (0 <= foldr Qplus 0 xs)%Q.
Proof.
  induction 1 as [|x xs Hx _ IH]; simpl; lra.
Qed.

Lemma exact_mean_nonneg xs :
  Forall (λ x, (0 <= x)%Q) xs → (0 <= exact_mean xs)%Q.
Proof.
  intros HF. pose proof (exact_sum_nonneg xs HF) as Hs.
  unfold exact_mean. destruct xs as [|x xs].
  - simpl. unfold Qdiv. rewrite Qmult_0_l. lra.
  - apply Qle_shift_div_l; [| lra].
    apply inject_Z_pos. simpl. lia.
Qed.

(** The mean the scorer computes is the exact mean of the recorded scores
    up to the roundings of the terms, of the additions and of the
    division. *)
Lemma mean_score_within (recorded : list SimilarityPair) :
  Forall (λ p, (0 <= pair_score p)%Q) recorded → recorded ≠ [] →
  within_roundings (length recorded + 1) (exact_mean (pair_score <$> recorded))
    (mean_score recorded)
  ∧ within_roundings (length recorded + 2)
      (exact_mean (pair_score <$> recorded)) (binary64 (mean_score recorded)).
Proof.
  intros HF Hne.
  assert (HF' : Forall (λ x, (0 <= x)%Q) (pair_score <$> recorded)).
  { by apply Forall_fmap. }
  pose proof (py_sum_within _ HF') as Hsum.
  pose proof (exact_mean_nonneg _ HF') as Hmean.
  rewrite length_fmap in Hsum.
  assert (Hlen : (0 < inject_Z (Z.of_nat (length recorded)))%Q).
  { apply inject_Z_pos. destruct recorded; [done | simpl; lia]. }
  assert (Hw : within_roundings (length recorded + 1)
                 (exact_mean (pair_score <$> recorded)) (mean_score recorded)).
  { replace (length recorded + 1) with (S (length recorded)) by lia.
    apply (within_roundings_scale _ _ _
             (/ inject_Z (Z.of_nat (length recorded)))) in Hsum.
    - destruct Hsum as [H1 H2]. unfold within_roundings, exact_mean, mean_score.
      rewrite length_fmap. destruct recorded as [|p recorded]; [done |].
      rewrite Qred_correct. unfold Q_of_nat, Qdiv. done.
    - apply Qlt_le_weak, Qinv_lt_0_compat. done. }
  split; [done |].
  replace (length recorded + 2) with (S (length recorded + 1)) by lia.
  by apply within_roundings_round.
Qed.

Lemma within_roundings_agree k exact exact' x y :
  (0 <= exact)%Q → (exact == exact')%Q →
  within_roundings k exact x → within_roundings k exact' y →
  agree_within_roundings k x y.
Proof.
  intros He Heq [H1 H2] [H3 H4]. rewrite <- Heq in H3, H4.
  destruct (pow_down_bounds k) as [Hd0 Hd1]. pose proof (pow_up_bounds k) as Hu.
  unfold agree_within_roundings.
  set (a := ((1 - unit_roundoff) ^ Z.of_nat k)%Q) in *.
  set (b := ((1 + unit_roundoff) ^ Z.of_nat k)%Q) in *. clearbody a b.
  assert (0 <= (b - a) * exact)%Q by (apply Qmult_le_0_compat; lra).
  assert (a * x <= a * (b * exact))%Q by (apply Qmult_le_l; lra).
  assert (a * y <= a * (b * exact))%Q by (apply Qmult_le_l; lra).
  assert (b * (a * exact) <= b * y)%Q by (apply Qmult_le_l; lra).
  assert (b * (a * exact) <= b * x)%Q by (apply Qmult_le_l; lra).
  split; lra.
Qed.

Lemma source_scores_filter threshold (pairs : list SimilarityPair) :
  source_scores
    (filter (λ p : SimilarityPair, (threshold <= pair_score p)%Q) pairs)
  = filter (λ x : string * Q, (threshold <= x.2)%Q) (source_scores pairs).
Proof.
  unfold source_scores.
  induction pairs as [|p pairs IH]; [done |]. simpl.
  destruct (decide (threshold <= pair_score p)%Q) as [Hle | Hlt].
  - rewrite !filter_cons_True by done. simpl. by f_equal.
  - rewrite !filter_cons_False by done. done.
Qed.

Lemma pair_score_source_scores (pairs : list SimilarityPair) :
  pair_score <$> pairs = (source_scores pairs).*2.
Proof.
  unfold source_scores. rewrite <- list_fmap_compose. done.
Qed.

Section OrderTheorems.

Variable godag : gmap string GOTerm.

#[local] Abbreviation sim := (term_similarity godag).

Lemma term_similarity_lowest_terms a b : Qred (sim a b) = sim a b.
Proof. apply sim_value_lowest_terms. Qed.

Lemma max_similarity_spec setB a :
  Qred (max_similarity godag setB a) = max_similarity godag setB a
  ∧ (0 <= max_similarity godag setB a)%Q
  ∧ (∀ b, b ∈ setB → (sim a b <= max_similarity godag setB a)%Q)
  ∧ (max_similarity godag setB a = 0%Q
     ∨ ∃ b, b ∈ setB ∧ max_similarity godag setB a = sim a b).
Proof.
  induction setB as [|b setB (IHred & IHpos & IHub & IHatt)]; simpl.
  - split; [done |]. split; [lra |].
    split; [by intros b ?%elem_of_nil | by left].
  - pose proof (Q.le_max_l (sim a b) (max_similarity godag setB a)) as Hl.
    pose proof (Q.le_max_r (sim a b) (max_similarity godag setB a)) as Hr.
    split; [| split; [| split]].
    + destruct (Qmax_cases (sim a b) (max_similarity godag setB a)) as [-> | ->];
        [apply term_similarity_lowest_terms | done].
    + lra.
    + intros b' [-> | Hin]%elem_of_cons; [done |].
      specialize (IHub b' Hin). lra.
    + destruct (Qmax_cases (sim a b) (max_similarity godag setB a)) as [-> | ->].
      * right. exists b. split; [left | done].
      * destruct IHatt as [? | (b' & Hin & ?)]; [by left |].
        right. exists b'. split; [by right | done].
Qed.

Lemma max_similarity_Permutation setB setB' a :
  setB ≡ₚ setB' →
  max_similarity godag setB a = max_similarity godag setB' a.
Proof.
  intros Hperm.
  destruct (max_similarity_spec setB a) as (Hred & Hpos & Hub & Hatt).
  destruct (max_similarity_spec setB' a) as (Hred' & Hpos' & Hub' & Hatt').
  apply lowest_terms_eq; [done.. |].
  apply Qle_antisym.
  - destruct Hatt as [-> | (b & Hin & ->)]; [done |].
    apply Hub'. by rewrite <- Hperm.
  - destruct Hatt' as [-> | (b & Hin & ->)]; [done |].
    apply Hub. by rewrite Hperm.
Qed.

Lemma first_best_partner_max setB a b s :
  first_best_partner godag setB (a, b, s) → s = max_similarity godag setB a.
Proof.
  simpl. intros (-> & Hpos & l1 & l2 & -> & H1 & H2).
  destruct (max_similarity_spec (l1 ++ b :: l2) a)
    as (Hred & _ & Hub & Hatt).
  apply lowest_terms_eq; [apply term_similarity_lowest_terms | done |].
  apply Qle_antisym.
  - apply Hub. apply elem_of_app. right. left.
  - destruct Hatt as [-> | (b' & Hin & ->)]; [lra |].
    apply elem_of_app in Hin as [Hin | [-> | Hin]%elem_of_cons].
    + apply Qlt_le_weak. by apply H1.
    + lra.
    + by apply H2.
Qed.

Lemma source_scores_recorded setB (recorded : list SimilarityPair) :
  Forall (first_best_partner godag setB) recorded →
  source_scores recorded
  = (λ a, (a, max_similarity godag setB a)) <$> recorded.*1.*1.
Proof.
  unfold source_scores.
  induction 1 as [|[[a b] s] recorded Hp _ IH]; [done |]. simpl.
  f_equal; [| exact IH]. unfold pair_score. simpl.
  by rewrite (first_best_partner_max setB a b s Hp).
Qed.

Lemma has_partner_Permutation setB setB' a :
  setB ≡ₚ setB' → has_partner godag setB a ↔ has_partner godag setB' a.
Proof.
  intros Hperm. unfold has_partner. rewrite !Exists_exists.
  split; intros (b & Hin & Hpos); exists b; split; try done.
  - by rewrite <- Hperm.
  - by rewrite Hperm.
Qed.

(** Two runs on the same sets in different iteration orders record the
    same source terms with the same scores, up to order. *)
Lemma recorded_Permutation setA setA' setB setB'
    (recorded recorded' : list SimilarityPair) :
  setA ≡ₚ setA' → setB ≡ₚ setB' →
  Forall (first_best_partner godag setB) recorded →
  recorded.*1.*1 = filter (has_partner godag setB) setA →
  Forall (first_best_partner godag setB') recorded' →
  recorded'.*1.*1 = filter (has_partner godag setB') setA' →
  source_scores recorded ≡ₚ source_scores recorded'.
Proof.
  intros HA HB HF Hfst HF' Hfst'.
  rewrite (source_scores_recorded setB recorded HF), Hfst.
  rewrite (source_scores_recorded setB' recorded' HF'), Hfst'.
  rewrite (list_filter_iff (has_partner godag setB') (has_partner godag setB))
    by (intros a; symmetry; by apply has_partner_Permutation).
  rewrite <- HA.
  rewrite (list_fmap_ext (λ a, (a, max_similarity godag setB' a))
             (λ a, (a, max_similarity godag setB a)));
    [done |].
  intros i a _. f_equal. symmetry. by apply max_similarity_Permutation.
Qed.

End OrderTheorems.

(** * The claims *)

(** ** Distance *)

(** C1.  For distinct terms that both resolve and have a common ancestor
    (a term is an ancestor of itself), [_go_distance] returns the least,
    over the common ancestors [c], of [steps t1 c + steps t2 c], where
    [steps] is the least number of parent edges of a parent path; child
    edges are never followed.  On the synthetic graph (root R, children X
    and Y, child Z of X): distance(X, Y) = 2, distance(Z, Y) = 3,
    distance(Z, X) = 1. *)
Theorem go_distance_least_common_ancestor_sum :
  (∀ (godag : gmap string GOTerm) (t1 t2 : string),
     t1 ≠ t2 →
     is_Some (godag !! t1) →
     is_Some (godag !! t2) →
     (∃ c, common_ancestor godag t1 t2 c) →
     ∃ d, _go_distance godag t1 t2 = Some d
          ∧ (∃ c da db, common_ancestor godag t1 t2 c
                        ∧ steps godag t1 c da ∧ steps godag t2 c db
                        ∧ d = da + db)
          ∧ (∀ c da db, common_ancestor godag t1 t2 c →
                        steps godag t1 c da → steps godag t2 c db →
                        d ≤ da + db))
  ∧ _go_distance dag_RXYZ "X" "Y" = Some 2
  ∧ _go_distance dag_RXYZ "Z" "Y" = Some 3
  ∧ _go_distance dag_RXYZ "Z" "X" = Some 1.
Proof.
  split; [| split; [| split]].
  - intros godag t1 t2. apply _go_distance_min.
  - vm_compute. reflexivity.
  - vm_compute. reflexivity.
  - vm_compute. reflexivity.
Qed.

Lemma go_distance_least_common_ancestor_sum_witness :
  "X" ≠ "Y"
  ∧ is_Some (dag_RXYZ !! "X")
  ∧ is_Some (dag_RXYZ !! "Y")
  ∧ common_ancestor dag_RXYZ "X" "Y" "R"
  ∧ ∃ d, _go_distance dag_RXYZ "X" "Y" = Some d
         ∧ (∃ c da db, common_ancestor dag_RXYZ "X" "Y" c
                       ∧ steps dag_RXYZ "X" c da ∧ steps dag_RXYZ "Y" c db
                       ∧ d = da + db)
         ∧ (∀ c da db, common_ancestor dag_RXYZ "X" "Y" c →
                       steps dag_RXYZ "X" c da → steps dag_RXYZ "Y" c db →
                       d ≤ da + db).
Proof.
  assert (Hne : "X" ≠ "Y") by discriminate.
  assert (HX : is_Some (dag_RXYZ !! "X")) by (vm_compute; eauto).
  assert (HY : is_Some (dag_RXYZ !! "Y")) by (vm_compute; eauto).
  assert (HR : common_ancestor dag_RXYZ "X" "Y" "R").
  { split; exists 1; (eapply path_up; [| apply path_here]);
      eexists; (split; [vm_compute; reflexivity |]); left. }
  split; [exact Hne |]. split; [exact HX |]. split; [exact HY |].
  split; [exact HR |].
  apply (proj1 go_distance_least_common_ancestor_sum dag_RXYZ "X" "Y" Hne HX HY).
  exists "R". exact HR.
Defined.

(** C4, as amended.  For distinct terms such that one of them does not
    resolve, or both resolve but share no common ancestor, [_go_distance]
    returns [None] (no exception is raised) and the similarity of the pair
    is [0]. *)
Theorem go_distance_unreachable_distinct
    (godag : gmap string GOTerm) (t1 t2 : string) :
  t1 ≠ t2 →
  godag !! t1 = None ∨ godag !! t2 = None
  ∨ ¬ (∃ c, common_ancestor godag t1 t2 c) →
  _go_distance godag t1 t2 = None
  ∧ similarity (_go_distance godag t1 t2) = Ok 0%Q.
Proof.
  intros Hne Hcases.
  rewrite (_go_distance_unreachable godag t1 t2 Hne Hcases). done.
Qed.

Lemma go_distance_unreachable_distinct_witness :
  "X" ≠ "GO:0000000"
  ∧ dag_RXYZ !! "GO:0000000" = None
  ∧ _go_distance dag_RXYZ "X" "GO:0000000" = None
  ∧ similarity (_go_distance dag_RXYZ "X" "GO:0000000") = Ok 0%Q.
Proof.
  assert (Hne : "X" ≠ "GO:0000000") by discriminate.
  assert (Hun : dag_RXYZ !! "GO:0000000" = None) by (vm_compute; reflexivity).
  split; [exact Hne |]. split; [exact Hun |].
  apply (go_distance_unreachable_distinct dag_RXYZ "X" "GO:0000000" Hne).
  right. left. exact Hun.
Defined.

(** C4 as stated fails when the two terms are the same unresolved
    identifier: the distance is [0], not [None], and the similarity is
    [1]. *)
Lemma unresolved_term_distance_to_itself :
  dag_RXYZ !! "GO:0000000" = None
  ∧ _go_distance dag_RXYZ "GO:0000000" "GO:0000000" = Some 0
  ∧ _go_distance dag_RXYZ "GO:0000000" "GO:0000000" ≠ None
  ∧ similarity (_go_distance dag_RXYZ "GO:0000000" "GO:0000000") = Ok 1%Q.
Proof.
  split; [vm_compute; reflexivity |].
  split; [vm_compute; reflexivity |].
  split; [vm_compute; discriminate | vm_compute; reflexivity].
Qed.

(** C6.  For terms that both resolve, the distance is symmetric. *)
Theorem go_distance_symmetric (godag : gmap string GOTerm) (t1 t2 : string) :
  is_Some (godag !! t1) →
  is_Some (godag !! t2) →
  _go_distance godag t1 t2 = _go_distance godag t2 t1.
Proof. intros _ _. apply _go_distance_sym. Qed.

Lemma go_distance_symmetric_witness :
  is_Some (dag_RXYZ !! "Z")
  ∧ is_Some (dag_RXYZ !! "Y")
  ∧ _go_distance dag_RXYZ "Z" "Y" = _go_distance dag_RXYZ "Y" "Z".
Proof.
  assert (HZ : is_Some (dag_RXYZ !! "Z")) by (vm_compute; eauto).
  assert (HY : is_Some (dag_RXYZ !! "Y")) by (vm_compute; eauto).
  split; [exact HZ |]. split; [exact HY |].
  exact (go_distance_symmetric dag_RXYZ "Z" "Y" HZ HY).
Defined.

(** C7.  For every term, resolved or not, the distance to itself is [0];
    the graph is not consulted, so the result is the same over every
    graph. *)
Theorem go_distance_same_term_zero (godag : gmap string GOTerm) (t : string) :
  _go_distance godag t t = Some 0
  ∧ _go_distance ∅ t t = Some 0.
Proof.
  split; unfold _go_distance; by destruct (decide (t = t)).
Qed.

(** ** Similarity scoring *)

(** C2.  [_semantic_pairs] scores every [a] of [setA] against every [b] of
    [setB] with [1 / (1 + distance)], or [0] when the distance is
    undefined; it records for [a] the first [b] of greatest similarity,
    and only when that similarity is positive, so the recorded source
    terms are exactly the terms of [setA] with a reachable partner, in
    order; the mean it returns is [0] when nothing was recorded, and
    otherwise the arithmetic mean of the recorded scores as floats compute
    it: the quotient of the float sum by the count, and the float it rounds
    to, are the exact mean up to one rounding for each score, each
    addition and the division. *)
Theorem semantic_pairs_first_best_match
    (godag : gmap string GOTerm) (setA setB : list string) (sim_threshold : Q) :
  (∀ a b, similarity (_go_distance godag a b) = Ok (term_similarity godag a b))
  ∧ (∀ a b d, _go_distance godag a b = Some d →
              (term_similarity godag a b == 1 / (1 + Q_of_nat d))%Q)
  ∧ (∀ a b, _go_distance godag a b = None → term_similarity godag a b = 0%Q)
  ∧ (∀ a, has_partner godag setB a
          ↔ ∃ b, b ∈ setB ∧ is_Some (_go_distance godag a b))
  ∧ ∃ recorded avg_score high_pairs,
      collect_scores godag setA setB [] = Ok recorded
      ∧ Forall (first_best_partner godag setB) recorded
      ∧ recorded.*1.*1 = filter (has_partner godag setB) setA
      ∧ _semantic_pairs godag setA setB sim_threshold = Ok (avg_score, high_pairs)
      ∧ (recorded = [] → avg_score = 0%Q)
      ∧ (recorded ≠ [] →
         (0 < avg_score)%Q
         ∧ within_roundings (length recorded + 1)
             (exact_mean (pair_score <$> recorded)) avg_score
         ∧ within_roundings (length recorded + 2)
             (exact_mean (pair_score <$> recorded)) (binary64 avg_score)).
Proof.
  split; [intros a b; apply similarity_ok |].
  split; [intros a b d Hd; unfold term_similarity; rewrite Hd;
          apply sim_value_Some_eq |].
  split; [intros a b Hd; unfold term_similarity; by rewrite Hd |].
  split.
  { intros a. unfold has_partner. rewrite Exists_exists.
    split; intros (b & Hin & Hb); exists b; (split; [done |]);
      by apply sim_value_pos_iff. }
  destruct (_semantic_pairs_spec godag setA setB sim_threshold)
    as (recorded & Hrec & HF & Hfst & Hsem).
  exists recorded, (mean_score recorded),
    (filter (λ p : SimilarityPair, (sim_threshold <= pair_score p)%Q) recorded).
  split; [done |]. split; [done |]. split; [done |]. split; [done |].
  split; [by intros -> |].
  intros Hne.
  assert (Hpos : Forall (λ p : SimilarityPair, (0 < pair_score p)%Q) recorded).
  { eapply Forall_impl; [exact HF |]. intros [[a b] s] (_ & Hs & _). done. }
  assert (Hnn : Forall (λ p : SimilarityPair, (0 <= pair_score p)%Q) recorded).
  { eapply Forall_impl; [exact Hpos |]. intros p Hp. simpl in Hp. lra. }
  destruct (mean_score_within recorded Hnn Hne) as [Hw1 Hw2].
  split; [| done].
  assert (Hmean : (0 < exact_mean (pair_score <$> recorded))%Q).
  { unfold exact_mean. rewrite length_fmap.
    destruct recorded as [|p recorded]; [done |].
    apply Qlt_shift_div_l; [apply inject_Z_pos; simpl; lia |].
    rewrite Qmult_0_l. inversion Hpos as [|? ? Hp Hrest]; subst.
    rewrite fmap_cons. cbn [foldr].
    assert (0 <= foldr Qplus 0 (pair_score <$> recorded))%Q.
    { apply exact_sum_nonneg, Forall_fmap.
      inversion Hnn; subst. done. }
    simpl in Hp. lra. }
  destruct Hw1 as [Hlow _].
  destruct (pow_down_bounds (length recorded + 1)) as [Hd0 _].
  eapply Qlt_le_trans; [| exact Hlow].
  by apply Qmult_lt_0_compat.
Qed.

(** C8.  The high-similarity list is exactly the recorded pairs whose score
    is at least the threshold, the boundary included: with threshold 0.7 a
    recorded pair of score exactly 0.7 is kept and one of score exactly 0.5
    is not. *)
Theorem high_similarity_pairs_inclusive_threshold :
  (∀ (godag : gmap string GOTerm) (setA setB : list string) (sim_threshold : Q),
     ∃ recorded avg_score,
       collect_scores godag setA setB [] = Ok recorded
       ∧ _semantic_pairs godag setA setB sim_threshold
         = Ok (avg_score,
               filter (λ p : SimilarityPair, (sim_threshold <= pair_score p)%Q)
                 recorded))
  ∧ (∀ (scores : list SimilarityPair) (p : SimilarityPair),
       p ∈ scores → (pair_score p == 7 # 10)%Q →
       ∃ avg_score high_pairs,
         score_summary scores default_sim_threshold = Ok (avg_score, high_pairs)
         ∧ p ∈ high_pairs)
  ∧ (∀ (scores : list SimilarityPair) (p : SimilarityPair),
       (pair_score p == 1 # 2)%Q →
       ∃ avg_score high_pairs,
         score_summary scores default_sim_threshold = Ok (avg_score, high_pairs)
         ∧ p ∉ high_pairs).
Proof.
  split; [| split].
  - intros godag setA setB sim_threshold.
    destruct (_semantic_pairs_spec godag setA setB sim_threshold)
      as (recorded & Hrec & _ & _ & Hsem).
    by exists recorded, (mean_score recorded).
  - intros scores p Hin Hscore. eexists _, _.
    split; [apply score_summary_ok |].
    apply list_elem_of_filter. split; [| done].
    unfold default_sim_threshold. rewrite Hscore. apply Qle_refl.
  - intros scores p Hscore. eexists _, _.
    split; [apply score_summary_ok |].
    rewrite list_elem_of_filter. intros [Hle _].
    unfold default_sim_threshold in Hle. rewrite Hscore in Hle.
    by apply Qle_bool_iff in Hle.
Qed.

Lemma high_similarity_pairs_inclusive_threshold_witness :
  ("GO:0001", "GO:0002", (7 # 10)%Q) ∈ sample_scores
  ∧ (pair_score ("GO:0001", "GO:0002", (7 # 10)%Q) == 7 # 10)%Q
  ∧ ∃ avg_score high_pairs,
      score_summary sample_scores default_sim_threshold
      = Ok (avg_score, high_pairs)
      ∧ ("GO:0001", "GO:0002", (7 # 10)%Q) ∈ high_pairs.
Proof.
  assert (Hin : ("GO:0001", "GO:0002", (7 # 10)%Q) ∈ sample_scores) by left.
  assert (Hs : (pair_score ("GO:0001", "GO:0002", (7 # 10)%Q) == 7 # 10)%Q)
    by reflexivity.
  split; [exact Hin |]. split; [exact Hs |].
  exact (proj1 (proj2 high_similarity_pairs_inclusive_threshold)
           sample_scores _ Hin Hs).
Defined.

(** ** Reconciliation *)

(** C3, as amended.  The high-confidence intersection is the subset of the
    exact intersection whose score in [df_go] is at least 0.8; the cutoff
    0.8 is fixed inside [analyze_pdb], which takes no confidence threshold,
    so the set is the same whatever threshold the caller passes. *)
Theorem high_confidence_common_fixed_cutoff
    (godag : gmap string GOTerm) (ipro_go : list string)
    (df_go : list (string * Q)) (sem_sim_threshold : Q) :
  ∃ r, analyze_pdb godag ipro_go df_go sem_sim_threshold = Ok r
       ∧ high_confidence_common r
         = high_confidence_at (8 # 10)%Q df_go (common r)
       ∧ (∀ go, go ∈ high_confidence_common r
                ↔ go ∈ common r
                  ∧ ∃ score, (list_to_map df_go : gmap string Q) !! go = Some score
                             ∧ (8 # 10 <= score)%Q)
       ∧ (∀ other_threshold,
            ∃ r', analyze_pdb godag ipro_go df_go other_threshold = Ok r'
                  ∧ high_confidence_common r' = high_confidence_common r).
Proof.
  destruct (analyze_pdb_ok godag ipro_go df_go sem_sim_threshold)
    as (recorded & _ & _ & _ & Hr).
  eexists. split; [exact Hr |]. simpl.
  split; [done |]. split.
  - intros go. unfold high_confidence_at. rewrite elem_of_filter.
    unfold score_at_least, high_confidence_cutoff.
    destruct ((list_to_map df_go : gmap string Q) !! go) as [score|].
    + split.
      * intros [Hle Hin]. split; [done |]. by exists score.
      * intros [Hin (score' & [= <-] & Hle)]. done.
    + split; [by intros [[] _] | by intros [_ (score' & ? & _)]].
  - intros other_threshold.
    destruct (analyze_pdb_ok godag ipro_go df_go other_threshold)
      as (recorded' & _ & _ & _ & Hr').
    eexists. split; [exact Hr' |]. done.
Qed.

(** C3 as stated fails: a caller who wants the cutoff 0.5 cannot supply
    it.  With the only threshold of the entry point set to 0.5, a common
    term of score 0.6 is not in the high-confidence intersection, although
    it is in the subset of the intersection with score at least 0.5. *)
Lemma high_confidence_cutoff_not_caller_supplied :
  ∃ r, analyze_pdb dag_RXYZ ["X"; "Y"] graph_df_go (1 # 2)%Q = Ok r
       ∧ "Y" ∈ high_confidence_at (1 # 2)%Q graph_df_go (common r)
       ∧ ("Y" ∉ high_confidence_common r)
       ∧ high_confidence_common r
         ≠ high_confidence_at (1 # 2)%Q graph_df_go (common r).
Proof.
  destruct (analyze_pdb_ok dag_RXYZ ["X"; "Y"] graph_df_go (1 # 2)%Q)
    as (recorded & _ & _ & _ & Hr).
  eexists. split; [exact Hr |]. cbn [high_confidence_common common].
  assert (Hin : "Y" ∈ high_confidence_at (1 # 2)%Q graph_df_go
                        (list_to_set ["X"; "Y"]
                         ∩ list_to_set (dict_keys graph_df_go))).
  { apply elem_of_filter. split; [vm_compute; discriminate | set_solver]. }
  assert (Hout : "Y" ∉ high_confidence_at high_confidence_cutoff graph_df_go
                         (list_to_set ["X"; "Y"]
                          ∩ list_to_set (dict_keys graph_df_go))).
  { intros [Hle _]%elem_of_filter. vm_compute in Hle. by apply Hle. }
  split; [exact Hin |]. split; [exact Hout |].
  intros Heq. apply Hout. rewrite Heq. exact Hin.
Qed.

(** C5.  The Jaccard index of the result is [|A ∩ B| / |A ∪ B|] for the two
    annotation sets; it is [0] when the union is empty, [analyze_pdb]
    raising nothing on any input, and [1] when the sets are equal and not
    empty. *)
Theorem jaccard_of_annotation_sets
    (godag : gmap string GOTerm) (ipro_go : list string)
    (df_go : list (string * Q)) (sem_sim_threshold : Q) :
  ∃ r, analyze_pdb godag ipro_go df_go sem_sim_threshold = Ok r
       ∧ ((list_to_set ipro_go ∪ list_to_set (dict_keys df_go) : gset string) ≠ ∅ →
          (jaccard r
           == Q_of_nat (size (list_to_set ipro_go
                              ∩ list_to_set (dict_keys df_go) : gset string))
              / Q_of_nat (size (list_to_set ipro_go
                                ∪ list_to_set (dict_keys df_go) : gset string)))%Q)
       ∧ ((list_to_set ipro_go ∪ list_to_set (dict_keys df_go) : gset string) = ∅ →
          jaccard r = 0%Q)
       ∧ ((list_to_set ipro_go : gset string) = list_to_set (dict_keys df_go) →
          (list_to_set ipro_go : gset string) ≠ ∅ →
          jaccard r = 1%Q).
Proof.
  destruct (analyze_pdb_ok godag ipro_go df_go sem_sim_threshold)
    as (recorded & _ & _ & _ & Hr).
  eexists. split; [exact Hr |]. simpl. unfold jaccard_index.
  set (A := list_to_set ipro_go : gset string).
  set (B := list_to_set (dict_keys df_go) : gset string).
  split; [| split].
  - intros Hne. rewrite decide_False by done. apply Qred_correct.
  - intros He. by rewrite decide_True.
  - intros Heq Hne. rewrite <- Heq.
    replace (A ∪ A) with A by set_solver.
    replace (A ∩ A) with A by set_solver.
    rewrite decide_False by done.
    assert (Hsz : size A ≠ 0).
    { intros Hz. apply size_empty_iff in Hz. by apply leibniz_equiv in Hz. }
    pose proof (Q_of_nat_pos (size A) ltac:(lia)) as Hpos.
    change 1%Q with (Qred 1). apply Qred_complete. field. lra.
Qed.

Lemma jaccard_of_annotation_sets_witness :
  ∃ r, analyze_pdb dag_RXYZ sample_ipro_go sample_df_go default_sim_threshold
       = Ok r
       ∧ (jaccard r == 1 # 3)%Q.
Proof.
  destruct (jaccard_of_annotation_sets dag_RXYZ sample_ipro_go sample_df_go
              default_sim_threshold) as (r & Hr & Hratio & _ & _).
  exists r. split; [exact Hr |].
  rewrite Hratio; [vm_compute; reflexivity |].
  vm_compute. discriminate.
Defined.

(** C10.  The exact-match fields partition the union of the two term
    sets: [common], [interpro_only] and [deepfri_only] are pairwise
    disjoint and their union is the union of the inputs; every count is
    the size of its set, so [interpro_count] and [deepfri_count] are
    [common_count] plus the count of the side's exclusive set, and
    [high_confidence_common] is a subset of [common]. *)
Theorem exact_match_fields_partition
    (godag : gmap string GOTerm) (ipro_go : list string)
    (df_go : list (string * Q)) (sem_sim_threshold : Q) :
  NoDup ipro_go →
  NoDup (dict_keys df_go) →
  ∃ r, analyze_pdb godag ipro_go df_go sem_sim_threshold = Ok r
       ∧ common r ## interpro_only r
       ∧ common r ## deepfri_only r
       ∧ interpro_only r ## deepfri_only r
       ∧ common r ∪ interpro_only r ∪ deepfri_only r
         = list_to_set ipro_go ∪ list_to_set (dict_keys df_go)
       ∧ interpro_count r = size (list_to_set ipro_go : gset string)
       ∧ deepfri_count r = size (list_to_set (dict_keys df_go) : gset string)
       ∧ common_count r = size (common r)
       ∧ high_confidence_count r = size (high_confidence_common r)
       ∧ interpro_only_count r = size (interpro_only r)
       ∧ deepfri_only_count r = size (deepfri_only r)
       ∧ semantic_pairs_count r = length (semantic_pairs r)
       ∧ interpro_count r = common_count r + interpro_only_count r
       ∧ deepfri_count r = common_count r + deepfri_only_count r
       ∧ high_confidence_common r ⊆ common r.
Proof.
  intros HndA HndB.
  destruct (analyze_pdb_ok godag ipro_go df_go sem_sim_threshold)
    as (recorded & _ & _ & _ & Hr).
  eexists. split; [exact Hr |]. simpl.
  set (A := list_to_set ipro_go : gset string).
  set (B := list_to_set (dict_keys df_go) : gset string).
  assert (HsA : length ipro_go = size A).
  { symmetry. by apply size_list_to_set. }
  assert (HsB : length df_go = size B).
  { unfold B. rewrite size_list_to_set by done.
    unfold dict_keys. by rewrite length_fmap. }
  assert (HpA : size A = size (A ∩ B) + size (A ∖ B)).
  { rewrite <- size_union by set_solver. f_equal.
    apply set_eq. intros x. rewrite elem_of_union, elem_of_intersection,
      elem_of_difference. destruct (decide (x ∈ B)); tauto. }
  assert (HpB : size B = size (A ∩ B) + size (B ∖ A)).
  { rewrite <- size_union by set_solver. f_equal.
    apply set_eq. intros x. rewrite elem_of_union, elem_of_intersection,
      elem_of_difference. destruct (decide (x ∈ A)); tauto. }
  split; [set_solver |]. split; [set_solver |]. split; [set_solver |].
  split.
  { apply set_eq. intros x. rewrite !elem_of_union, elem_of_intersection,
      !elem_of_difference.
    destruct (decide (x ∈ A)), (decide (x ∈ B)); tauto. }
  split; [done |]. split; [done |].
  split; [done |]. split; [done |]. split; [done |]. split; [done |].
  split; [done |]. split; [lia |]. split; [lia |].
  unfold high_confidence_at. intros x [_ Hx]%elem_of_filter. done.
Qed.

Lemma exact_match_fields_partition_witness :
  NoDup sample_ipro_go
  ∧ NoDup (dict_keys sample_df_go)
  ∧ ∃ r, analyze_pdb dag_RXYZ sample_ipro_go sample_df_go default_sim_threshold
         = Ok r
         ∧ common r = {["GO:0001"]}
         ∧ interpro_only r = {["GO:0003"]}
         ∧ deepfri_only r = {["GO:0002"]}
         ∧ high_confidence_common r = {["GO:0001"]}
         ∧ interpro_count r = common_count r + interpro_only_count r
         ∧ deepfri_count r = common_count r + deepfri_only_count r.
Proof.
  assert (HndA : NoDup sample_ipro_go).
  { apply (bool_decide_unpack _). vm_compute. exact I. }
  assert (HndB : NoDup (dict_keys sample_df_go)).
  { apply (bool_decide_unpack _). vm_compute. exact I. }
  split; [exact HndA |]. split; [exact HndB |].
  destruct (exact_match_fields_partition dag_RXYZ sample_ipro_go sample_df_go
              default_sim_threshold HndA HndB)
    as (r & Hr & _ & _ & _ & _ & _ & _ & _ & _ & _ & _ & _ & HcA & HcB & _).
  exists r. split; [exact Hr |].
  assert (Hval : analyze_pdb dag_RXYZ sample_ipro_go sample_df_go
                   default_sim_threshold
                 = Ok r) by exact Hr.
  vm_compute in Hval. injection Hval as <-.
  split; [vm_compute; reflexivity |]. split; [vm_compute; reflexivity |].
  split; [vm_compute; reflexivity |]. split; [vm_compute; reflexivity |].
  split; [vm_compute; reflexivity |]. vm_compute; reflexivity.
Defined.

(** ** Determinism *)

(** C9, as amended.  Two runs on the same annotation sets and the same
    graph yield the same result whenever the sets are iterated in the same
    order.  When the iteration orders differ, every exact-match set, every
    count and the Jaccard index are still the same, [deepfri_scores] holds
    the same items, and [semantic_pairs] holds the same source terms with
    the same scores; the order of [semantic_pairs] and the partner chosen
    among equally similar terms may differ, and so may the last digits of
    the mean similarity, a float sum taken in the order of iteration: the
    two means agree up to the roundings of that sum. *)
Theorem analyze_pdb_same_sets_any_order
    (godag : gmap string GOTerm) (ipro_go ipro_go' : list string)
    (df_go df_go' : list (string * Q)) (sem_sim_threshold : Q) :
  ipro_go ≡ₚ ipro_go' →
  df_go ≡ₚ df_go' →
  NoDup (dict_keys df_go) →
  ∃ r r',
    analyze_pdb godag ipro_go df_go sem_sim_threshold = Ok r
    ∧ analyze_pdb godag ipro_go' df_go' sem_sim_threshold = Ok r'
    ∧ interpro_count r = interpro_count r'
    ∧ deepfri_count r = deepfri_count r'
    ∧ common r = common r'
    ∧ common_count r = common_count r'
    ∧ high_confidence_common r = high_confidence_common r'
    ∧ high_confidence_count r = high_confidence_count r'
    ∧ interpro_only r = interpro_only r'
    ∧ interpro_only_count r = interpro_only_count r'
    ∧ deepfri_only r = deepfri_only r'
    ∧ deepfri_only_count r = deepfri_only_count r'
    ∧ jaccard r = jaccard r'
    ∧ deepfri_scores r ≡ₚ deepfri_scores r'
    ∧ agree_within_roundings (interpro_count r + 2)
        (semantic_avg_sim r) (semantic_avg_sim r')
    ∧ agree_within_roundings (interpro_count r + 2)
        (binary64 (semantic_avg_sim r)) (binary64 (semantic_avg_sim r'))
    ∧ source_scores (semantic_pairs r) ≡ₚ source_scores (semantic_pairs r')
    ∧ semantic_pairs_count r = semantic_pairs_count r'.
Proof.
  intros HA Hdf Hnd.
  destruct (analyze_pdb_ok godag ipro_go df_go sem_sim_threshold)
    as (recorded & _ & HF & Hfst & Hr).
  destruct (analyze_pdb_ok godag ipro_go' df_go' sem_sim_threshold)
    as (recorded' & _ & HF' & Hfst' & Hr').
  eexists _, _. split; [exact Hr |]. split; [exact Hr' |]. simpl.
  assert (HB : dict_keys df_go ≡ₚ dict_keys df_go').
  { unfold dict_keys. by rewrite Hdf. }
  assert (HsetA : (list_to_set ipro_go : gset string) = list_to_set ipro_go').
  { by rewrite HA. }
  assert (HsetB : (list_to_set (dict_keys df_go) : gset string)
                  = list_to_set (dict_keys df_go')).
  { by rewrite HB. }
  assert (Hmap : (list_to_map df_go : gmap string Q) = list_to_map df_go').
  { by apply list_to_map_proper. }
  assert (Hhigh : ∀ X : gset string,
            high_confidence_at high_confidence_cutoff df_go X
            = high_confidence_at high_confidence_cutoff df_go' X).
  { intros X. apply set_eq. intros go. unfold high_confidence_at.
    rewrite !elem_of_filter. unfold score_at_least. by rewrite Hmap. }
  assert (Hsrc : source_scores recorded ≡ₚ source_scores recorded').
  { by apply (recorded_Permutation godag ipro_go ipro_go'
                (dict_keys df_go) (dict_keys df_go')). }
  assert (Hhighsrc :
    source_scores
      (filter (λ p : SimilarityPair, (sem_sim_threshold <= pair_score p)%Q)
         recorded)
    ≡ₚ source_scores
         (filter (λ p : SimilarityPair, (sem_sim_threshold <= pair_score p)%Q)
            recorded')).
  { rewrite !source_scores_filter. by rewrite Hsrc. }
  assert (Hscores : pair_score <$> recorded ≡ₚ pair_score <$> recorded').
  { rewrite !pair_score_source_scores. by rewrite Hsrc. }
  assert (Hlen : length recorded = length recorded').
  { apply Permutation_length in Hscores. by rewrite !length_fmap in Hscores. }
  assert (Hshort : length recorded ≤ length ipro_go).
  { assert (length recorded = length (recorded.*1.*1)) as ->
      by (by rewrite !length_fmap).
    rewrite Hfst. apply length_filter. }
  assert (Hnn : ∀ setB (l : list SimilarityPair),
            Forall (first_best_partner godag setB) l →
            Forall (λ p : SimilarityPair, (0 <= pair_score p)%Q) l).
  { intros setB l Hl. eapply Forall_impl; [exact Hl |].
    intros [[a b] s] (_ & Hs & _). simpl. lra. }
  assert (Hmeans :
    agree_within_roundings (length ipro_go + 2)
      (mean_score recorded) (mean_score recorded')
    ∧ agree_within_roundings (length ipro_go + 2)
        (binary64 (mean_score recorded)) (binary64 (mean_score recorded'))).
  { destruct recorded as [|p recorded].
    - destruct recorded' as [|p' recorded']; [| done].
      unfold agree_within_roundings. cbn [mean_score].
      change (binary64 0) with 0%Q. rewrite !Qmult_0_r.
      split; split; apply Qle_refl.
    - destruct recorded' as [|p' recorded']; [done |].
      destruct (mean_score_within (p :: recorded)) as [Hw1 Hw2];
        [by eapply Hnn | done |].
      destruct (mean_score_within (p' :: recorded')) as [Hw1' Hw2'];
        [by eapply Hnn | done |].
      pose proof (exact_mean_Permutation _ _ Hscores) as Hmean.
      assert (Hm0 : (0 <= exact_mean (pair_score <$> p :: recorded))%Q).
      { apply exact_mean_nonneg, Forall_fmap. by eapply Hnn. }
      assert (Hm0' : (0 <= exact_mean (pair_score <$> p' :: recorded'))%Q).
      { by rewrite <- Hmean. }
      split.
      + eapply within_roundings_agree; [exact Hm0 | exact Hmean | |].
        * eapply within_roundings_mono; [| done | exact Hw1]. lia.
        * eapply within_roundings_mono; [| done | exact Hw1']. lia.
      + eapply within_roundings_agree; [exact Hm0 | exact Hmean | |].
        * eapply within_roundings_mono; [| done | exact Hw2]. lia.
        * eapply within_roundings_mono; [| done | exact Hw2']. lia. }
  destruct Hmeans as [Hmeans1 Hmeans2].
  rewrite <- HsetA, <- HsetB, <- Hhigh.
  split; [by apply Permutation_length |].
  split; [by apply Permutation_length |].
  split; [done |]. split; [done |]. split; [done |]. split; [done |].
  split; [done |]. split; [done |]. split; [done |]. split; [done |].
  split; [done |]. split; [done |].
  split; [done |]. split; [done |]. split; [done |].
  apply Permutation_length in Hhighsrc. unfold source_scores in Hhighsrc.
  by rewrite !length_fmap in Hhighsrc.
Qed.

Lemma analyze_pdb_same_sets_any_order_witness :
  ["X"; "Q"; "Y"] ≡ₚ ["Y"; "X"; "Q"]
  ∧ mixed_df_go ≡ₚ mixed_df_go
  ∧ NoDup (dict_keys mixed_df_go)
  ∧ ∃ r r',
      analyze_pdb dag_RXYZ ["X"; "Q"; "Y"] mixed_df_go default_sim_threshold
      = Ok r
      ∧ analyze_pdb dag_RXYZ ["Y"; "X"; "Q"] mixed_df_go default_sim_threshold
        = Ok r'
      ∧ jaccard r = jaccard r'
      ∧ agree_within_roundings 5
          (binary64 (semantic_avg_sim r)) (binary64 (semantic_avg_sim r'))
      ∧ source_scores (semantic_pairs r) ≡ₚ source_scores (semantic_pairs r').
Proof.
  assert (HA : ["X"; "Q"; "Y"] ≡ₚ ["Y"; "X"; "Q"]).
  { change (["X"; "Q"] ++ ["Y"] ≡ₚ ["Y"] ++ ["X"; "Q"]).
    apply Permutation_app_comm. }
  assert (Hdf : mixed_df_go ≡ₚ mixed_df_go) by reflexivity.
  assert (Hnd : NoDup (dict_keys mixed_df_go)).
  { apply (bool_decide_unpack _). vm_compute. exact I. }
  split; [exact HA |]. split; [exact Hdf |]. split; [exact Hnd |].
  destruct (analyze_pdb_same_sets_any_order dag_RXYZ _ _ _ _
              default_sim_threshold HA Hdf Hnd)
    as (r & r' & Hr & Hr' & Hc & _ & _ & _ & _ & _ & _ & _ & _ & _
        & Hj & _ & _ & Havg & Hsrc & _).
  exists r, r'. split; [exact Hr |]. split; [exact Hr' |].
  split; [exact Hj |]. split; [| exact Hsrc].
  assert (Hcount : interpro_count r = 3).
  { assert (Hval : analyze_pdb dag_RXYZ ["X"; "Q"; "Y"] mixed_df_go
                     default_sim_threshold = Ok r) by exact Hr.
    vm_compute in Hval. injection Hval as <-. reflexivity. }
  rewrite Hcount in Havg. exact Havg.
Defined.

(** C9 as stated fails: the same two sets, iterated in another order,
    give another [semantic_pairs] list and another mean.  Reordering the
    first set reorders the list; reordering the second changes the partner
    of a term with two equally similar candidates; and the scores 1, 1 and
    1/3 add up to the mean 0.7777777777777778 in this order and to
    0.7777777777777777 with 1/3 first. *)
Lemma analyze_pdb_depends_on_iteration_order :
  (["X"; "Y"] ≡ₚ ["Y"; "X"]
   ∧ ∃ r r',
       analyze_pdb dag_RXYZ ["X"; "Y"] graph_df_go default_sim_threshold = Ok r
       ∧ analyze_pdb dag_RXYZ ["Y"; "X"] graph_df_go default_sim_threshold
         = Ok r'
       ∧ semantic_pairs r = [("X", "X", 1%Q); ("Y", "Y", 1%Q)]
       ∧ semantic_pairs r' = [("Y", "Y", 1%Q); ("X", "X", 1%Q)]
       ∧ r ≠ r')
  ∧ (graph_df_go ≡ₚ graph_df_go_reordered
     ∧ ∃ r r',
         analyze_pdb dag_RXYZ ["R"] graph_df_go (1 # 2)%Q = Ok r
         ∧ analyze_pdb dag_RXYZ ["R"] graph_df_go_reordered (1 # 2)%Q = Ok r'
         ∧ semantic_pairs r = [("R", "X", (1 # 2)%Q)]
         ∧ semantic_pairs r' = [("R", "Y", (1 # 2)%Q)]
         ∧ r ≠ r')
  ∧ (["X"; "Q"; "Y"] ≡ₚ ["Y"; "X"; "Q"]
     ∧ ∃ r r',
         analyze_pdb dag_RXYZ ["X"; "Q"; "Y"] mixed_df_go (1 # 4)%Q = Ok r
         ∧ analyze_pdb dag_RXYZ ["Y"; "X"; "Q"] mixed_df_go (1 # 4)%Q = Ok r'
         ∧ source_scores (semantic_pairs r)
           = [("X", 1%Q); ("Q", 1%Q); ("Y", (1 # 3)%Q)]
         ∧ source_scores (semantic_pairs r')
           = [("Y", (1 # 3)%Q); ("X", 1%Q); ("Q", 1%Q)]
         ∧ binary64 (semantic_avg_sim r)
           = (7005599420354105 # 9007199254740992)%Q
         ∧ binary64 (semantic_avg_sim r')
           = (875699927544263 # 1125899906842624)%Q
         ∧ semantic_avg_sim r ≠ semantic_avg_sim r').
Proof.
  split; [| split].
  - split; [apply perm_swap |].
    eexists _, _.
    split; [vm_compute; reflexivity |]. split; [vm_compute; reflexivity |].
    split; [vm_compute; reflexivity |]. split; [vm_compute; reflexivity |].
    intros Heq. apply (f_equal semantic_pairs) in Heq.
    vm_compute in Heq. discriminate.
  - split; [apply perm_swap |].
    eexists _, _.
    split; [vm_compute; reflexivity |]. split; [vm_compute; reflexivity |].
    split; [vm_compute; reflexivity |]. split; [vm_compute; reflexivity |].
    intros Heq. apply (f_equal semantic_pairs) in Heq.
    vm_compute in Heq. discriminate.
  - split.
    { change (["X"; "Q"] ++ ["Y"] ≡ₚ ["Y"] ++ ["X"; "Q"]).
      apply Permutation_app_comm. }
    eexists _, _.
    split; [vm_compute; reflexivity |]. split; [vm_compute; reflexivity |].
    split; [vm_compute; reflexivity |]. split; [vm_compute; reflexivity |].
    split; [vm_compute; reflexivity |]. split; [vm_compute; reflexivity |].
    intros Heq. vm_compute in Heq. discriminate.
Qed.

(** * Further properties of the embedded code *)

(** ** More on the distance *)

Section DistanceMore.

Variable godag : gmap string GOTerm.

(** What a returned number means. *)
Lemma _go_distance_Some_inv go1 go2 d :
  _go_distance godag go1 go2 = Some d →
  (go1 = go2 ∧ d = 0)
  ∨ (go1 ≠ go2 ∧ is_Some (godag !! go1) ∧ is_Some (godag !! go2)
     ∧ ∃ c da db, common_ancestor godag go1 go2 c
                  ∧ steps godag go1 c da ∧ steps godag go2 c db
                  ∧ d = da + db
                  ∧ ∀ c' da' db', common_ancestor godag go1 go2 c' →
                      steps godag go1 c' da' → steps godag go2 c' db' →
                      d ≤ da' + db').
Proof.
  intros Hd.
  destruct (decide (go1 = go2)) as [-> | Hne].
  - left. split; [done |]. unfold _go_distance in Hd.
    rewrite decide_True in Hd by done. congruence.
  - right. split; [done |].
    pose proof Hd as Hd'. unfold _go_distance in Hd'.
    rewrite decide_False in Hd' by done.
    destruct (godag !! go1) as [a|] eqn:Ha; [| done].
    destruct (godag !! go2) as [b|] eqn:Hb; [| done]. simpl in Hd'.
    destruct (decide _) as [He | Hne'] in Hd'; [done |].
    apply set_choose_L in Hne' as [c0 Hc0].
    apply (elem_of_common godag go1 go2 a b c0 Ha Hb) in Hc0.
    destruct (_go_distance_min godag go1 go2 Hne) as (d' & Hd'' & Hatt & Hmin);
      [by rewrite Ha | by rewrite Hb | by exists c0 |].
    rewrite Hd in Hd''. injection Hd'' as <-.
    split; [by eexists |]. split; [by eexists |].
    destruct Hatt as (c & da & db & Hc & Hsa & Hsb & ->).
    exists c, da, db. done.
Qed.

Lemma _go_distance_None_inv go1 go2 :
  _go_distance godag go1 go2 = None →
  go1 ≠ go2
  ∧ (godag !! go1 = None ∨ godag !! go2 = None
     ∨ ¬ (∃ c, common_ancestor godag go1 go2 c)).
Proof.
  intros Hd.
  destruct (decide (go1 = go2)) as [-> | Hne].
  - unfold _go_distance in Hd. by rewrite decide_True in Hd.
  - split; [done |].
    destruct (godag !! go1) as [a|] eqn:Ha; [| by left].
    destruct (godag !! go2) as [b|] eqn:Hb; [| by right; left].
    right. right. intros Hex.
    destruct (_go_distance_min godag go1 go2 Hne) as (d & Hd' & _);
      [by rewrite Ha | by rewrite Hb | done |]. congruence.
Qed.

Lemma _go_distance_zero_iff go1 go2 :
  _go_distance godag go1 go2 = Some 0 ↔ go1 = go2.
Proof.
  split.
  - intros Hd. apply _go_distance_Some_inv in Hd
      as [[? _] | (Hne & _ & _ & c & da & db & _ & [Ha _] & [Hb _] & Hsum & _)];
      [done |].
    assert (da = 0) as -> by lia. assert (db = 0) as -> by lia.
    apply path_zero_inv in Ha, Hb. congruence.
  - intros ->. unfold _go_distance. by rewrite decide_True.
Qed.

(** Any pair of parent paths to a common ancestor bounds the distance. *)
Lemma _go_distance_le_paths go1 go2 c n1 n2 :
  go1 ≠ go2 →
  is_Some (godag !! go1) →
  is_Some (godag !! go2) →
  path godag n1 go1 c →
  path godag n2 go2 c →
  ∃ d, _go_distance godag go1 go2 = Some d ∧ 1 ≤ d ≤ n1 + n2.
Proof.
  intros Hne H1 H2 Hp1 Hp2.
  assert (Hc : common_ancestor godag go1 go2 c).
  { split; [by exists n1 | by exists n2]. }
  destruct (_go_distance_min godag go1 go2 Hne H1 H2) as (d & Hd & _ & Hmin);
    [by exists c |].
  exists d. split; [done |].
  destruct (_min_steps_ancestor godag go1 c (proj1 Hc)) as (da & _ & Hsa & _).
  destruct (_min_steps_ancestor godag go2 c (proj2 Hc)) as (db & _ & Hsb & _).
  specialize (Hmin c da db Hc Hsa Hsb).
  pose proof (proj2 Hsa n1 Hp1). pose proof (proj2 Hsb n2 Hp2).
  split; [| lia].
  destruct d as [|d]; [| lia].
  apply _go_distance_zero_iff in Hd. done.
Qed.

End DistanceMore.

(** ** More on the scorer *)

Lemma Q_of_nat_S n : (Q_of_nat (S n) == 1 + Q_of_nat n)%Q.
Proof.
  unfold Q_of_nat. rewrite Nat2Z.inj_succ, <- Z.add_1_l, inject_Z_plus.
  reflexivity.
Qed.

Lemma Q_of_nat_zero_iff n : (Q_of_nat n == 0)%Q ↔ n = 0.
Proof.
  unfold Q_of_nat, Qeq. simpl. lia.
Qed.

Lemma sim_value_le_1 d : (sim_value d <= 1)%Q.
Proof.
  destruct d as [d|]; [| simpl; lra].
  rewrite sim_value_Some_eq. pose proof (Q_of_nat_nonneg d).
  apply Qle_shift_div_r; lra.
Qed.

Lemma sim_value_one_iff d : sim_value d = 1%Q ↔ d = Some 0.
Proof.
  split.
  - destruct d as [d|]; [| by intros [=]].
    intros Hd. f_equal. apply Q_of_nat_zero_iff.
    pose proof (sim_value_Some_eq d) as Heq. rewrite Hd in Heq.
    pose proof (Q_of_nat_nonneg d).
    assert (Hmul : (1 * (1 + Q_of_nat d) == 1)%Q).
    { rewrite Heq at 1. field. lra. }
    lra.
  - intros ->. reflexivity.
Qed.

Lemma mean_score_bounds (recorded : list SimilarityPair) :
  Forall (λ p, (0 < pair_score p)%Q ∧ (pair_score p <= 1)%Q) recorded →
  (0 <= mean_score recorded)%Q ∧ (mean_score recorded <= 1)%Q
  ∧ (recorded ≠ [] → (0 < mean_score recorded)%Q).
Proof.
  intros HF.
  destruct recorded as [|p recorded].
  { simpl. split; [lra |]. split; [lra | done]. }
  assert (HF' : Forall (λ x, (0 < x)%Q ∧ (x <= 1)%Q)
                  (pair_score <$> p :: recorded)).
  { apply Forall_fmap. eapply Forall_impl; [exact HF |]. done. }
  destruct (py_sum_bounds _ HF') as (_ & Hn & Hpos).
  specialize (Hpos ltac:(done)). rewrite length_fmap in Hn.
  pose proof (Q_of_nat_pos (length (p :: recorded)) ltac:(simpl; lia)) as Hlen.
  unfold mean_score. rewrite Qred_correct.
  assert (Hq : (0 < py_sum (pair_score <$> p :: recorded)
                    / Q_of_nat (length (p :: recorded)))%Q).
  { apply Qlt_shift_div_l; lra. }
  split; [lra |]. split; [| done].
  apply Qle_shift_div_r; lra.
Qed.

(** A greater threshold keeps a sublist. *)
Lemma filter_threshold_sublist (low high : Q) (pairs : list SimilarityPair) :
  (low <= high)%Q →
  filter (λ p : SimilarityPair, (high <= pair_score p)%Q) pairs
  `sublist_of`
  filter (λ p : SimilarityPair, (low <= pair_score p)%Q) pairs.
Proof.
  intros Hle. induction pairs as [|p pairs IH]; [done |].
  destruct (decide (high <= pair_score p)%Q) as [Hh | Hh].
  - rewrite !filter_cons_True by (done || lra). by apply sublist_skip.
  - rewrite (filter_cons_False (λ p : SimilarityPair,
               (high <= pair_score p)%Q)) by done.
    destruct (decide (low <= pair_score p)%Q) as [Hl | Hl].
    + rewrite filter_cons_True by done. by apply sublist_cons.
    + rewrite filter_cons_False by done. done.
Qed.

Section ScorerMore.

Variable godag : gmap string GOTerm.

#[local] Abbreviation sim := (term_similarity godag).

Lemma term_similarity_one_iff a b : sim a b = 1%Q ↔ a = b.
Proof.
  unfold term_similarity. rewrite sim_value_one_iff.
  apply _go_distance_zero_iff.
Qed.

Lemma first_best_partner_facts setB a b s :
  first_best_partner godag setB (a, b, s) →
  s = sim a b ∧ b ∈ setB ∧ (0 < s)%Q ∧ (s <= 1)%Q
  ∧ (∀ b', b' ∈ setB → (sim a b' <= s)%Q).
Proof.
  simpl. intros (-> & Hpos & l1 & l2 & -> & H1 & H2).
  split; [done |].
  split; [apply elem_of_app; right; left |].
  split; [done |]. split; [apply sim_value_le_1 |].
  intros b' [Hin | [-> | Hin]%elem_of_cons]%elem_of_app.
  - apply Qlt_le_weak. by apply H1.
  - lra.
  - by apply H2.
Qed.

Lemma recorded_scores_in_range setB (recorded : list SimilarityPair) :
  Forall (first_best_partner godag setB) recorded →
  Forall (λ p, (0 < pair_score p)%Q ∧ (pair_score p <= 1)%Q) recorded.
Proof.
  intros HF. eapply Forall_impl; [exact HF |].
  intros [[a b] s] Hp.
  apply first_best_partner_facts in Hp as (_ & _ & Hpos & Hle & _). done.
Qed.

(** A source term that is itself in [setB] is recorded with itself as
    partner, at score 1. *)
Lemma recorded_self_pair setA setB (recorded : list SimilarityPair) a :
  Forall (first_best_partner godag setB) recorded →
  recorded.*1.*1 = filter (has_partner godag setB) setA →
  a ∈ setA → a ∈ setB →
  (a, a, 1%Q) ∈ recorded.
Proof.
  intros HF Hfst HA HB.
  assert (Hself : sim a a = 1%Q) by by apply term_similarity_one_iff.
  assert (Hin : a ∈ recorded.*1.*1).
  { rewrite Hfst. apply list_elem_of_filter. split; [| done].
    apply Exists_exists. exists a. split; [done |]. rewrite Hself. lra. }
  apply list_elem_of_fmap in Hin as ([a' b] & Ha & Hin).
  apply list_elem_of_fmap in Hin as ([[a'' b'] s] & [= -> ->] & Hin).
  simpl in Ha. subst a''.
  rewrite Forall_forall in HF. pose proof (HF _ Hin) as Hp.
  apply first_best_partner_facts in Hp as (Hs & _ & _ & Hle & Hmax).
  specialize (Hmax a HB). rewrite Hself in Hmax. subst s.
  assert (Hone : sim a b' = 1%Q).
  { apply lowest_terms_eq; [| done | lra].
    apply term_similarity_lowest_terms. }
  pose proof Hone as Hb. apply term_similarity_one_iff in Hb as <-.
  by rewrite Hone in Hin.
Qed.

Lemma filter_has_partner_nil setA :
  filter (has_partner godag []) setA = [].
Proof.
  induction setA as [|a setA IH]; [done |].
  rewrite filter_cons_False; [done |].
  unfold has_partner. intros Hex. by apply Exists_nil in Hex.
Qed.

(** No partner at all: nothing is recorded. *)
Lemma collect_scores_no_partner setA :
  collect_scores godag setA [] [] = Ok [].
Proof.
  destruct (collect_scores_spec godag setA [] []) as (recorded & Heq & _ & Hfst).
  simpl in Heq. rewrite Heq. f_equal.
  rewrite filter_has_partner_nil in Hfst. by destruct recorded.
Qed.

End ScorerMore.

(** ** More on the reconciler *)

Lemma Q_of_nat_le n m : n ≤ m → (Q_of_nat n <= Q_of_nat m)%Q.
Proof. intros Hle. unfold Q_of_nat, Qle. simpl. lia. Qed.

Lemma Q_of_nat_inj n m : (Q_of_nat n == Q_of_nat m)%Q → n = m.
Proof. unfold Q_of_nat, Qeq. simpl. lia. Qed.

Lemma Qred_eq_0 q : Qred q = 0%Q ↔ (q == 0)%Q.
Proof.
  split.
  - intros Hq. rewrite <- (Qred_correct q), Hq. reflexivity.
  - intros Hq. by apply (Qred_complete q 0).
Qed.

Lemma Qred_eq_1 q : Qred q = 1%Q ↔ (q == 1)%Q.
Proof.
  split.
  - intros Hq. rewrite <- (Qred_correct q), Hq. reflexivity.
  - intros Hq. by apply (Qred_complete q 1).
Qed.

Lemma jaccard_index_facts (A B : gset string) :
  (0 <= jaccard_index A B)%Q
  ∧ (jaccard_index A B <= 1)%Q
  ∧ (jaccard_index A B = 0%Q ↔ A ∩ B = ∅)
  ∧ (jaccard_index A B = 1%Q ↔ A = B ∧ A ≠ ∅).
Proof.
  unfold jaccard_index.
  destruct (decide (A ∪ B = ∅)) as [He | Hne].
  - split; [lra |]. split; [lra |]. split.
    + split; [set_solver | done].
    + split; [done | set_solver].
  - assert (Hm : size (A ∪ B) ≠ 0).
    { intros Hz. apply size_empty_iff in Hz. by apply leibniz_equiv in Hz. }
    pose proof (Q_of_nat_pos (size (A ∪ B)) ltac:(lia)) as Hmpos.
    pose proof (Q_of_nat_nonneg (size (A ∩ B))) as Hn0.
    assert (Hnm : size (A ∩ B) ≤ size (A ∪ B)).
    { apply subseteq_size. set_solver. }
    pose proof (Q_of_nat_le _ _ Hnm) as Hle.
    split; [rewrite Qred_correct; apply Qle_shift_div_l; lra |].
    split; [rewrite Qred_correct; apply Qle_shift_div_r; lra |].
    split.
    + rewrite Qred_eq_0. split.
      * intros Hq.
        assert (Hz : (Q_of_nat (size (A ∩ B)) == 0)%Q).
        { rewrite <- (Qmult_div_r (Q_of_nat (size (A ∩ B)))
                        (Q_of_nat (size (A ∪ B)))) by lra.
          rewrite Hq. ring. }
        apply Q_of_nat_zero_iff, size_empty_iff in Hz.
        by apply leibniz_equiv in Hz.
      * intros ->. rewrite size_empty. unfold Qdiv, Q_of_nat. simpl. ring.
    + rewrite Qred_eq_1. split.
      * intros Hq.
        assert (Hz : (Q_of_nat (size (A ∩ B)) == Q_of_nat (size (A ∪ B)))%Q).
        { rewrite <- (Qmult_div_r (Q_of_nat (size (A ∩ B)))
                        (Q_of_nat (size (A ∪ B)))) at 1 by lra.
          rewrite Hq. ring. }
        apply Q_of_nat_inj in Hz.
        assert (Heq : A ∩ B = A ∪ B).
        { apply set_subseteq_size_eq; [set_solver | lia]. }
        split; [set_solver | set_solver].
      * intros [<- HA].
        replace (A ∩ A) with A by set_solver.
        replace (A ∪ A) with A in * by set_solver.
        field. lra.
Qed.

(** ** The dictionary [_deepfri] builds *)

Lemma dict_setitem_to_map (d : list (string * Q)) k v :
  (list_to_map (dict_setitem d k v) : gmap string Q)
  = <[k := v]> (list_to_map d).
Proof.
  induction d as [|[k' v'] d IH]; simpl; [done |].
  destruct (decide (k' = k)) as [-> | Hne]; simpl.
  - by rewrite insert_insert_eq.
  - rewrite IH. by apply insert_insert_ne.
Qed.

Lemma dict_setitem_keys (d : list (string * Q)) k v :
  dict_keys (dict_setitem d k v)
  = if decide (k ∈ dict_keys d) then dict_keys d else dict_keys d ++ [k].
Proof.
  unfold dict_keys.
  induction d as [|[k' v'] d IH]; [done |]. cbn [dict_setitem].
  destruct (decide (k' = k)) as [-> | Hne]; rewrite !fmap_cons; cbn [fst].
  - rewrite decide_True by left. done.
  - rewrite IH. destruct (decide (k ∈ d.*1)) as [Hin | Hnin].
    + rewrite decide_True by by right. done.
    + rewrite decide_False; [done |].
      intros [-> | ?]%elem_of_cons; done.
Qed.

Lemma dict_setitem_NoDup (d : list (string * Q)) k v :
  NoDup (dict_keys d) → NoDup (dict_keys (dict_setitem d k v)).
Proof.
  intros Hnd. rewrite dict_setitem_keys.
  destruct (decide (k ∈ dict_keys d)); [done |].
  apply NoDup_app. split; [done |]. split; [| apply NoDup_singleton].
  intros x Hx Hx'. apply list_elem_of_singleton in Hx'. by subst.
Qed.

Lemma dict_setitem_length (d : list (string * Q)) k v :
  length d ≤ length (dict_setitem d k v).
Proof.
  induction d as [|[k' v'] d IH]; simpl; [lia |].
  destruct (decide (k' = k)); simpl; lia.
Qed.

Lemma dict_keys_to_map (d : list (string * Q)) k :
  k ∈ dict_keys d ↔ is_Some ((list_to_map d : gmap string Q) !! k).
Proof.
  rewrite <- not_eq_None_Some, <- not_elem_of_list_to_map.
  unfold dict_keys. destruct (decide (k ∈ d.*1)); tauto.
Qed.

Lemma score_predictions_complete ps (d : list (string * Q)) :
  Forall prediction_complete ps →
  ∃ d', score_predictions ps d = Ok d'
        ∧ (NoDup (dict_keys d) → NoDup (dict_keys d'))
        ∧ (list_to_map d' : gmap string Q)
          = fold_left insert_prediction ps (list_to_map d).
Proof.
  intros Hall. revert d.
  induction Hall as [|p ps [[t Ht] [s Hs]] _ IH]; intros d; simpl.
  - by exists d.
  - rewrite Hs, Ht. simpl.
    destruct (IH (dict_setitem d t s)) as (d' & Heq & Hnd & Hmap).
    exists d'. split; [done |].
    split; [intros ?; by apply Hnd, dict_setitem_NoDup |].
    rewrite Hmap, dict_setitem_to_map. f_equal.
    unfold insert_prediction. by rewrite Ht, Hs.
Qed.

Lemma score_predictions_incomplete ps (d : list (string * Q)) :
  ¬ Forall prediction_complete ps →
  score_predictions ps d = Raise KeyError.
Proof.
  revert d. induction ps as [|p ps IH]; intros d Hnot; simpl.
  - by destruct Hnot.
  - destruct (go_term_score p) as [s|] eqn:Hs; [| done]. simpl.
    destruct (go_term p) as [t|] eqn:Ht; [| done]. simpl.
    apply IH. intros Hall. apply Hnot. constructor; [| done].
    split; [by rewrite Ht | by rewrite Hs].
Qed.

Lemma score_predictions_app ps1 ps2 (d : list (string * Q)) :
  score_predictions (ps1 ++ ps2) d
  = score_predictions ps1 d ≫= score_predictions ps2.
Proof.
  revert d. induction ps1 as [|p ps1 IH]; intros d; simpl; [done |].
  destruct (go_term_score p); [| done]. simpl.
  destruct (go_term p); [| done]. simpl. apply IH.
Qed.

Lemma score_models_flat final_data models (d : list (string * Q)) :
  score_models final_data models d
  = score_predictions (models ≫= model_predictions final_data) d.
Proof.
  revert d. induction models as [|model models IH]; intros d; [done |].
  cbn [score_models]. rewrite bind_cons, score_predictions_app.
  destruct (score_predictions (model_predictions final_data model) d);
    simpl; [apply IH | done].
Qed.

Lemma _deepfri_unfold final_data :
  _deepfri final_data = score_predictions (deepfri_predictions final_data) [].
Proof.
  unfold _deepfri, deepfri_predictions, deepfri_models.
  rewrite score_models_flat. simpl. by rewrite app_nil_r.
Qed.

Lemma fold_insert_prediction_other ps (m : gmap string Q) t :
  (∀ p, p ∈ ps → go_term p ≠ Some t) →
  fold_left insert_prediction ps m !! t = m !! t.
Proof.
  revert m. induction ps as [|p ps IH]; intros m Hother; simpl; [done |].
  rewrite IH by (intros p' Hp'; apply Hother; by right).
  unfold insert_prediction.
  destruct (go_term p) as [t'|] eqn:Ht; [| done].
  destruct (go_term_score p); [| done].
  apply lookup_insert_ne. intros ->. by apply (Hother p); [left |].
Qed.

Lemma fold_insert_prediction_last l1 p l2 (m : gmap string Q) t s :
  go_term p = Some t → go_term_score p = Some s →
  (∀ p', p' ∈ l2 → go_term p' ≠ Some t) →
  fold_left insert_prediction (l1 ++ p :: l2) m !! t = Some s.
Proof.
  intros Ht Hs Hlater. rewrite fold_left_app. simpl.
  rewrite fold_insert_prediction_other by done.
  unfold insert_prediction. rewrite Ht, Hs. apply lookup_insert_eq.
Qed.

Lemma fold_insert_prediction_dom ps (m : gmap string Q) t :
  Forall prediction_complete ps →
  is_Some (fold_left insert_prediction ps m !! t)
  ↔ is_Some (m !! t) ∨ ∃ p, p ∈ ps ∧ go_term p = Some t.
Proof.
  intros Hall. revert m.
  induction Hall as [|p ps [[t' Ht] [s Hs]] _ IH]; intros m; simpl.
  - split; [by left | intros [? | (p & Hp & _)]; [done |]].
    by apply elem_of_nil in Hp.
  - rewrite IH. unfold insert_prediction. rewrite Ht, Hs.
    rewrite lookup_insert. destruct (decide (t' = t)) as [-> | Hne].
    + split; [intros _ | intros _; left; by eexists].
      right. exists p. split; [left | done].
    + split.
      * intros [? | (p' & Hp' & Ht')]; [by left |].
        right. exists p'. split; [by right | done].
      * intros [? | (p' & [-> | Hp']%elem_of_cons & Ht')]; [by left | |].
        -- congruence.
        -- right. by exists p'.
Qed.

(** ** Strings *)

Lemma string_append_cons c s t :
  String.append (String c s) t = String c (String.append s t).
Proof. reflexivity. Qed.

Lemma string_append_nil_l s : String.append EmptyString s = s.
Proof. reflexivity. Qed.

Lemma string_append_nil_r s : String.append s EmptyString = s.
Proof.
  induction s as [|c s IH]; [done |].
  by rewrite string_append_cons, IH.
Qed.

Lemma string_append_assoc s t u :
  String.append (String.append s t) u = String.append s (String.append t u).
Proof.
  induction s as [|c s IH]; [done |].
  by rewrite !string_append_cons, IH.
Qed.

Lemma string_length_append s t :
  String.length (String.append s t) = String.length s + String.length t.
Proof.
  induction s as [|c s IH]; [done |].
  rewrite string_append_cons. simpl. by rewrite IH.
Qed.

Lemma strip_prefix_Some p s rest :
  strip_prefix p s = Some rest ↔ s = String.append p rest.
Proof.
  revert s. induction p as [|c p IH]; intros s; simpl.
  - rewrite string_append_nil_l. split; congruence.
  - rewrite string_append_cons. destruct s as [|c' s].
    + split; [done | discriminate].
    + destruct (decide (c = c')) as [<- | Hne].
      * rewrite IH. split; congruence.
      * split; [done | congruence].
Qed.

Lemma take_drop_string n s :
  String.append (take_string n s) (drop_string n s) = s.
Proof.
  revert s. induction n as [|n IH]; intros [|c s]; simpl; try done.
  by rewrite string_append_cons, IH.
Qed.


Lemma strip_prefix_append p s rest t :
  strip_prefix p s = Some rest →
  strip_prefix p (String.append s t) = Some (String.append rest t).
Proof.
  intros ->%strip_prefix_Some. apply strip_prefix_Some.
  by rewrite string_append_assoc.
Qed.

(** ** The pattern [GO:\d{7}] *)



Section PatternTheorems.

Variable decimal : N → bool.



Lemma go_id_width_Some s w :
  go_id_width decimal s = Some w →
  ∃ rest w', strip_prefix "GO:" s = Some rest
             ∧ digits_width decimal 7 rest = Some w' ∧ w = 3 + w'.
Proof.
  unfold go_id_width.
  intros (rest & Hp & (w' & Hd & [= <-])%bind_Some)%bind_Some.
  by exists rest, w'.
Qed.

Lemma go_id_match_width s :
  go_id_match decimal s = true ↔ is_Some (go_id_width decimal s).
Proof.
  unfold go_id_match. destruct (go_id_width decimal s); split; done.
Qed.

(** What [re.match] accepts: [GO:] and then seven decimal digits. *)
Lemma go_id_match_spec go_id :
  go_id_match decimal go_id = true ↔
  ∃ rest, go_id = String.append "GO:" rest
          ∧ is_Some (digits_width decimal 7 rest).
Proof.
  rewrite go_id_match_width. split.
  - intros [w (rest & w' & Hp & Hd & _)%go_id_width_Some].
    exists rest. split; [by apply strip_prefix_Some | by eexists].
  - intros (rest & -> & [w' Hd]). exists (3 + w'). unfold go_id_width.
    apply bind_Some. exists rest. split; [by apply strip_prefix_Some |].
    apply bind_Some. by exists w'.
Qed.

Lemma go_id_match_prefix s :
  go_id_match decimal s = true → is_Some (strip_prefix "GO:" s).
Proof.
  intros (rest & -> & _)%go_id_match_spec. eexists.
  by apply strip_prefix_Some.
Qed.


(** The matched text starts with [GO:]. *)
Lemma go_id_width_take s w :
  go_id_width decimal s = Some w →
  is_Some (strip_prefix "GO:" (take_string w s)).
Proof.
  intros (rest & w' & ->%strip_prefix_Some & _ & ->)%go_id_width_Some.
  exists (take_string w' rest). apply strip_prefix_Some. done.
Qed.

(** ** The set [_interpro] builds *)

Lemma add_goXRefs_spec gs (go_set : gset string) go :
  go ∈ add_goXRefs decimal gs go_set
  ↔ go ∈ go_set
    ∨ ∃ g, g ∈ gs ∧ xref_id g = Some go ∧ go_id_match decimal go = true.
Proof.
  unfold add_goXRefs. revert go_set.
  induction gs as [|g gs IH]; intros go_set; simpl.
  - split; [by left | intros [? | (g & Hg & _)]; [done |]].
    by apply elem_of_nil in Hg.
  - rewrite IH. clear IH.
    assert (Hstep :
      go ∈ (if go_id_match decimal (match xref_id g with
                            | Some s => s | None => EmptyString end)
            then {[match xref_id g with
                   | Some s => s | None => EmptyString end]} ∪ go_set
            else go_set)
      ↔ go ∈ go_set ∨ (xref_id g = Some go ∧ go_id_match decimal go = true)).
    { destruct (xref_id g) as [s|].
      - destruct (go_id_match decimal s) eqn:Hms.
        + rewrite elem_of_union, elem_of_singleton. split.
          * intros [-> | Hin]; [by right | by left].
          * intros [Hin | [[= ->] _]]; [by right | by left].
        + split; [by left |]. intros [Hin | [[= ->] Hm]]; [done | congruence].
      - change (go_id_match decimal EmptyString) with false.
        split; [by left |]. by intros [Hin | [[=] _]]. }
    rewrite Hstep. split.
    + intros [[Hin | [Hid Hm]] | (g' & Hg' & Hid & Hm)].
      * by left.
      * right. exists g. split; [left | done].
      * right. exists g'. split; [by right | done].
    + intros [Hin | (g' & Hg' & Hid & Hm)].
      * left. by left.
      * apply elem_of_cons in Hg' as [-> | Hg'].
        -- left. by right.
        -- right. by exists g'.
Qed.

Lemma add_matches_spec res (go_set : gset string) go :
  go ∈ add_matches decimal res go_set
  ↔ go ∈ go_set
    ∨ ∃ m g, m ∈ (match matches res with Some ms => ms | None => [] end)
             ∧ g ∈ match_goXRefs m
             ∧ xref_id g = Some go ∧ go_id_match decimal go = true.
Proof.
  unfold add_matches.
  generalize (match matches res with Some ms => ms | None => [] end).
  intros ms. revert go_set.
  induction ms as [|m ms IH]; intros go_set; simpl.
  - split; [by left | intros [? | (m & g & Hm & _)]; [done |]].
    by apply elem_of_nil in Hm.
  - rewrite IH, add_goXRefs_spec. split.
    + intros [[Hin | (g & Hg & Hid & Hmatch)] | (m' & g & Hm' & Hg & Hid)].
      * by left.
      * right. exists m, g. split; [left | done].
      * right. exists m', g. split; [by right | done].
    + intros [Hin | (m' & g & Hm' & Hg & Hid)].
      * left. by left.
      * apply elem_of_cons in Hm' as [-> | Hm'].
        -- left. right. by exists g.
        -- right. by exists m', g.
Qed.

Lemma fold_add_matches_spec items (go_set : gset string) go :
  go ∈ fold_left (λ go_set res, add_matches decimal res go_set) items go_set
  ↔ go ∈ go_set
    ∨ ∃ res m g, res ∈ items
                 ∧ m ∈ (match matches res with Some ms => ms | None => [] end)
                 ∧ g ∈ match_goXRefs m
                 ∧ xref_id g = Some go ∧ go_id_match decimal go = true.
Proof.
  revert go_set. induction items as [|res items IH]; intros go_set; simpl.
  - split; [by left | intros [? | (res & m & g & Hr & _)]; [done |]].
    by apply elem_of_nil in Hr.
  - rewrite IH, add_matches_spec. split.
    + intros [[Hin | (m & g & Hm)] | (res' & m & g & Hr & Hm)].
      * by left.
      * right. exists res, m, g. split; [left | done].
      * right. exists res', m, g. split; [by right | done].
    + intros [Hin | (res' & m & g & Hr & Hm)].
      * left. by left.
      * apply elem_of_cons in Hr as [-> | Hr].
        -- left. right. by exists m, g.
        -- right. by exists res', m, g.
Qed.

Lemma elem_of_visited_goXRefs result g :
  g ∈ visited_goXRefs result
  ↔ ∃ res m, res ∈ result_items result
             ∧ m ∈ (match matches res with Some ms => ms | None => [] end)
             ∧ g ∈ match_goXRefs m.
Proof.
  unfold visited_goXRefs. rewrite list_elem_of_bind. split.
  - intros (res & (m & Hg & Hm)%list_elem_of_bind & Hres). by exists res, m.
  - intros (res & m & Hres & Hm & Hg). exists res. split; [| done].
    apply list_elem_of_bind. by exists m.
Qed.

Lemma visited_goXRefs_app items1 items2 :
  visited_goXRefs (mkIprResult (Some (ResultsList (items1 ++ items2))))
  = visited_goXRefs (mkIprResult (Some (ResultsList items1)))
    ++ visited_goXRefs (mkIprResult (Some (ResultsList items2))).
Proof.
  unfold visited_goXRefs, result_items. cbn [results]. apply bind_app.
Qed.

Lemma elem_of__interpro result go :
  go ∈ _interpro decimal result
  ↔ ∃ g, g ∈ visited_goXRefs result
         ∧ xref_id g = Some go ∧ go_id_match decimal go = true.
Proof.
  unfold _interpro. rewrite fold_add_matches_spec. split.
  - intros [Hin | (res & m & g & Hres & Hm & Hg & Hid)]; [set_solver |].
    exists g. split; [| done]. apply elem_of_visited_goXRefs. by exists res, m.
  - intros (g & (res & m & Hres & Hm & Hg)%elem_of_visited_goXRefs & Hid).
    right. by exists res, m, g.
Qed.

End PatternTheorems.

(** With the digits of Unicode the pattern accepts identifiers written in
    other digits than 0 to 9, as [re.match] does, and no superscript. *)
Lemma go_id_match_unicode_digits :
  go_id_match unicode_decimal "GO:0004930" = true
  ∧ go_id_match unicode_decimal "GO:١٢٣٤٥٦٧" = true
  ∧ go_id_match unicode_decimal "GO:12345²7" = false
  ∧ go_id_match unicode_decimal "GO:123456" = false.
Proof. repeat split; vm_compute; reflexivity. Qed.

(** ** Sequences *)

Lemma fold_append_join parts seq :
  fold_left String.append parts seq = String.append seq (join parts).
Proof.
  revert seq. induction parts as [|part parts IH]; intros seq; simpl.
  - by rewrite string_append_nil_r.
  - by rewrite IH, string_append_assoc.
Qed.

Lemma join_app parts1 parts2 :
  join (parts1 ++ parts2) = String.append (join parts1) (join parts2).
Proof.
  induction parts1 as [|part parts1 IH]; simpl; [done |].
  by rewrite IH, string_append_assoc.
Qed.

Lemma fold_chains_join (skip : Chain → bool) model seq :
  fold_left (λ sequence chain,
               if skip chain then sequence else append_peptides chain sequence)
    model seq
  = String.append seq
      (join (filter (λ chain, skip chain = false) model ≫= peptides)).
Proof.
  revert seq. induction model as [|chain model IH]; intros seq; simpl.
  - by rewrite string_append_nil_r.
  - rewrite IH. destruct (skip chain) eqn:Hk.
    + rewrite filter_cons_False by (by rewrite Hk). done.
    + rewrite filter_cons_True by done. rewrite bind_cons.
      unfold append_peptides.
      by rewrite fold_append_join, string_append_assoc, join_app.
Qed.

Lemma filter_all (model : list Chain) :
  filter (λ _ : Chain, false = false) model = model.
Proof.
  induction model as [|chain model IH]; [done |].
  rewrite filter_cons_True by done. by rewrite IH.
Qed.

Lemma _extract_seq_join model rest :
  _extract_seq (model :: rest) = join (model ≫= peptides).
Proof.
  unfold _extract_seq.
  rewrite (fold_chains_join (λ _, false) model EmptyString).
  by rewrite filter_all, string_append_nil_l.
Qed.

Lemma extract_sequence_from_pdb_join model rest wanted :
  extract_sequence_from_pdb (model :: rest) wanted
  = join (selected_chains wanted model ≫= peptides).
Proof.
  unfold extract_sequence_from_pdb, selected_chains.
  by rewrite fold_chains_join, string_append_nil_l.
Qed.

(** ** The rows of [extract_go_predictions] *)

Lemma rows_of_app score_threshold (l1 l2 : list (Prediction * string)) :
  rows_of score_threshold (l1 ++ l2)
  = rows_of score_threshold l1 ++ rows_of score_threshold l2.
Proof. unfold rows_of. by rewrite filter_app, omap_app. Qed.

Lemma rows_of_cons_skip score_threshold x (l : list (Prediction * string)) :
  ¬ qualifies score_threshold x.1 →
  rows_of score_threshold (x :: l) = rows_of score_threshold l.
Proof. intros Hq. unfold rows_of. by rewrite filter_cons_False. Qed.

Lemma rows_of_cons_keep score_threshold p ns t n
    (l : list (Prediction * string)) :
  qualifies score_threshold p →
  go_term p = Some t → go_term_name p = Some n →
  rows_of score_threshold ((p, ns) :: l)
  = mkGoRow t n (score_or_zero p) ns :: rows_of score_threshold l.
Proof.
  intros Hq Ht Hn. unfold rows_of. rewrite filter_cons_True by done.
  simpl. unfold to_row at 1. simpl. by rewrite Ht, Hn.
Qed.

Lemma collect_records_ok ns ps score_threshold (records : list GoRow) :
  ¬ record_key_missing score_threshold ((λ p, (p, ns)) <$> ps) →
  collect_records ns ps score_threshold records
  = Ok (records ++ rows_of score_threshold ((λ p, (p, ns)) <$> ps)).
Proof.
  unfold record_key_missing.
  revert records. induction ps as [|p ps IH]; intros records Hok.
  - simpl. by rewrite app_nil_r.
  - rewrite fmap_cons in Hok |- *.
    assert (Hok' : ¬ Exists
                     (λ x, qualifies score_threshold x.1 ∧ ¬ prediction_named x.1)
                     ((λ p, (p, ns)) <$> ps)).
    { intros He. apply Hok. by apply Exists_cons_tl. }
    cbn [collect_records].
    destruct (decide (score_threshold <= score_or_zero p)%Q) as [Hq | Hq].
    + destruct (go_term p) as [t|] eqn:Ht.
      2:{ exfalso. apply Hok. apply Exists_cons_hd. split; [done |].
          intros [[? ?] _]. simpl in *. congruence. }
      destruct (go_term_name p) as [n|] eqn:Hn.
      2:{ exfalso. apply Hok. apply Exists_cons_hd. split; [done |].
          intros [_ [? ?]]. simpl in *. congruence. }
      simpl. rewrite IH by done.
      rewrite (rows_of_cons_keep score_threshold p ns t n) by done.
      by rewrite <- app_assoc.
    + rewrite IH by done. by rewrite rows_of_cons_skip.
Qed.

Lemma collect_records_raise ns ps score_threshold (records : list GoRow) :
  record_key_missing score_threshold ((λ p, (p, ns)) <$> ps) →
  collect_records ns ps score_threshold records = Raise KeyError.
Proof.
  unfold record_key_missing.
  revert records. induction ps as [|p ps IH]; intros records Hbad.
  - by apply Exists_nil in Hbad.
  - rewrite fmap_cons in Hbad. cbn [collect_records].
    destruct (decide (score_threshold <= score_or_zero p)%Q) as [Hq | Hq].
    + destruct (go_term p) as [t|] eqn:Ht; [| done].
      destruct (go_term_name p) as [n|] eqn:Hn; [| done]. simpl.
      apply IH. apply Exists_cons in Hbad as [[_ Hbad] | ?]; [| done].
      exfalso. apply Hbad. split; simpl; by eexists.
    + apply IH. apply Exists_cons in Hbad as [[Hq' _] | ?]; done.
Qed.

Lemma collect_models_ok json_data models score_threshold
    (records : list GoRow) :
  ¬ record_key_missing score_threshold
      (models ≫= λ '(model, ns),
                   (λ p, (p, ns)) <$> model_predictions json_data model) →
  collect_models json_data models score_threshold records
  = Ok (records
        ++ rows_of score_threshold
             (models ≫= λ '(model, ns),
                          (λ p, (p, ns)) <$> model_predictions json_data model)).
Proof.
  unfold record_key_missing.
  revert records.
  induction models as [|[model ns] models IH]; intros records Hok.
  - simpl. by rewrite app_nil_r.
  - rewrite bind_cons in Hok |- *. cbn [collect_models].
    rewrite collect_records_ok
      by (intros He; apply Hok, Exists_app; by left).
    simpl. rewrite IH by (intros He; apply Hok, Exists_app; by right).
    by rewrite rows_of_app, app_assoc.
Qed.

Lemma collect_models_raise json_data models score_threshold
    (records : list GoRow) :
  record_key_missing score_threshold
    (models ≫= λ '(model, ns),
                 (λ p, (p, ns)) <$> model_predictions json_data model) →
  collect_models json_data models score_threshold records = Raise KeyError.
Proof.
  unfold record_key_missing.
  revert records.
  induction models as [|[model ns] models IH]; intros records Hbad.
  - by apply Exists_nil in Hbad.
  - rewrite bind_cons in Hbad. cbn [collect_models].
    destruct (decide (record_key_missing score_threshold
                ((λ p, (p, ns)) <$> model_predictions json_data model)))
      as [He | He].
    + by rewrite collect_records_raise.
    + rewrite collect_records_ok by done. simpl. apply IH.
      apply Exists_app in Hbad as [? | ?]; done.
Qed.

Lemma drop_duplicates_keys rows (seen : gset string) t :
  t ∈ row_go_term <$> drop_duplicates rows seen
  ↔ t ∈ row_go_term <$> rows ∧ t ∉ seen.
Proof.
  revert seen. induction rows as [|row rows IH]; intros seen; simpl.
  - split; [by intros ?%elem_of_nil | by intros [?%elem_of_nil _]].
  - destruct (decide (row_go_term row ∈ seen)) as [Hin | Hnin].
    + rewrite IH, elem_of_cons. split; [tauto |].
      intros [[-> | ?] ?]; done.
    + rewrite fmap_cons, !elem_of_cons, IH.
      rewrite elem_of_union, elem_of_singleton.
      destruct (decide (t = row_go_term row)) as [-> | Hne]; tauto.
Qed.

Lemma drop_duplicates_NoDup rows (seen : gset string) :
  NoDup (row_go_term <$> drop_duplicates rows seen).
Proof.
  revert seen. induction rows as [|row rows IH]; intros seen; simpl.
  - constructor.
  - destruct (decide (row_go_term row ∈ seen)); [apply IH |].
    rewrite fmap_cons. constructor; [| apply IH].
    rewrite drop_duplicates_keys. set_solver.
Qed.

Lemma drop_duplicates_subseteq rows (seen : gset string) row :
  row ∈ drop_duplicates rows seen → row ∈ rows.
Proof.
  revert seen. induction rows as [|row' rows IH]; intros seen; simpl; [done |].
  destruct (decide (row_go_term row' ∈ seen)).
  - intros ?%IH. by right.
  - intros [-> | ?%IH]%elem_of_cons; [left | by right].
Qed.

Lemma drop_duplicates_first rows1 row rows2 (seen : gset string) :
  row_go_term row ∉ seen →
  row_go_term row ∉ row_go_term <$> rows1 →
  row ∈ drop_duplicates (rows1 ++ row :: rows2) seen.
Proof.
  revert seen. induction rows1 as [|row' rows1 IH]; intros seen Hseen Hnew; simpl.
  - rewrite decide_False by done. left.
  - rewrite fmap_cons, not_elem_of_cons in Hnew. destruct Hnew as [Hne Hnew].
    destruct (decide (row_go_term row' ∈ seen)).
    + by apply IH.
    + right. apply IH; [| done]. set_solver.
Qed.

Lemma elem_of_rows_of score_threshold (tagged : list (Prediction * string)) row :
  row ∈ rows_of score_threshold tagged
  ↔ ∃ p, (p, row_namespace row) ∈ tagged
         ∧ qualifies score_threshold p
         ∧ go_term p = Some (row_go_term row)
         ∧ go_term_name p = Some (row_name row)
         ∧ score_or_zero p = row_score row.
Proof.
  unfold rows_of. rewrite list_elem_of_omap. split.
  - intros ([p ns] & [Hq Hin]%list_elem_of_filter & Hrow).
    unfold to_row in Hrow. simpl in *.
    destruct (go_term p) as [t|] eqn:Ht; [| done].
    destruct (go_term_name p) as [n|] eqn:Hn; [| done].
    injection Hrow as <-. simpl. by exists p.
  - intros (p & Hin & Hq & Ht & Hn & Hs).
    exists (p, row_namespace row). split.
    + apply list_elem_of_filter. done.
    + unfold to_row. simpl. rewrite Ht, Hn, Hs. by destruct row.
Qed.

Lemma extract_go_predictions_ok json_data score_threshold :
  ¬ record_key_missing score_threshold (tagged_predictions json_data) →
  extract_go_predictions json_data score_threshold
  = Ok (drop_duplicates
          (rows_of score_threshold (tagged_predictions json_data)) ∅).
Proof.
  intros Hok. unfold extract_go_predictions.
  by rewrite collect_models_ok.
Qed.

Lemma extract_go_predictions_raise json_data score_threshold :
  record_key_missing score_threshold (tagged_predictions json_data) →
  extract_go_predictions json_data score_threshold = Raise KeyError.
Proof.
  intros Hbad. unfold extract_go_predictions.
  by rewrite collect_models_raise.
Qed.

Lemma elem_of_tagged_predictions json_data p ns :
  (p, ns) ∈ tagged_predictions json_data
  ↔ ∃ model, (model, ns) ∈ ns_map ∧ p ∈ model_predictions json_data model.
Proof.
  unfold tagged_predictions. rewrite list_elem_of_bind. split.
  - intros ([model ns'] & Hin & Hmap).
    apply list_elem_of_fmap in Hin as (p' & [= -> ->] & Hin). by exists model.
  - intros (model & Hmap & Hin). exists (model, ns). split; [| done].
    apply list_elem_of_fmap. by exists p.
Qed.

Lemma elem_of_deepfri_predictions final_data p :
  p ∈ deepfri_predictions final_data
  ↔ ∃ model, model ∈ deepfri_models ∧ p ∈ model_predictions final_data model.
Proof.
  unfold deepfri_predictions, deepfri_models.
  rewrite !elem_of_app. split.
  - intros [? | [? | ?]]; eexists; (split; [| done]); set_solver.
  - intros (model & Hm & Hp).
    repeat (apply elem_of_cons in Hm as [-> | Hm]; [tauto |]).
    by apply elem_of_nil in Hm.
Qed.

Lemma row_term_in_rows_of score_threshold (tagged : list (Prediction * string)) t :
  t ∈ row_go_term <$> rows_of score_threshold tagged
  → ∃ p ns, (p, ns) ∈ tagged ∧ qualifies score_threshold p ∧ go_term p = Some t.
Proof.
  intros (row & -> & Hrow)%list_elem_of_fmap.
  apply elem_of_rows_of in Hrow as (p & Hin & Hq & Ht & _).
  by exists p, (row_namespace row).
Qed.

Lemma rows_of_none score_threshold (tagged : list (Prediction * string)) :
  (∀ p ns, (p, ns) ∈ tagged → ¬ qualifies score_threshold p) →
  rows_of score_threshold tagged = [].
Proof.
  induction tagged as [|[p ns] l IH]; intros Hnone; [done |].
  rewrite rows_of_cons_skip by (apply (Hnone p ns); left).
  apply IH. intros p' ns' Hin. apply (Hnone p' ns'). by right.
Qed.

Lemma deepfri_models_in_ns_map model :
  model ∈ deepfri_models ↔ ∃ ns, (model, ns) ∈ ns_map ∧ ns ≠ "EC".
Proof.
  unfold deepfri_models, ns_map. split.
  - rewrite !elem_of_cons, elem_of_nil. intros [-> | [-> | [-> | []]]].
    + exists "CC". split; [left | discriminate].
    + exists "MF". split; [right; left | discriminate].
    + exists "BP". split; [right; right; left | discriminate].
  - intros (ns & Hin & Hns).
    rewrite !elem_of_cons, elem_of_nil in Hin.
    destruct Hin as [[= -> ->] | [[= -> ->] | [[= -> ->] | [[= -> ->] | []]]]].
    + left.
    + right; left.
    + right; right; left.
    + done.
Qed.

(** ** [extract_main_data] *)

Lemma attempt_bind_Returns {A B} (m : attempt A) (k : A → attempt B) b :
  m ≫= k = Returns b ↔ ∃ a, m = Returns a ∧ k a = Returns b.
Proof.
  destruct m as [a|e]; simpl; split.
  - intros H. by exists a.
  - by intros (a' & [= <-] & H).
  - discriminate.
  - by intros (a' & [=] & _).
Qed.

Lemma json_get_Returns x k default v :
  json_get x k default = Returns v →
  ∃ fields, x = JDict fields
            ∧ v = match assoc k fields with Some w => w | None => default end.
Proof.
  destruct x; try discriminate. intros [= <-]. by eexists.
Qed.

Section RecordsTheorems.

Variable decimal : N → bool.

(** Every match of the pattern starts with [GO:]. *)
Lemma findall_go_spec s skip found :
  found ∈ findall_go decimal s skip → is_Some (strip_prefix "GO:" found).
Proof.
  revert skip. induction s as [|c s IH]; intros skip; cbn [findall_go].
  - by intros ?%elem_of_nil.
  - destruct skip as [|skip]; [| by apply IH].
    destruct (go_id_width decimal (String c s)) as [w|] eqn:Hm; [| by apply IH].
    intros [-> | Hin]%elem_of_cons; [| by eapply IH].
    by eapply go_id_width_take.
Qed.

Lemma findall_go_contains s skip :
  findall_go decimal s skip ≠ [] → contains_GO s = true.
Proof.
  revert skip. induction s as [|c s IH]; intros skip;
    cbn [findall_go contains_GO]; [done |].
  destruct skip as [|skip].
  - destruct (go_id_width decimal (String c s)) as [w|] eqn:Hm.
    + intros _.
      assert (Hp : is_Some (strip_prefix "GO:" (String c s))).
      { apply (go_id_match_prefix decimal), go_id_match_width. by eexists. }
      by rewrite (bool_decide_eq_true_2 _ Hp).
    + intros H%IH. rewrite H. apply orb_true_r.
  - intros H%IH. rewrite H. apply orb_true_r.
Qed.

Lemma go_terms_inv_init : go_terms_inv ([], ∅).
Proof.
  split; [constructor |]. split; [| constructor].
  intros gid. simpl. set_solver.
Qed.

Lemma add_go_term_inv gid gname gcat st :
  is_Some (strip_prefix "GO:" gid) →
  go_terms_inv st → go_terms_inv (add_go_term gid gname gcat st).
Proof.
  intros Hgid (Hnd & Hseen & Hpre). unfold add_go_term.
  destruct (decide (gid ∈ st.2)) as [Hin|Hin]; [done |].
  split; [| split]; simpl.
  - rewrite fmap_app. apply NoDup_app. split; [done |]. split.
    + intros x Hx [->|[]%elem_of_nil]%elem_of_cons. by apply Hin, Hseen.
    + apply NoDup_singleton.
  - intros x. rewrite fmap_app, elem_of_app, elem_of_union, elem_of_singleton.
    rewrite Hseen. simpl. rewrite elem_of_cons, elem_of_nil. tauto.
  - apply Forall_app. split; [done |]. by constructor.
Qed.

Lemma add_xref_inv g st : go_terms_inv st → go_terms_inv (add_xref decimal g st).
Proof.
  intros Hinv. unfold add_xref. destruct g; try done.
  match goal with
  | |- go_terms_inv (match ?gid with _ => _ end) => destruct gid eqn:Hgid
  end; try done.
  destruct (is_GO_string (JStr s)) eqn:Hgo; [| done].
  apply add_go_term_inv; [| done].
  simpl in Hgo. by apply bool_decide_eq_true in Hgo.
Qed.

Lemma fold_add_xref_inv gl st :
  go_terms_inv st → go_terms_inv (fold_left (λ st g, add_xref decimal g st) gl st).
Proof.
  revert st. induction gl as [|g gl IH]; intros st Hinv; simpl; [done |].
  by apply IH, add_xref_inv.
Qed.

Lemma add_candidates_inv candidate_lists st :
  go_terms_inv st → go_terms_inv (add_candidates decimal candidate_lists st).
Proof.
  unfold add_candidates. revert st.
  induction candidate_lists as [|gl gls IH]; intros st Hinv; simpl; [done |].
  by apply IH, fold_add_xref_inv.
Qed.

Lemma fold_add_found_inv founds st :
  (∀ f, f ∈ founds → is_Some (strip_prefix "GO:" f)) →
  go_terms_inv st →
  go_terms_inv (fold_left (λ st f, add_go_term f JNull JNull st) founds st).
Proof.
  revert st. induction founds as [|f founds IH]; intros st Hf Hinv; simpl;
    [done |].
  apply IH.
  - intros f' Hf'. apply Hf. by right.
  - apply add_go_term_inv; [| done]. apply Hf. by left.
Qed.

Lemma scan_value_inv v st :
  go_terms_inv st → go_terms_inv (scan_value decimal v st).
Proof.
  intros Hinv. unfold scan_value. destruct v; try done.
  destruct (contains_GO s); [| done].
  apply fold_add_found_inv; [| done].
  intros f Hf. by apply (findall_go_spec s 0).
Qed.

Lemma fold_scan_value_inv vals st :
  go_terms_inv st → go_terms_inv (fold_left (λ st v, scan_value decimal v st) vals st).
Proof.
  revert st. induction vals as [|v vals IH]; intros st Hinv; simpl; [done |].
  by apply IH, scan_value_inv.
Qed.

Lemma scan_containers_inv containers st st' :
  go_terms_inv st → scan_containers decimal containers st = Returns st' →
  go_terms_inv st'.
Proof.
  revert st. induction containers as [|c cs IH]; intros st Hinv; simpl.
  - by intros [= <-].
  - intros (vals & _ & Hrest)%attempt_bind_Returns.
    eapply IH; [| exact Hrest]. by apply fold_scan_value_inv.
Qed.

Lemma add_location_records_spec signature entry go_terms locs out out' :
  add_location_records signature entry go_terms locs out = Returns out' →
  ∃ recs,
    out' = out ++ recs
    ∧ Forall2 (λ loc r,
                 json_get loc "start" JNull = Returns (rec_start r)
                 ∧ json_get loc "end" JNull = Returns (rec_end r)
                 ∧ json_get loc "score" JNull = Returns (rec_score r)
                 ∧ json_get signature "accession" JNull
                   = Returns (rec_accession r)
                 ∧ json_get signature "name" JNull = Returns (rec_name r)
                 ∧ json_get entry "accession" JNull
                   = Returns (rec_entry_accession r)
                 ∧ json_get entry "description" JNull
                   = Returns (rec_entry_description r)
                 ∧ rec_go_terms r = go_terms)
        (filter (λ loc, is_representative loc = true) locs) recs.
Proof.
  revert out. induction locs as [|loc locs IH]; intros out;
    cbn [add_location_records].
  - intros [= <-]. exists []. rewrite app_nil_r. split; [done | constructor].
  - destruct loc as [| | | | |fields];
      try (intros H; apply IH in H as (recs & -> & Hrecs);
           exists recs; split; [done |];
           rewrite filter_cons_False; [done | simpl; discriminate]).
    destruct (is_representative (JDict fields)) eqn:Hrep;
      pose proof Hrep as Hrep'; unfold is_representative in Hrep';
      cbn [is_dict json_get mbind attempt_bind]; rewrite Hrep'.
    + intros (accession & Hacc & H)%attempt_bind_Returns.
      apply attempt_bind_Returns in H as (name & Hname & H).
      apply attempt_bind_Returns in H as (eacc & Heacc & H).
      apply attempt_bind_Returns in H as (edesc & Hedesc & H).
      apply IH in H as (recs & -> & Hrecs).
      eexists (_ :: recs). split; [by rewrite <- app_assoc |].
      rewrite filter_cons_True by exact Hrep.
      constructor; [| done]. simpl. done.
    + intros H. apply IH in H as (recs & -> & Hrecs).
      exists recs. split; [done |].
      rewrite filter_cons_False; [done |]. by rewrite Hrep.
Qed.

Lemma add_match_records_spec match_ out out' :
  add_match_records decimal match_ out = Returns out' →
  ∃ signature entry locations st locs recs,
    json_get match_ "signature" (JDict []) = Returns signature
    ∧ json_get (py_or signature (JDict [])) "entry" (JDict []) = Returns entry
    ∧ json_get match_ "locations" (JList []) = Returns locations
    ∧ py_iter (py_or locations (JList [])) = Returns locs
    ∧ go_terms_inv st
    ∧ out' = out ++ recs
    ∧ Forall2 (λ loc r,
                 json_get loc "start" JNull = Returns (rec_start r)
                 ∧ json_get loc "end" JNull = Returns (rec_end r)
                 ∧ json_get loc "score" JNull = Returns (rec_score r)
                 ∧ json_get (py_or signature (JDict [])) "accession" JNull
                   = Returns (rec_accession r)
                 ∧ json_get (py_or signature (JDict [])) "name" JNull
                   = Returns (rec_name r)
                 ∧ json_get (py_or entry (JDict [])) "accession" JNull
                   = Returns (rec_entry_accession r)
                 ∧ json_get (py_or entry (JDict [])) "description" JNull
                   = Returns (rec_entry_description r)
                 ∧ rec_go_terms r = st.1)
        (filter (λ loc, is_representative loc = true) locs) recs.
Proof.
  unfold add_match_records.
  intros (signature & Hsig & H)%attempt_bind_Returns. cbv zeta in H.
  apply attempt_bind_Returns in H as (entry & Hentry & H). cbv zeta in H.
  apply attempt_bind_Returns in H as (locations & Hlocs & H). cbv zeta in H.
  apply attempt_bind_Returns in H as (ex & Hex & H).
  apply attempt_bind_Returns in H as (sx & Hsx & H).
  apply attempt_bind_Returns in H as (mx & Hmx & H). cbv zeta in H.
  apply attempt_bind_Returns in H as (st & Hst & H).
  apply attempt_bind_Returns in H as (locs & Hiter & H).
  apply add_location_records_spec in H as (recs & -> & Hrecs).
  exists signature, entry, locations, st, locs, recs.
  repeat (split; [done |]). split; [| done].
  match type of Hst with
  | match (add_candidates decimal ?cl ?st0).1 with _ => _ end = _ =>
      pose proof (add_candidates_inv cl st0 go_terms_inv_init) as Hinv;
      destruct (add_candidates decimal cl st0).1 eqn:Hterms
  end.
  - by eapply scan_containers_inv.
  - by injection Hst as <-.
Qed.

Lemma add_match_records_ok match_ out out' :
  Forall go_terms_ok out → add_match_records decimal match_ out = Returns out' →
  Forall go_terms_ok out'.
Proof.
  intros Hout (sg & en & ls & st & locs & recs & _ & _ & _ & _ & Hinv & -> & H)
    %add_match_records_spec.
  apply Forall_app. split; [done |].
  destruct Hinv as (Hnd & _ & Hpre).
  induction H as [|loc r locs' recs' Hr _ IH]; constructor; [| done].
  destruct Hr as (_ & _ & _ & _ & _ & _ & _ & Hr).
  unfold go_terms_ok. by rewrite Hr.
Qed.

Lemma add_matches_records_ok ms out out' :
  Forall go_terms_ok out → add_matches_records decimal ms out = Returns out' →
  Forall go_terms_ok out'.
Proof.
  revert out. induction ms as [|m ms IH]; intros out Hout; simpl.
  - by intros [= <-].
  - intros (out1 & H1 & H)%attempt_bind_Returns.
    eapply IH; [| exact H]. by eapply add_match_records_ok.
Qed.

Lemma add_items_records_ok items out out' :
  Forall go_terms_ok out → add_items_records decimal items out = Returns out' →
  Forall go_terms_ok out'.
Proof.
  revert out. induction items as [|item items IH]; intros out Hout; simpl.
  - by intros [= <-].
  - intros (out1 & H1 & H)%attempt_bind_Returns.
    eapply IH; [| exact H].
    unfold add_item_records in H1.
    apply attempt_bind_Returns in H1 as (mr & _ & H1).
    apply attempt_bind_Returns in H1 as (ms & _ & H1).
    by eapply add_matches_records_ok.
Qed.

End RecordsTheorems.

(** * Further verified properties *)

(** ** Search and distance *)

(** X1.  [_min_steps] returns the least number of parent edges from
    [start_go] to a member of [target_set], for any target set; it returns
    [None] exactly when no member is an ancestor of [start_go]; a start that
    is itself a target gives [0] without looking the start up. *)
Theorem min_steps_least_edge_count
    (godag : gmap string GOTerm) (start_go : string) (target_set : gset string) :
  match _min_steps godag start_go target_set with
  | Some d =>
      (∃ t, t ∈ target_set ∧ path godag d start_go t)
      ∧ (∀ t m, t ∈ target_set → path godag m start_go t → d ≤ m)
  | None => ∀ t, t ∈ target_set → ¬ ancestor godag start_go t
  end
  ∧ (start_go ∈ target_set → _min_steps godag start_go target_set = Some 0).
Proof.
  split.
  - pose proof (_min_steps_correct godag start_go target_set) as Hc.
    destruct (_min_steps godag start_go target_set) as [d|]; simpl in Hc.
    + destruct Hc as (Hex & Hmin & _). done.
    + intros t Ht [m Hp]. by apply (Hc t m).
  - intros Hin. unfold _min_steps, search_bound. simpl.
    by rewrite decide_True.
Qed.

(** X2.  The distance is [0] only for one and the same identifier, so the
    similarity of two terms is [1] exactly when they are the same term. *)
Theorem go_distance_zero_only_for_same_term
    (godag : gmap string GOTerm) (go1 go2 : string) :
  (_go_distance godag go1 go2 = Some 0 ↔ go1 = go2)
  ∧ (term_similarity godag go1 go2 = 1%Q ↔ go1 = go2)
  ∧ (go1 ≠ go2 → ∀ d, _go_distance godag go1 go2 = Some d → 1 ≤ d).
Proof.
  split; [apply _go_distance_zero_iff |].
  split; [apply term_similarity_one_iff |].
  intros Hne [|d] Hd; [| lia].
  by apply _go_distance_zero_iff in Hd.
Qed.

(** X3.  [_go_distance] returns a number exactly when the two identifiers
    are equal, or both resolve and have a common ancestor. *)
Theorem go_distance_defined_iff
    (godag : gmap string GOTerm) (go1 go2 : string) :
  is_Some (_go_distance godag go1 go2)
  ↔ go1 = go2
    ∨ (is_Some (godag !! go1) ∧ is_Some (godag !! go2)
       ∧ ∃ c, common_ancestor godag go1 go2 c).
Proof.
  split.
  - intros [d Hd].
    apply _go_distance_Some_inv in Hd
      as [[? _] | (_ & H1 & H2 & c & _ & _ & Hc & _)]; [by left |].
    right. split; [done |]. split; [done |]. by exists c.
  - intros [-> | (H1 & H2 & Hc)].
    + exists 0. by apply _go_distance_zero_iff.
    + destruct (decide (go1 = go2)) as [-> | Hne].
      * exists 0. by apply _go_distance_zero_iff.
      * destruct (_go_distance_min godag go1 go2 Hne H1 H2 Hc) as (d & Hd & _).
        by exists d.
Qed.

(** X4.  For distinct resolved terms, any two parent paths that meet in a
    common ancestor bound the distance by the sum of their lengths. *)
Theorem go_distance_at_most_path_sum
    (godag : gmap string GOTerm) (go1 go2 c : string) (n1 n2 : nat) :
  go1 ≠ go2 →
  is_Some (godag !! go1) →
  is_Some (godag !! go2) →
  path godag n1 go1 c →
  path godag n2 go2 c →
  ∃ d, _go_distance godag go1 go2 = Some d ∧ 1 ≤ d ≤ n1 + n2.
Proof. apply _go_distance_le_paths. Qed.

Lemma go_distance_at_most_path_sum_witness :
  "Z" ≠ "Y"
  ∧ is_Some (dag_RXYZ !! "Z")
  ∧ is_Some (dag_RXYZ !! "Y")
  ∧ path dag_RXYZ 2 "Z" "R"
  ∧ path dag_RXYZ 1 "Y" "R"
  ∧ ∃ d, _go_distance dag_RXYZ "Z" "Y" = Some d ∧ 1 ≤ d ≤ 2 + 1.
Proof.
  assert (Hne : "Z" ≠ "Y") by discriminate.
  assert (HZ : is_Some (dag_RXYZ !! "Z")) by (vm_compute; eauto).
  assert (HY : is_Some (dag_RXYZ !! "Y")) by (vm_compute; eauto).
  assert (HpZ : path dag_RXYZ 2 "Z" "R").
  { apply path_up with "X";
      [eexists; split; [vm_compute; reflexivity | left] |].
    apply path_up with "R";
      [eexists; split; [vm_compute; reflexivity | left] |].
    apply path_here. }
  assert (HpY : path dag_RXYZ 1 "Y" "R").
  { apply path_up with "R";
      [eexists; split; [vm_compute; reflexivity | left] |].
    apply path_here. }
  split; [exact Hne |]. split; [exact HZ |]. split; [exact HY |].
  split; [exact HpZ |]. split; [exact HpY |].
  exact (go_distance_at_most_path_sum dag_RXYZ "Z" "Y" "R" 2 1
           Hne HZ HY HpZ HpY).
Defined.

(** X5.  A term and a direct parent of it that resolves are at distance
    [1], so their similarity is one half. *)
Theorem parent_child_distance_one
    (godag : gmap string GOTerm) (child parent : string) :
  edge godag child parent →
  child ≠ parent →
  is_Some (godag !! parent) →
  _go_distance godag child parent = Some 1
  ∧ _go_distance godag parent child = Some 1
  ∧ term_similarity godag child parent = (1 # 2)%Q.
Proof.
  intros He Hne Hp.
  assert (Hc : is_Some (godag !! child)).
  { destruct He as (node & Hnode & _). by rewrite Hnode. }
  destruct (_go_distance_le_paths godag child parent parent 1 0 Hne Hc Hp)
    as (d & Hd & Hd1 & Hd2).
  { apply path_up with parent; [done | apply path_here]. }
  { apply path_here. }
  assert (d = 1) as -> by lia.
  split; [done |]. split; [by rewrite _go_distance_sym |].
  unfold term_similarity. rewrite Hd. reflexivity.
Qed.

Lemma parent_child_distance_one_witness :
  edge dag_RXYZ "Z" "X"
  ∧ "Z" ≠ "X"
  ∧ is_Some (dag_RXYZ !! "X")
  ∧ _go_distance dag_RXYZ "Z" "X" = Some 1
  ∧ _go_distance dag_RXYZ "X" "Z" = Some 1
  ∧ term_similarity dag_RXYZ "Z" "X" = (1 # 2)%Q.
Proof.
  assert (He : edge dag_RXYZ "Z" "X").
  { eexists; split; [vm_compute; reflexivity | left]. }
  assert (Hne : "Z" ≠ "X") by discriminate.
  assert (HX : is_Some (dag_RXYZ !! "X")) by (vm_compute; eauto).
  split; [exact He |]. split; [exact Hne |]. split; [exact HX |].
  exact (parent_child_distance_one dag_RXYZ "Z" "X" He Hne HX).
Defined.

(** ** Scores and report *)

(** X6.  Every pair of [semantic_pairs] joins a term of [ipro_go] with a
    key of [df_go]; its score is their similarity, lies in (0, 1], is at
    least the threshold, and is [1] exactly when both terms are the same. *)
Theorem semantic_pairs_scores_in_range
    (godag : gmap string GOTerm) (ipro_go : list string)
    (df_go : list (string * Q)) (sem_sim_threshold : Q) :
  ∃ r, analyze_pdb godag ipro_go df_go sem_sim_threshold = Ok r
       ∧ ∀ a b s, (a, b, s) ∈ semantic_pairs r →
           a ∈ ipro_go ∧ b ∈ dict_keys df_go
           ∧ s = term_similarity godag a b
           ∧ (0 < s)%Q ∧ (s <= 1)%Q ∧ (sem_sim_threshold <= s)%Q
           ∧ (s = 1%Q ↔ a = b).
Proof.
  destruct (analyze_pdb_ok godag ipro_go df_go sem_sim_threshold)
    as (recorded & _ & HF & Hfst & Hr).
  eexists. split; [exact Hr |]. simpl.
  intros a b s [Hthr Hin]%list_elem_of_filter.
  rewrite Forall_forall in HF. pose proof (HF _ Hin) as Hp.
  apply first_best_partner_facts in Hp as (Hs & Hb & Hpos & Hle & _).
  split.
  { assert (Ha : a ∈ recorded.*1.*1).
    { apply list_elem_of_fmap. exists (a, b). split; [done |].
      apply list_elem_of_fmap. by exists (a, b, s). }
    rewrite Hfst in Ha. by apply list_elem_of_filter in Ha as [_ Ha]. }
  split; [done |]. split; [done |]. split; [done |]. split; [done |].
  split; [done |]. rewrite Hs. apply term_similarity_one_iff.
Qed.

(** X7.  With a threshold of at most 1, every term of [common] appears in
    [semantic_pairs] paired with itself at score 1, whether or not the
    term resolves in the graph. *)
Theorem common_terms_pair_with_themselves
    (godag : gmap string GOTerm) (ipro_go : list string)
    (df_go : list (string * Q)) (sem_sim_threshold : Q) :
  (sem_sim_threshold <= 1)%Q →
  ∃ r, analyze_pdb godag ipro_go df_go sem_sim_threshold = Ok r
       ∧ ∀ go, go ∈ common r → (go, go, 1%Q) ∈ semantic_pairs r.
Proof.
  intros Hthr.
  destruct (analyze_pdb_ok godag ipro_go df_go sem_sim_threshold)
    as (recorded & _ & HF & Hfst & Hr).
  eexists. split; [exact Hr |]. simpl.
  intros go [Ha Hb]%elem_of_intersection.
  apply elem_of_list_to_set in Ha, Hb.
  apply list_elem_of_filter. split; [done |].
  by apply (recorded_self_pair godag ipro_go (dict_keys df_go)).
Qed.

Lemma common_terms_pair_with_themselves_witness :
  (default_sim_threshold <= 1)%Q
  ∧ ∃ r, analyze_pdb dag_RXYZ sample_ipro_go sample_df_go default_sim_threshold
         = Ok r
         ∧ ∀ go, go ∈ common r → (go, go, 1%Q) ∈ semantic_pairs r.
Proof.
  assert (Hthr : (default_sim_threshold <= 1)%Q).
  { unfold default_sim_threshold, Qle. simpl. lia. }
  split; [exact Hthr |].
  exact (common_terms_pair_with_themselves dag_RXYZ sample_ipro_go
           sample_df_go default_sim_threshold Hthr).
Defined.

(** X8.  The mean similarity lies between 0 and 1, and it is positive
    exactly when some term of [ipro_go] is at a defined distance from some
    key of [df_go]. *)
Theorem semantic_avg_sim_range
    (godag : gmap string GOTerm) (ipro_go : list string)
    (df_go : list (string * Q)) (sem_sim_threshold : Q) :
  ∃ r, analyze_pdb godag ipro_go df_go sem_sim_threshold = Ok r
       ∧ (0 <= semantic_avg_sim r)%Q
       ∧ (semantic_avg_sim r <= 1)%Q
       ∧ ((0 < semantic_avg_sim r)%Q
          ↔ ∃ a b, a ∈ ipro_go ∧ b ∈ dict_keys df_go
                   ∧ is_Some (_go_distance godag a b)).
Proof.
  destruct (analyze_pdb_ok godag ipro_go df_go sem_sim_threshold)
    as (recorded & _ & HF & Hfst & Hr).
  eexists. split; [exact Hr |]. simpl.
  destruct (mean_score_bounds recorded
              (recorded_scores_in_range godag _ _ HF)) as (H0 & H1 & Hpos).
  split; [done |]. split; [done |]. split.
  - intros Hlt. destruct recorded as [|[[a b] s] recorded].
    { simpl in Hlt. lra. }
    exists a, b.
    apply Forall_cons in HF as [Hp _].
    apply first_best_partner_facts in Hp as (Hs & Hb & Hs0 & _ & _).
    split.
    { assert (Ha : a ∈ filter (has_partner godag (dict_keys df_go)) ipro_go).
      { rewrite <- Hfst. left. }
      by apply list_elem_of_filter in Ha as [_ Ha]. }
    split; [done |]. apply sim_value_pos_iff. by rewrite Hs in Hs0.
  - intros (a & b & Ha & Hb & Hd). apply Hpos.
    assert (Hin : a ∈ recorded.*1.*1).
    { rewrite Hfst. apply list_elem_of_filter. split; [| done].
      apply Exists_exists. exists b. split; [done |].
      by apply sim_value_pos_iff. }
    intros ->. by apply elem_of_nil in Hin.
Qed.

(** X9.  The similarity threshold only filters the list of pairs: the
    mean does not depend on it, and a greater threshold keeps a sublist of
    the pairs a smaller one keeps. *)
Theorem sim_threshold_only_filters
    (godag : gmap string GOTerm) (ipro_go : list string)
    (df_go : list (string * Q)) (low high : Q) :
  (low <= high)%Q →
  ∃ r_low r_high,
    analyze_pdb godag ipro_go df_go low = Ok r_low
    ∧ analyze_pdb godag ipro_go df_go high = Ok r_high
    ∧ semantic_avg_sim r_high = semantic_avg_sim r_low
    ∧ semantic_pairs r_high `sublist_of` semantic_pairs r_low
    ∧ semantic_pairs_count r_high ≤ semantic_pairs_count r_low
    ∧ jaccard r_high = jaccard r_low
    ∧ common r_high = common r_low
    ∧ high_confidence_common r_high = high_confidence_common r_low.
Proof.
  intros Hle.
  destruct (analyze_pdb_ok godag ipro_go df_go low)
    as (recorded & Hrec & _ & _ & Hr).
  destruct (analyze_pdb_ok godag ipro_go df_go high)
    as (recorded' & Hrec' & _ & _ & Hr').
  rewrite Hrec in Hrec'. injection Hrec' as <-.
  eexists _, _. split; [exact Hr |]. split; [exact Hr' |]. simpl.
  pose proof (filter_threshold_sublist low high recorded Hle) as Hsub.
  split; [done |]. split; [done |].
  split; [by apply sublist_length |]. done.
Qed.

Lemma sim_threshold_only_filters_witness :
  ((1 # 2) <= default_sim_threshold)%Q
  ∧ ∃ r_low r_high,
      analyze_pdb dag_RXYZ ["Z"; "Y"] graph_df_go (1 # 2)%Q = Ok r_low
      ∧ analyze_pdb dag_RXYZ ["Z"; "Y"] graph_df_go default_sim_threshold
        = Ok r_high
      ∧ semantic_avg_sim r_high = semantic_avg_sim r_low
      ∧ semantic_pairs r_high `sublist_of` semantic_pairs r_low.
Proof.
  assert (Hle : ((1 # 2) <= default_sim_threshold)%Q).
  { unfold default_sim_threshold, Qle. simpl. lia. }
  split; [exact Hle |].
  destruct (sim_threshold_only_filters dag_RXYZ ["Z"; "Y"] graph_df_go
              (1 # 2)%Q default_sim_threshold Hle)
    as (r_low & r_high & Hl & Hh & Havg & Hsub & _).
  exists r_low, r_high. split; [exact Hl |]. split; [exact Hh |].
  split; [exact Havg | exact Hsub].
Defined.

(** X10.  The Jaccard index lies between 0 and 1; it is 0 exactly when the
    two sets have no common term, and 1 exactly when they are equal and
    not empty. *)
Theorem jaccard_range_and_extremes
    (godag : gmap string GOTerm) (ipro_go : list string)
    (df_go : list (string * Q)) (sem_sim_threshold : Q) :
  ∃ r, analyze_pdb godag ipro_go df_go sem_sim_threshold = Ok r
       ∧ (0 <= jaccard r)%Q
       ∧ (jaccard r <= 1)%Q
       ∧ (jaccard r = 0%Q ↔ common r = ∅)
       ∧ (jaccard r = 1%Q
          ↔ (list_to_set ipro_go : gset string) = list_to_set (dict_keys df_go)
            ∧ ipro_go ≠ []).
Proof.
  destruct (analyze_pdb_ok godag ipro_go df_go sem_sim_threshold)
    as (recorded & _ & _ & _ & Hr).
  eexists. split; [exact Hr |]. simpl.
  destruct (jaccard_index_facts (list_to_set ipro_go)
              (list_to_set (dict_keys df_go))) as (H0 & H1 & Hz & Hone).
  split; [done |]. split; [done |]. split; [done |].
  rewrite Hone. split; intros [Heq Hne]; (split; [done |]).
  - intros ->. by apply Hne.
  - intros He. apply Hne. destruct ipro_go as [|a l]; [done |].
    exfalso. set_solver.
Qed.

(** X11.  When each input lists its elements once, the counts are
    ordered: the high-confidence terms are among the common terms, the
    common terms among the terms of either source, and there is at most
    one similarity pair per term of [ipro_go]. *)
Theorem result_counts_ordered
    (godag : gmap string GOTerm) (ipro_go : list string)
    (df_go : list (string * Q)) (sem_sim_threshold : Q) :
  NoDup ipro_go →
  NoDup (dict_keys df_go) →
  ∃ r, analyze_pdb godag ipro_go df_go sem_sim_threshold = Ok r
       ∧ high_confidence_count r ≤ common_count r
       ∧ common_count r ≤ interpro_count r
       ∧ common_count r ≤ deepfri_count r
       ∧ semantic_pairs_count r ≤ interpro_count r
       ∧ (common r = ∅ → deepfri_only_count r = deepfri_count r
                          ∧ interpro_only_count r = interpro_count r).
Proof.
  intros HndA HndB.
  destruct (analyze_pdb_ok godag ipro_go df_go sem_sim_threshold)
    as (recorded & _ & _ & Hfst & Hr).
  eexists. split; [exact Hr |]. simpl.
  set (A := list_to_set ipro_go : gset string).
  set (B := list_to_set (dict_keys df_go) : gset string).
  assert (HsA : length ipro_go = size A).
  { symmetry. by apply size_list_to_set. }
  assert (HsB : length df_go = size B).
  { unfold B. rewrite size_list_to_set by done.
    unfold dict_keys. by rewrite length_fmap. }
  split.
  { apply subseteq_size. unfold high_confidence_at.
    intros x [_ Hx]%elem_of_filter. done. }
  split; [rewrite HsA; apply subseteq_size; set_solver |].
  split; [rewrite HsB; apply subseteq_size; set_solver |].
  split.
  { etrans; [apply length_filter |].
    assert (Hlen : length recorded = length recorded.*1.*1)
      by by rewrite !length_fmap.
    rewrite Hlen, Hfst. apply length_filter. }
  intros He. rewrite HsA, HsB. split; f_equal; set_solver.
Qed.

Lemma result_counts_ordered_witness :
  NoDup sample_ipro_go
  ∧ NoDup (dict_keys sample_df_go)
  ∧ ∃ r, analyze_pdb dag_RXYZ sample_ipro_go sample_df_go default_sim_threshold
         = Ok r
         ∧ high_confidence_count r ≤ common_count r
         ∧ common_count r ≤ interpro_count r
         ∧ common_count r ≤ deepfri_count r
         ∧ semantic_pairs_count r ≤ interpro_count r.
Proof.
  assert (HndA : NoDup sample_ipro_go).
  { apply (bool_decide_unpack _). vm_compute. exact I. }
  assert (HndB : NoDup (dict_keys sample_df_go)).
  { apply (bool_decide_unpack _). vm_compute. exact I. }
  split; [exact HndA |]. split; [exact HndB |].
  destruct (result_counts_ordered dag_RXYZ sample_ipro_go sample_df_go
              default_sim_threshold HndA HndB)
    as (r & Hr & H1 & H2 & H3 & H4 & _).
  exists r. split; [exact Hr |]. split; [exact H1 |]. split; [exact H2 |].
  split; [exact H3 | exact H4].
Defined.

(** X12.  An empty source gives a well-defined report and no exception:
    no common term, Jaccard index 0, no similarity pair, mean 0, and the
    other source's terms all exclusive to it. *)
Theorem analyze_pdb_empty_source
    (godag : gmap string GOTerm) (ipro_go : list string)
    (df_go : list (string * Q)) (sem_sim_threshold : Q) :
  (∃ r, analyze_pdb godag [] df_go sem_sim_threshold = Ok r
        ∧ interpro_count r = 0
        ∧ common r = ∅ ∧ high_confidence_common r = ∅
        ∧ interpro_only r = ∅
        ∧ deepfri_only r = list_to_set (dict_keys df_go)
        ∧ jaccard r = 0%Q
        ∧ semantic_avg_sim r = 0%Q ∧ semantic_pairs r = [])
  ∧ (∃ r, analyze_pdb godag ipro_go [] sem_sim_threshold = Ok r
          ∧ deepfri_count r = 0
          ∧ common r = ∅ ∧ high_confidence_common r = ∅
          ∧ interpro_only r = list_to_set ipro_go
          ∧ deepfri_only r = ∅
          ∧ jaccard r = 0%Q
          ∧ semantic_avg_sim r = 0%Q ∧ semantic_pairs r = []).
Proof.
  split.
  - destruct (analyze_pdb_ok godag [] df_go sem_sim_threshold)
      as (recorded & Hrec & _ & _ & Hr).
    simpl in Hrec. injection Hrec as <-.
    eexists. split; [exact Hr |]. simpl.
    split; [done |]. split; [set_solver |].
    split; [unfold high_confidence_at; set_solver |].
    split; [set_solver |]. split; [set_solver |].
    split; [| done].
    apply (proj1 (proj2 (proj2 (jaccard_index_facts _ _)))). set_solver.
  - destruct (analyze_pdb_ok godag ipro_go [] sem_sim_threshold)
      as (recorded & Hrec & _ & _ & Hr).
    simpl in Hrec. rewrite collect_scores_no_partner in Hrec.
    injection Hrec as <-.
    eexists. split; [exact Hr |]. simpl.
    split; [done |]. split; [set_solver |].
    split; [unfold high_confidence_at; set_solver |].
    split; [set_solver |]. split; [set_solver |].
    split; [| done].
    apply (proj1 (proj2 (proj2 (jaccard_index_facts _ _)))). set_solver.
Qed.

(** ** The dictionary of DeepFRI scores *)

(** X13.  When [_deepfri] returns a dictionary, its keys are distinct and
    are exactly the terms predicted by the models cnn_cc, cnn_mf and
    cnn_bp; the score stored for a term is that of its last prediction in
    that order of reading. *)
Theorem deepfri_last_prediction_wins
    (final_data : FinalData) (go_score : list (string * Q)) :
  _deepfri final_data = Ok go_score →
  NoDup (dict_keys go_score)
  ∧ (∀ t, t ∈ dict_keys go_score
          ↔ ∃ p, p ∈ deepfri_predictions final_data ∧ go_term p = Some t)
  ∧ (∀ l1 p l2 t s,
       deepfri_predictions final_data = l1 ++ p :: l2 →
       go_term p = Some t → go_term_score p = Some s →
       (∀ p', p' ∈ l2 → go_term p' ≠ Some t) →
       dict_getitem go_score t = Ok s).
Proof.
  intros Hok. rewrite _deepfri_unfold in Hok.
  destruct (decide (Forall prediction_complete (deepfri_predictions final_data)))
    as [Hall | Hnot];
    [| by rewrite score_predictions_incomplete in Hok].
  destruct (score_predictions_complete _ [] Hall) as (d' & Heq & Hnd & Hmap).
  rewrite Hok in Heq. injection Heq as <-.
  split; [apply Hnd; constructor |]. split.
  - intros t. rewrite dict_keys_to_map, Hmap.
    rewrite fold_insert_prediction_dom by done.
    change (list_to_map [] : gmap string Q) with (∅ : gmap string Q).
    rewrite lookup_empty. split; [intros [[? [=]] | ?]; done | by right].
  - intros l1 p l2 t s Hsplit Ht Hs Hlater.
    unfold dict_getitem. rewrite Hmap, Hsplit.
    by rewrite (fold_insert_prediction_last l1 p l2 _ t s).
Qed.

Lemma deepfri_last_prediction_wins_witness :
  _deepfri sample_final_data
  = Ok [("GO:0001", (3 # 10)%Q); ("GO:0002", (1 # 2)%Q)]
  ∧ NoDup (dict_keys [("GO:0001", (3 # 10)%Q); ("GO:0002", (1 # 2)%Q)])
  ∧ dict_getitem [("GO:0001", (3 # 10)%Q); ("GO:0002", (1 # 2)%Q)] "GO:0001"
    = Ok (3 # 10)%Q.
Proof.
  assert (Hok : _deepfri sample_final_data
                = Ok [("GO:0001", (3 # 10)%Q); ("GO:0002", (1 # 2)%Q)])
    by (vm_compute; reflexivity).
  split; [exact Hok |].
  destruct (deepfri_last_prediction_wins sample_final_data _ Hok)
    as (Hnd & _ & Hlast).
  split; [exact Hnd |].
  apply (Hlast
           [mkPrediction (Some "GO:0001") (Some "binding") (Some (9 # 10)%Q);
            mkPrediction (Some "GO:0002") (Some "activity") (Some (1 # 2)%Q)]
           (mkPrediction (Some "GO:0001") (Some "binding") (Some (3 # 10)%Q))
           []).
  - vm_compute. reflexivity.
  - reflexivity.
  - reflexivity.
  - intros p' Hp'. by apply elem_of_nil in Hp'.
Defined.

(** X14.  If [_deepfri] returns a dictionary, every prediction it read
    has both keys go_term and go_term_score; if it raises [KeyError], some
    prediction it read lacks one of them.  Only the models cnn_cc, cnn_mf
    and cnn_bp are read: an answer with no prediction under them (without
    the chain, the models or their predictions lists) gives the empty
    dictionary, and two answers that agree on these three models give the
    same result. *)
Theorem deepfri_reads_both_keys (final_data : FinalData) :
  (∀ go_score, _deepfri final_data = Ok go_score →
     Forall prediction_complete (deepfri_predictions final_data))
  ∧ (_deepfri final_data = Raise KeyError →
     ∃ p, p ∈ deepfri_predictions final_data
          ∧ (go_term p = None ∨ go_term_score p = None))
  ∧ (deepfri_predictions final_data = [] → _deepfri final_data = Ok [])
  ∧ (∀ other : FinalData,
       (∀ model, model ∈ deepfri_models →
          model_predictions other model = model_predictions final_data model) →
       _deepfri other = _deepfri final_data).
Proof.
  rewrite _deepfri_unfold.
  assert (Hiff : ¬ Forall prediction_complete (deepfri_predictions final_data)
                 ↔ ∃ p, p ∈ deepfri_predictions final_data
                        ∧ (go_term p = None ∨ go_term_score p = None)).
  { rewrite <- Exists_Forall_neg
      by (intros p; destruct (decide (prediction_complete p)); tauto).
    rewrite Exists_exists.
    split; intros (p & Hp & Hbad); exists p; (split; [done |]).
    - unfold prediction_complete in Hbad.
      destruct (go_term p), (go_term_score p); try tauto.
      exfalso. apply Hbad. split; by eexists.
    - intros [[t Ht] [s Hs]]. destruct Hbad; congruence. }
  split; [| split; [| split]].
  - intros go_score Hok.
    destruct (decide (Forall prediction_complete
                        (deepfri_predictions final_data))) as [? | Hnot];
      [done |].
    by rewrite score_predictions_incomplete in Hok.
  - rewrite <- Hiff. intros Hraise Hall.
    destruct (score_predictions_complete _ [] Hall) as (d' & Heq & _).
    congruence.
  - by intros ->.
  - intros other Hsame. rewrite _deepfri_unfold. f_equal.
    unfold deepfri_predictions.
    rewrite !Hsame; [done | | |]; unfold deepfri_models; set_solver.
Qed.

(** X15.  The dictionary [_deepfri] returns can be handed to
    [analyze_pdb] as it is: its keys being distinct, [deepfri_count] is the
    number of distinct predicted terms and splits into the common terms
    and the terms exclusive to DeepFRI, and every common term was
    predicted by one of the three models. *)
Theorem deepfri_output_feeds_analysis
    (godag : gmap string GOTerm) (final_data : FinalData)
    (ipro_go : list string) (df_go : list (string * Q)) (sem_sim_threshold : Q) :
  _deepfri final_data = Ok df_go →
  ∃ r, analyze_pdb godag ipro_go df_go sem_sim_threshold = Ok r
       ∧ deepfri_count r = size (list_to_set (dict_keys df_go) : gset string)
       ∧ deepfri_count r = common_count r + deepfri_only_count r
       ∧ (∀ go, go ∈ common r →
            go ∈ ipro_go
            ∧ ∃ p, p ∈ deepfri_predictions final_data ∧ go_term p = Some go).
Proof.
  intros Hok.
  assert (Hkeys : ∀ t, t ∈ dict_keys df_go
                       ↔ ∃ p, p ∈ deepfri_predictions final_data
                              ∧ go_term p = Some t).
  { rewrite _deepfri_unfold in Hok.
    destruct (decide (Forall prediction_complete
                        (deepfri_predictions final_data))) as [Hall | Hnot];
      [| by rewrite score_predictions_incomplete in Hok].
    destruct (score_predictions_complete _ [] Hall) as (d' & Heq & _ & Hmap).
    rewrite Hok in Heq. injection Heq as <-.
    intros t. rewrite dict_keys_to_map, Hmap.
    rewrite fold_insert_prediction_dom by done.
    change (list_to_map [] : gmap string Q) with (∅ : gmap string Q).
    rewrite lookup_empty. split; [intros [[? [=]] | ?]; done | by right]. }
  assert (Hnd : NoDup (dict_keys df_go)).
  { rewrite _deepfri_unfold in Hok.
    destruct (decide (Forall prediction_complete
                        (deepfri_predictions final_data))) as [Hall | Hnot];
      [| by rewrite score_predictions_incomplete in Hok].
    destruct (score_predictions_complete _ [] Hall) as (d' & Heq & Hnd & _).
    rewrite Hok in Heq. injection Heq as <-. apply Hnd. constructor. }
  destruct (analyze_pdb_ok godag ipro_go df_go sem_sim_threshold)
    as (recorded & _ & _ & _ & Hr).
  eexists. split; [exact Hr |]. simpl.
  set (A := list_to_set ipro_go : gset string).
  set (B := list_to_set (dict_keys df_go) : gset string).
  assert (HsB : length df_go = size B).
  { unfold B. rewrite size_list_to_set by done.
    unfold dict_keys. by rewrite length_fmap. }
  split; [done |]. split.
  - rewrite HsB, <- size_union by set_solver. f_equal.
    apply set_eq. intros x. rewrite elem_of_union, elem_of_intersection,
      elem_of_difference. destruct (decide (x ∈ A)); tauto.
  - intros go [Ha Hb]%elem_of_intersection.
    apply elem_of_list_to_set in Ha, Hb. split; [done |]. by apply Hkeys.
Qed.

Lemma deepfri_output_feeds_analysis_witness :
  _deepfri sample_final_data
  = Ok [("GO:0001", (3 # 10)%Q); ("GO:0002", (1 # 2)%Q)]
  ∧ ∃ r, analyze_pdb dag_RXYZ sample_ipro_go
           [("GO:0001", (3 # 10)%Q); ("GO:0002", (1 # 2)%Q)]
           default_sim_threshold = Ok r
         ∧ deepfri_count r = common_count r + deepfri_only_count r.
Proof.
  assert (Hok : _deepfri sample_final_data
                = Ok [("GO:0001", (3 # 10)%Q); ("GO:0002", (1 # 2)%Q)])
    by (vm_compute; reflexivity).
  split; [exact Hok |].
  destruct (deepfri_output_feeds_analysis dag_RXYZ sample_final_data
              sample_ipro_go _ default_sim_threshold Hok)
    as (r & Hr & _ & Hcount & _).
  exists r. split; [exact Hr | exact Hcount].
Defined.

(** ** The set of InterPro terms *)

(** X16.  A term is in the set [_interpro] returns exactly when some
    goXRefs element that the loops visit has it as its id and the id
    starts with GO: and seven characters of the class [\d]; an element without id, with a null
    or an empty id adds nothing. *)
Theorem interpro_go_set_members
    (decimal : N → bool) (result : IprResult) (go : string) :
  (go ∈ _interpro decimal result
   ↔ ∃ g, g ∈ visited_goXRefs result
          ∧ xref_id g = Some go ∧ go_id_match decimal go = true)
  ∧ (EmptyString ∉ _interpro decimal result)
  ∧ (go_id_match decimal go = false → go ∉ _interpro decimal result).
Proof.
  split; [apply elem_of__interpro |]. split.
  - intros (g' & _ & _ & Hm)%elem_of__interpro.
    vm_compute in Hm. discriminate.
  - intros Hno (g' & _ & _ & Hm)%elem_of__interpro. congruence.
Qed.


(** X18.  The result items contribute independently: the set of a list of
    items is the union of the sets of its parts, one item alone is treated
    as a list of one, and no results give the empty set. *)
Theorem interpro_results_compose (decimal : N → bool)
    (items1 items2 : list IprResultItem) (item : IprResultItem) :
  _interpro decimal (mkIprResult (Some (ResultsList (items1 ++ items2))))
  = _interpro decimal (mkIprResult (Some (ResultsList items1)))
    ∪ _interpro decimal (mkIprResult (Some (ResultsList items2)))
  ∧ _interpro decimal (mkIprResult (Some (ResultsDict item)))
    = _interpro decimal (mkIprResult (Some (ResultsList [item])))
  ∧ _interpro decimal (mkIprResult None) = ∅
  ∧ _interpro decimal (mkIprResult (Some (ResultsList []))) = ∅.
Proof.
  split; [| done].
  apply set_eq. intros go.
  rewrite elem_of_union, !elem_of__interpro, visited_goXRefs_app. split.
  - intros (g & [Hg | Hg]%elem_of_app & Hid).
    + left. by exists g.
    + right. by exists g.
  - intros [(g & Hg & Hid) | (g & Hg & Hid)]; exists g;
      (split; [| done]); apply elem_of_app; [by left | by right].
Qed.

(** ** Sequences *)

(** X19.  [_extract_seq] returns the peptide sequences of all chains of
    the first model, concatenated in order; further models are not read,
    an empty structure gives the empty string, and
    [extract_sequence_from_pdb] without a chain identifier (or with the
    empty one) returns the same sequence. *)
Theorem extract_seq_first_model_all_chains
    (model : list Chain) (rest : list (list Chain)) :
  _extract_seq (model :: rest) = join (model ≫= peptides)
  ∧ _extract_seq (model :: rest) = _extract_seq [model]
  ∧ _extract_seq [] = EmptyString
  ∧ extract_sequence_from_pdb (model :: rest) None = _extract_seq (model :: rest)
  ∧ extract_sequence_from_pdb (model :: rest) (Some EmptyString)
    = _extract_seq (model :: rest).
Proof.
  split; [apply _extract_seq_join |]. split; [done |]. split; [done |].
  rewrite !extract_sequence_from_pdb_join, _extract_seq_join.
  unfold selected_chains. simpl. by rewrite filter_all.
Qed.

(** X20.  With a chain identifier that is not empty,
    [extract_sequence_from_pdb] returns the peptide sequences of the
    chains of the first model that carry this identifier, and the empty
    string when no chain does; it is never longer than the sequence of all
    chains. *)
Theorem extract_sequence_of_selected_chain
    (model : list Chain) (rest : list (list Chain)) (wanted : string) :
  wanted ≠ EmptyString →
  extract_sequence_from_pdb (model :: rest) (Some wanted)
  = join (filter (λ chain, chain_id chain = wanted) model ≫= peptides)
  ∧ ((∀ chain, chain ∈ model → chain_id chain ≠ wanted) →
     extract_sequence_from_pdb (model :: rest) (Some wanted) = EmptyString)
  ∧ ((∀ chain, chain ∈ model → chain_id chain = wanted) →
     extract_sequence_from_pdb (model :: rest) (Some wanted)
     = _extract_seq (model :: rest)).
Proof.
  intros Hne.
  assert (Hsel : selected_chains (Some wanted) model
                 = filter (λ chain, chain_id chain = wanted) model).
  { unfold selected_chains. apply list_filter_iff. intros chain.
    unfold chain_skipped. destruct wanted as [|c w]; [done |].
    rewrite bool_decide_eq_false. split; [apply dec_stable | tauto]. }
  rewrite extract_sequence_from_pdb_join, Hsel, _extract_seq_join.
  split; [done |]. split.
  - intros Hnone.
    assert (Hnil : filter (λ chain, chain_id chain = wanted) model = []).
    { clear Hsel. induction model as [|chain model IH]; [done |].
      rewrite filter_cons_False by (apply Hnone; left).
      apply IH. intros ch Hch. apply Hnone. by right. }
    by rewrite Hnil.
  - intros Hall.
    assert (Hid : filter (λ chain, chain_id chain = wanted) model = model).
    { clear Hsel. induction model as [|chain model IH]; [done |].
      rewrite filter_cons_True by (apply Hall; left).
      f_equal. apply IH. intros ch Hch. apply Hall. by right. }
    by rewrite Hid.
Qed.

Lemma extract_sequence_of_selected_chain_witness :
  "B" ≠ EmptyString
  ∧ extract_sequence_from_pdb sample_structure (Some "B") = "GG"
  ∧ _extract_seq sample_structure = "MKVLTGG".
Proof.
  assert (Hne : "B" ≠ EmptyString) by discriminate.
  split; [exact Hne |].
  destruct (extract_sequence_of_selected_chain
              [mkChain "A" ["MKV"; "LT"]; mkChain "B" ["GG"]]
              [[mkChain "A" ["WWW"]]] "B" Hne) as (Heq & _ & _).
  split; [| vm_compute; reflexivity].
  unfold sample_structure. rewrite Heq. vm_compute. reflexivity.
Defined.

(** ** The rows of [extract_go_predictions] *)

(** X21.  When [extract_go_predictions] returns its rows, no two rows
    have the same go_term; every row comes from a prediction of one of the
    four models whose score (0.0 when the key is absent) reaches the
    threshold, and carries that model's namespace; a term has a row exactly
    when one of its predictions reaches the threshold; of several such
    predictions of a term the first in the order CC, MF, BP, EC gives the
    row. *)
Theorem extract_go_predictions_first_prediction_wins
    (json_data : FinalData) (score_threshold : Q) (rows : list GoRow) :
  extract_go_predictions json_data score_threshold = Ok rows →
  NoDup (row_go_term <$> rows)
  ∧ (∀ row, row ∈ rows →
       (score_threshold <= row_score row)%Q
       ∧ ∃ p, (p, row_namespace row) ∈ tagged_predictions json_data
              ∧ go_term p = Some (row_go_term row)
              ∧ go_term_name p = Some (row_name row)
              ∧ score_or_zero p = row_score row)
  ∧ (∀ t, t ∈ row_go_term <$> rows
          ↔ ∃ p ns, (p, ns) ∈ tagged_predictions json_data
                    ∧ qualifies score_threshold p ∧ go_term p = Some t)
  ∧ (∀ l1 p ns l2 t n,
       tagged_predictions json_data = l1 ++ (p, ns) :: l2 →
       qualifies score_threshold p →
       go_term p = Some t → go_term_name p = Some n →
       (∀ p' ns', (p', ns') ∈ l1 → qualifies score_threshold p' →
                  go_term p' ≠ Some t) →
       mkGoRow t n (score_or_zero p) ns ∈ rows).
Proof.
  intros Hok.
  destruct (decide (record_key_missing score_threshold
                      (tagged_predictions json_data))) as [Hbad | Hgood].
  { by rewrite extract_go_predictions_raise in Hok. }
  rewrite extract_go_predictions_ok in Hok by done. injection Hok as <-.
  split; [apply drop_duplicates_NoDup |]. split; [| split].
  - intros row Hrow%drop_duplicates_subseteq.
    apply elem_of_rows_of in Hrow as (p & Hin & Hq & Ht & Hn & Hs).
    split; [by rewrite <- Hs |]. by exists p.
  - intros t. rewrite drop_duplicates_keys. split.
    + intros [Ht _]. by apply row_term_in_rows_of in Ht.
    + intros (p & ns & Hin & Hq & Ht). split; [| set_solver].
      destruct (go_term_name p) as [n|] eqn:Hn.
      * apply list_elem_of_fmap. exists (mkGoRow t n (score_or_zero p) ns).
        split; [done |]. apply elem_of_rows_of. by exists p.
      * exfalso. apply Hgood. apply Exists_exists. exists (p, ns).
        split; [done |]. split; [done |]. intros [_ [? ?]]. simpl in *.
        congruence.
  - intros l1 p ns l2 t n Hsplit Hq Ht Hn Hfirst.
    rewrite Hsplit, rows_of_app.
    rewrite (rows_of_cons_keep score_threshold p ns t n) by done.
    apply drop_duplicates_first; [set_solver |]. simpl.
    intros (p' & ns' & Hin & Hq' & Ht')%row_term_in_rows_of.
    by apply (Hfirst p' ns').
Qed.

Lemma extract_go_predictions_first_prediction_wins_witness :
  extract_go_predictions sample_final_data 0%Q
  = Ok [mkGoRow "GO:0001" "binding" (9 # 10)%Q "MF";
        mkGoRow "GO:0002" "activity" (1 # 2)%Q "MF"]
  ∧ NoDup (row_go_term <$> [mkGoRow "GO:0001" "binding" (9 # 10)%Q "MF";
                            mkGoRow "GO:0002" "activity" (1 # 2)%Q "MF"]).
Proof.
  assert (Hok : extract_go_predictions sample_final_data 0%Q
                = Ok [mkGoRow "GO:0001" "binding" (9 # 10)%Q "MF";
                      mkGoRow "GO:0002" "activity" (1 # 2)%Q "MF"])
    by (vm_compute; reflexivity).
  split; [exact Hok |].
  exact (proj1 (extract_go_predictions_first_prediction_wins
                  sample_final_data 0%Q _ Hok)).
Defined.

(** X22.  If [extract_go_predictions] returns its rows, every prediction
    that reaches the threshold has the keys go_term and go_term_name; if it
    raises [KeyError], some prediction that reaches the threshold lacks one
    of them: a prediction below the threshold is never asked for them.  A
    prediction without go_term_score counts with score 0.0, so it reaches
    the threshold exactly when the threshold is at most 0. *)
Theorem extract_go_predictions_reads_named_keys
    (json_data : FinalData) (score_threshold : Q) :
  (∀ rows p ns,
     extract_go_predictions json_data score_threshold = Ok rows →
     (p, ns) ∈ tagged_predictions json_data →
     qualifies score_threshold p →
     is_Some (go_term p) ∧ is_Some (go_term_name p))
  ∧ (extract_go_predictions json_data score_threshold = Raise KeyError →
     ∃ p ns, (p, ns) ∈ tagged_predictions json_data
             ∧ qualifies score_threshold p
             ∧ (go_term p = None ∨ go_term_name p = None))
  ∧ (∀ p, go_term_score p = None →
          (qualifies score_threshold p ↔ (score_threshold <= 0)%Q)).
Proof.
  assert (Hiff : record_key_missing score_threshold (tagged_predictions json_data)
                 ↔ ∃ p ns, (p, ns) ∈ tagged_predictions json_data
                           ∧ qualifies score_threshold p
                           ∧ (go_term p = None ∨ go_term_name p = None)).
  { unfold record_key_missing. rewrite Exists_exists. split.
    - intros ([p ns] & Hin & Hq & Hbad). exists p, ns.
      split; [done |]. split; [done |]. unfold prediction_named in Hbad.
      simpl in *. destruct (go_term p), (go_term_name p); try tauto.
      exfalso. apply Hbad. split; by eexists.
    - intros (p & ns & Hin & Hq & Hbad). exists (p, ns).
      split; [done |]. split; [done |]. intros [[t Ht] [n Hn]]. simpl in *.
      destruct Hbad; congruence. }
  split; [| split].
  - intros rows p ns Hok Hin Hq.
    destruct (decide (record_key_missing score_threshold
                        (tagged_predictions json_data))) as [Hbad | Hgood].
    { by rewrite extract_go_predictions_raise in Hok. }
    destruct (go_term p) as [t|] eqn:Ht, (go_term_name p) as [n|] eqn:Hn;
      try (split; by eexists);
      exfalso; apply Hgood, Hiff; exists p, ns;
      (split; [done |]); (split; [done |]); tauto.
  - rewrite <- Hiff. intros Hraise.
    destruct (decide (record_key_missing score_threshold
                        (tagged_predictions json_data))) as [? | Hgood];
      [done |].
    by rewrite extract_go_predictions_ok in Hraise.
  - intros p Hs. unfold qualifies, score_or_zero. by rewrite Hs.
Qed.

(** X23.  The two readers of the DeepFRI answer agree on the terms: every
    row of [extract_go_predictions] outside the namespace EC has its
    go_term among the keys of the dictionary [_deepfri] returns, and
    every key whose predictions all reach the threshold has a row. *)
Theorem deepfri_keys_cover_rows
    (final_data : FinalData) (score_threshold : Q)
    (go_score : list (string * Q)) (rows : list GoRow) :
  _deepfri final_data = Ok go_score →
  extract_go_predictions final_data score_threshold = Ok rows →
  (∀ row, row ∈ rows → row_namespace row ≠ "EC" →
          row_go_term row ∈ dict_keys go_score)
  ∧ ((∀ p, p ∈ deepfri_predictions final_data → qualifies score_threshold p) →
     ∀ t, t ∈ dict_keys go_score → t ∈ row_go_term <$> rows).
Proof.
  intros Hdf Hrows.
  assert (Hkeys : ∀ t, t ∈ dict_keys go_score
                       ↔ ∃ p, p ∈ deepfri_predictions final_data
                              ∧ go_term p = Some t).
  { rewrite _deepfri_unfold in Hdf.
    destruct (decide (Forall prediction_complete
                        (deepfri_predictions final_data))) as [Hall | Hnot];
      [| by rewrite score_predictions_incomplete in Hdf].
    destruct (score_predictions_complete _ [] Hall) as (d' & Heq & _ & Hmap).
    rewrite Hdf in Heq. injection Heq as <-.
    intros t. rewrite dict_keys_to_map, Hmap.
    rewrite fold_insert_prediction_dom by done.
    change (list_to_map [] : gmap string Q) with (∅ : gmap string Q).
    rewrite lookup_empty. split; [intros [[? [=]] | ?]; done | by right]. }
  destruct (decide (record_key_missing score_threshold
                      (tagged_predictions final_data))) as [Hbad | Hgood].
  { by rewrite extract_go_predictions_raise in Hrows. }
  rewrite extract_go_predictions_ok in Hrows by done. injection Hrows as <-.
  split.
  - intros row Hrow%drop_duplicates_subseteq Hns.
    apply elem_of_rows_of in Hrow as (p & Hin & _ & Ht & _).
    apply Hkeys. exists p. split; [| done].
    apply elem_of_tagged_predictions in Hin as (model & Hmodel & Hp).
    apply elem_of_deepfri_predictions. exists model. split; [| done].
    apply deepfri_models_in_ns_map. by exists (row_namespace row).
  - intros Hall t (p & Hp & Ht)%Hkeys.
    apply drop_duplicates_keys. split; [| set_solver].
    apply elem_of_deepfri_predictions in Hp as (model & Hmodel & Hp').
    pose proof Hmodel as (ns & Hns & _)%deepfri_models_in_ns_map.
    assert (Hin : (p, ns) ∈ tagged_predictions final_data).
    { apply elem_of_tagged_predictions. by exists model. }
    assert (Hq : qualifies score_threshold p).
    { apply Hall. apply elem_of_deepfri_predictions. by exists model. }
    destruct (go_term_name p) as [n|] eqn:Hn.
    + apply list_elem_of_fmap. exists (mkGoRow t n (score_or_zero p) ns).
      split; [done |]. apply elem_of_rows_of. by exists p.
    + exfalso. apply Hgood. apply Exists_exists. exists (p, ns).
      split; [done |]. split; [done |]. intros [_ [? ?]]. simpl in *.
      congruence.
Qed.

Lemma deepfri_keys_cover_rows_witness :
  _deepfri sample_final_data
  = Ok [("GO:0001", (3 # 10)%Q); ("GO:0002", (1 # 2)%Q)]
  ∧ extract_go_predictions sample_final_data 0%Q
    = Ok [mkGoRow "GO:0001" "binding" (9 # 10)%Q "MF";
          mkGoRow "GO:0002" "activity" (1 # 2)%Q "MF"]
  ∧ ∀ row, row ∈ [mkGoRow "GO:0001" "binding" (9 # 10)%Q "MF";
                  mkGoRow "GO:0002" "activity" (1 # 2)%Q "MF"] →
           row_namespace row ≠ "EC" →
           row_go_term row
           ∈ dict_keys [("GO:0001", (3 # 10)%Q); ("GO:0002", (1 # 2)%Q)].
Proof.
  assert (Hdf : _deepfri sample_final_data
                = Ok [("GO:0001", (3 # 10)%Q); ("GO:0002", (1 # 2)%Q)])
    by (vm_compute; reflexivity).
  assert (Hrows : extract_go_predictions sample_final_data 0%Q
                  = Ok [mkGoRow "GO:0001" "binding" (9 # 10)%Q "MF";
                        mkGoRow "GO:0002" "activity" (1 # 2)%Q "MF"])
    by (vm_compute; reflexivity).
  split; [exact Hdf |]. split; [exact Hrows |].
  exact (proj1 (deepfri_keys_cover_rows sample_final_data 0%Q _ _ Hdf Hrows)).
Defined.

(** ** [extract_main_data] of [interpro.py] *)

(** X24. In every record [extract_main_data] returns, the identifiers of
    the [go_terms] are pairwise distinct and each starts with [GO:],
    whatever the shape of the answer and the class of digits. *)
Theorem main_data_go_terms_distinct_with_prefix
    (decimal : N → bool) (result : json) (out : list MainRecord) (r : MainRecord) :
  extract_main_data decimal result = Returns out → r ∈ out →
  NoDup (gt_id <$> rec_go_terms r)
  ∧ ∀ t, t ∈ rec_go_terms r → is_Some (strip_prefix "GO:" (gt_id t)).
Proof.
  unfold extract_main_data.
  intros (raw & _ & H)%attempt_bind_Returns Hr. cbv zeta in H.
  apply attempt_bind_Returns in H as (items & _ & H).
  apply add_items_records_ok in H; [| constructor].
  rewrite Forall_forall in H. destruct (H r Hr) as [Hnd Hpre].
  split; [done |]. by apply Forall_forall.
Qed.

Lemma main_data_go_terms_distinct_with_prefix_witness :
  ∃ out,
    extract_main_data unicode_decimal sample_json_result = Returns out
    ∧ Forall (λ r, NoDup (gt_id <$> rec_go_terms r)
                   ∧ ∀ t, t ∈ rec_go_terms r
                          → is_Some (strip_prefix "GO:" (gt_id t))) out.
Proof.
  eexists. split; [vm_compute; reflexivity |].
  apply Forall_forall. intros r Hr.
  eapply (main_data_go_terms_distinct_with_prefix unicode_decimal
            sample_json_result _ r);
    [vm_compute; reflexivity | exact Hr].
Defined.

(** X25. The records one match adds to [out] follow its representative
    locations: one record for each location that is a dictionary with a
    true ['representative'], in the order of the locations, with that
    location's start, end and score, and all with the same [go_terms]. *)
Theorem match_records_follow_representative_locations
    (decimal : N → bool) (match_ : json) (out out' : list MainRecord) :
  add_match_records decimal match_ out = Returns out' →
  ∃ locations locs recs go_terms,
    json_get match_ "locations" (JList []) = Returns locations
    ∧ py_iter (py_or locations (JList [])) = Returns locs
    ∧ out' = out ++ recs
    ∧ Forall2 (λ loc r,
                 json_get loc "start" JNull = Returns (rec_start r)
                 ∧ json_get loc "end" JNull = Returns (rec_end r)
                 ∧ json_get loc "score" JNull = Returns (rec_score r)
                 ∧ rec_go_terms r = go_terms)
        (filter (λ loc, is_representative loc = true) locs) recs.
Proof.
  intros (sg & en & locations & st & locs & recs & _ & _ & Hl & Hi & _ & -> & H)
    %add_match_records_spec.
  exists locations, locs, recs, st.1. repeat (split; [done |]).
  eapply Forall2_impl; [exact H |]. simpl. intros loc r. tauto.
Qed.

Lemma match_records_follow_representative_locations_witness :
  ∃ out',
    add_match_records unicode_decimal sample_match [] = Returns out'
    ∧ ∃ locations locs recs go_terms,
        json_get sample_match "locations" (JList []) = Returns locations
        ∧ py_iter (py_or locations (JList [])) = Returns locs
        ∧ out' = [] ++ recs
        ∧ Forall2 (λ loc r,
                     json_get loc "start" JNull = Returns (rec_start r)
                     ∧ json_get loc "end" JNull = Returns (rec_end r)
                     ∧ json_get loc "score" JNull = Returns (rec_score r)
                     ∧ rec_go_terms r = go_terms)
            (filter (λ loc, is_representative loc = true) locs) recs.
Proof.
  eexists. split; [vm_compute; reflexivity |].
  apply (match_records_follow_representative_locations unicode_decimal
           sample_match []).
  vm_compute. reflexivity.
Defined.

(** X26. An answer that is not a dictionary makes [extract_main_data]
    raise AttributeError; a dictionary whose ['results'] is missing, null or
    otherwise false gives the empty list. *)
Theorem extract_main_data_without_results (decimal : N → bool) :
  (∀ result, is_dict result = false →
             extract_main_data decimal result = Fails AttributeError)
  ∧ (∀ fields, truthy (get_or_null fields "results") = false →
               extract_main_data decimal (JDict fields) = Returns []).
Proof.
  split.
  - intros result Hd. by destruct result.
  - intros fields Hf. unfold extract_main_data.
    cbn [json_get mbind attempt_bind]. unfold get_or_null in Hf.
    unfold py_or. by rewrite Hf.
Qed.

(** X27. A ['results'] that is one dictionary is treated as the list of
    that one dictionary. *)
Theorem extract_main_data_single_result
    (decimal : N → bool) (fields item : list (string * json)) :
  assoc "results" fields = Some (JDict item) →
  extract_main_data decimal (JDict fields)
  = extract_main_data decimal (JDict [("results", JList [JDict item])]).
Proof.
  intros Hr. unfold extract_main_data.
  cbn [json_get mbind attempt_bind]. rewrite Hr.
  by destruct item as [|[k v] item].
Qed.

Lemma extract_main_data_single_result_witness :
  assoc "results" [("results", JDict [("matches", JList [sample_match])])]
  = Some (JDict [("matches", JList [sample_match])])
  ∧ extract_main_data unicode_decimal
      (JDict [("results", JDict [("matches", JList [sample_match])])])
    = extract_main_data unicode_decimal
        (JDict [("results",
                 JList [JDict [("matches", JList [sample_match])]])]).
Proof.
  split; [reflexivity |].
  apply (extract_main_data_single_result unicode_decimal
           [("results", JDict [("matches", JList [sample_match])])]).
  reflexivity.
Defined.

(** X28. In the fallback scan the test ['GO:' in v] changes nothing: a
    value is scanned as if every string were searched for identifiers. *)
Theorem fallback_scan_substring_test_redundant
    (decimal : N → bool) (v : json) (st : GoTermsState) :
  scan_value decimal v st
  = match v with
    | JStr s =>
        fold_left (λ st f, add_go_term f JNull JNull st)
          (findall_go decimal s 0) st
    | _ => st
    end.
Proof.
  destruct v as [| | |s| |]; try done.
  unfold scan_value. destruct (contains_GO s) eqn:Hc; [done |].
  destruct (findall_go decimal s 0) as [|f fs] eqn:Hf; [done |].
  assert (contains_GO s = true) as Hc'.
  { apply (findall_go_contains decimal s 0). by rewrite Hf. }
  congruence.
Qed.
